(** * advanced-vector: [RawMemory<T>] and [Vector<T>] of vector.h

    A shallow embedding of the two class templates of
    [advanced-vector/vector.h], and the properties of their operations.

    Modelling choices.
    - The free store is a list of blocks indexed by block id.  A block is the
      list of its slots; a slot is [None] (raw memory) or [Some x] (a live
      object of type [T] in state [x]); a released block is [None].
      [operator new] is taken to succeed: [std::bad_alloc] is not modelled.
    - A [T*] is [nullptr] or a block id with a signed slot offset.
    - Sizes, capacities and indices are naturals.  [size_t] has 64 bits:
      the product [n * sizeof(T)] that [Allocate] hands to [operator new]
      is reduced modulo [2 ^ 64], and the block has room for as many
      objects as that number of bytes holds.  The [int] that [Emplace] and
      [UninitializedConstructN] use for offsets and counts is a 32-bit
      two's-complement integer, and the narrowing conversion is written out
      ([to_int]).
    - Member functions run in a state-and-exception monad.  The state is
      the free store together with the object the member is called on.  An
      outcome is a normal return, a propagating exception with the state it
      leaves behind, or undefined behaviour (which also stands for a failed
      [assert]).
    - The element type is an interface ([Element]): each constructor and
      assignment yields the new state(s) or throws ([None]).  An operation
      that throws leaves its operands as they were; destructors do not
      throw.
    - [EmplaceBack] and [Emplace] take the constructor arguments by value.
      [EmplaceBack_with] and [Emplace_with] are the same two functions for
      arguments that may be references to objects in the store, the
      elements of the vector among them: there the construction of the
      new element is an operation on the store. *)

From Stdlib Require Import ZArith Lia.
From stdpp Require Import base decidable option list numbers.

Local Open Scope Z_scope.

(** ** Outcomes and the monad *)

Inductive outcome (S A : Type) : Type :=
  | Ret (a : A) (s : S)     (* normal return *)
  | Throw (s : S)           (* an exception propagates; [s] is the state it leaves *)
  | UB.                     (* undefined behaviour or failed assertion *)
Arguments Ret {S A} a s.
Arguments Throw {S A} s.
Arguments UB {S A}.

Definition M (S A : Type) : Type := S → outcome S A.

Definition ret {S A} (a : A) : M S A := λ s, Ret a s.

Definition bind {S A B} (m : M S A) (k : A → M S B) : M S B :=
  λ s, match m s with
       | Ret a s' => k a s'
       | Throw s' => Throw s'
       | UB => UB
       end.

Definition throw {S A} : M S A := λ s, Throw s.

Definition undefined {S A} : M S A := λ _, UB.

(** [assert(b)] *)
Definition assert {S} (b : bool) : M S unit :=
  if b then ret tt else undefined.

(** [m] runs in a scope whose exit by exception runs [cleanup] (a destructor
    of a local object, or a [catch (...) { cleanup; throw; }] handler) before
    the exception propagates further.  An exception out of [cleanup] itself
    calls [std::terminate]. *)
Definition unwinding {S A} (cleanup : M S unit) (m : M S A) : M S A :=
  λ s, match m s with
       | Ret a s' => Ret a s'
       | Throw s' =>
           match cleanup s' with
           | Ret _ s'' => Throw s''
           | _ => UB
           end
       | UB => UB
       end.

(** A function declared [noexcept(b)]: when [b] holds, an exception that
    would leave it calls [std::terminate] instead.  (The functions declared
    plain [noexcept] have bodies that raise nothing and are modelled without
    this wrapper.) *)
Definition noexcept_ {S A} (b : bool) (m : M S A) : M S A :=
  if b then
    λ s, match m s with
         | Throw _ => UB
         | r => r
         end
  else m.

(** The outcome of a constructor or assignment of [T] inside the monad. *)
Definition try_ {S A} (r : option A) : M S A :=
  match r with Some a => ret a | None => throw end.

Declare Scope M_scope.
Delimit Scope M_scope with M.
Notation "x <- m ;; k" := (bind m (λ x, k))
  (at level 100, m at next level, k at level 200, right associativity) : M_scope.
Notation "m ;; k" := (bind m (λ _, k))
  (at level 100, k at level 200, right associativity) : M_scope.
Local Open Scope M_scope.

(** ** Pointers *)

Inductive ptr : Type :=
  | nullptr
  | Ptr (b : nat) (o : Z).

Global Instance ptr_eq_dec : EqDecision ptr.
Proof. solve_decision. Defined.

(** [p + n] *)
Definition ptr_add (p : ptr) (n : Z) : ptr :=
  match p with
  | nullptr => nullptr
  | Ptr b o => Ptr b (o + n)
  end.
Infix "+ₚ" := ptr_add (at level 50, left associativity).

(** [p - q] *)
Definition ptr_diff (p q : ptr) : Z :=
  match p, q with
  | Ptr _ o, Ptr _ o' => o - o'
  | _, _ => 0
  end.

(** [p <= q] and [p < q]; pointers into different blocks do not compare. *)
Definition ptr_le (p q : ptr) : bool :=
  match p, q with
  | nullptr, nullptr => true
  | Ptr b o, Ptr b' o' => bool_decide (b = b') && bool_decide (o ≤ o')
  | _, _ => false
  end.

Definition ptr_lt (p q : ptr) : bool :=
  match p, q with
  | Ptr b o, Ptr b' o' => bool_decide (b = b') && bool_decide (o < o')
  | _, _ => false
  end.

(** ** The [int] type: 32 bits, two's complement *)

Definition INT_MAX : Z := 2147483647.

(** Conversion of an integer value to [int]. *)
Definition to_int (z : Z) : Z := (z + 2 ^ 31) mod 2 ^ 32 - 2 ^ 31.

(** ** The [size_t] type: 64 bits, unsigned *)

Definition SIZE_MAX : Z := 2 ^ 64 - 1.

(** Conversion of an integer value to [size_t]. *)
Definition to_size_t (z : Z) : Z := z mod 2 ^ 64.

(** ** The free store *)

Abbreviation block T := (list (option T)).
Abbreviation heap T := (list (option (list (option T)))).

Section store.
Context {T : Type}.

(** The slot a pointer designates, if it designates one. *)
Definition slot (h : heap T) (p : ptr) : option (option T) :=
  match p with
  | nullptr => None
  | Ptr b o =>
      if decide (0 ≤ o) then
        match h !! b with
        | Some (Some blk) => blk !! Z.to_nat o
        | _ => None
        end
      else None
  end.

Definition set_slot (p : ptr) (x : option T) (h : heap T) : heap T :=
  match p with
  | nullptr => h
  | Ptr b o =>
      match h !! b with
      | Some (Some blk) => <[b := Some (<[Z.to_nat o := x]> blk)]> h
      | _ => h
      end
  end.

(** Read the live object [*p]. *)
Definition load (p : ptr) : M (heap T) T :=
  λ h, match slot h p with
       | Some (Some x) => Ret x h
       | _ => UB
       end.

(** Change the state of the live object [*p]. *)
Definition store (p : ptr) (x : T) : M (heap T) unit :=
  λ h, match slot h p with
       | Some (Some _) => Ret tt (set_slot p (Some x) h)
       | _ => UB
       end.

(** Begin the lifetime of an object in the storage at [p]
    (the effect of a placement [new (p) T(...)] once the constructor has
    produced [x]). *)
Definition construct_at (p : ptr) (x : T) : M (heap T) unit :=
  λ h, match slot h p with
       | Some _ => Ret tt (set_slot p (Some x) h)
       | None => UB
       end.

(** [std::destroy_at(p)]: the slot goes back to raw memory. *)
Definition destroy_at (p : ptr) : M (heap T) unit :=
  λ h, match slot h p with
       | Some (Some _) => Ret tt (set_slot p None h)
       | _ => UB
       end.

(** [operator new(bytes)] for a number of bytes that has room for [n]
    objects of type [T]: a fresh block of [n] raw slots. *)
Definition operator_new (n : nat) : M (heap T) ptr :=
  λ h, Ret (Ptr (length h) 0) (h ++ [Some (replicate n None)]).

(** [operator delete(p)]: [p] must be null or the address that
    [operator new] returned for a block not yet released. *)
Definition operator_delete (p : ptr) : M (heap T) unit :=
  λ h, match p with
       | nullptr => Ret tt h
       | Ptr b o =>
           if decide (o = 0) then
             match h !! b with
             | Some (Some _) => Ret tt (<[b := None]> h)
             | _ => UB
             end
           else UB
       end.
End store.

(** ** The element type *)

Class Element (T : Type) : Type := {
  (** [sizeof(T)] *)
  sizeof_T : positive;
  (** [T()] *)
  T_default : option T;
  (** [T(const T&)]: the new object *)
  T_copy : T → option T;
  (** [T(T&&)]: the new object and the state left in the source *)
  T_move : T → option (T * T);
  (** [lhs = rhs] by copy: the new state of [lhs] *)
  T_copy_assign : T → T → option T;
  (** [lhs = std::move(rhs)]: the new states of [lhs] and of [rhs] *)
  T_move_assign : T → T → option (T * T);
  is_nothrow_move_constructible : bool;
  is_copy_constructible : bool;
  is_nothrow_move_assignable : bool;
}.

Section algorithms.
Context {T : Type} `{!Element T}.

(** [new (dst) T(args...)] for a constructor [T_ctor] of [T]. *)
Definition placement_new {A} (dst : ptr) (T_ctor : A → option T) (args : A)
  : M (heap T) unit :=
  x <- try_ (T_ctor args);;
  construct_at dst x.

(** [new (dst) T(src)], copy construction from the object at [src] *)
Definition new_copy (dst src : ptr) : M (heap T) unit :=
  x <- load src;;
  y <- try_ (T_copy x);;
  construct_at dst y.

(** [new (dst) T(std::move(src))], move construction from the object at [src] *)
Definition new_move (dst src : ptr) : M (heap T) unit :=
  x <- load src;;
  r <- try_ (T_move x);;
  let '(y, x') := r in
  store src x';;
  construct_at dst y.

(** copy assignment of the object at [src] to the object at [dst] *)
Definition assign_copy (dst src : ptr) : M (heap T) unit :=
  d <- load dst;;
  x <- load src;;
  d' <- try_ (T_copy_assign d x);;
  store dst d'.

(** move assignment of the object at [src] to the object at [dst] *)
Definition assign_move (dst src : ptr) : M (heap T) unit :=
  d <- load dst;;
  x <- load src;;
  r <- try_ (T_move_assign d x);;
  let '(d', x') := r in
  store src x';;
  store dst d'.

(** move assignment of a local object [temp] to the object at [dst];
    yields the state left in [temp]. *)
Definition assign_move_from (dst : ptr) (temp : T) : M (heap T) T :=
  d <- load dst;;
  r <- try_ (T_move_assign d temp);;
  let '(d', temp') := r in
  store dst d';;
  ret temp'.

(** The constructor call [T(src)] of a placement [new] or of a local
    object, where the argument is a reference to the object at [src]:
    yields the new object. *)
Definition make_copy (src : ptr) : M (heap T) T :=
  x <- load src;;
  try_ (T_copy x).

(** The constructor call [T(std::move(src))], where the argument is an
    rvalue reference to the object at [src]: yields the new object and
    leaves the source moved from. *)
Definition make_move (src : ptr) : M (heap T) T :=
  x <- load src;;
  r <- try_ (T_move x);;
  let '(y, x') := r in
  store src x';;
  ret y.

(** [new (dst) T(args...)], where [make] runs the constructor. *)
Definition placement_new_with (dst : ptr) (make : M (heap T) T)
  : M (heap T) unit :=
  x <- make;;
  construct_at dst x.

(** [std::destroy_n(first, n)] *)
Fixpoint destroy_n (first : ptr) (n : nat) : M (heap T) unit :=
  match n with
  | O => ret tt
  | S n' => destroy_at first;; destroy_n (first +ₚ 1) n'
  end.

(** [std::uninitialized_value_construct_n(first, n)]: if a constructor
    throws, the objects already constructed are destroyed. *)
Fixpoint uninitialized_value_construct_n (first : ptr) (n : nat)
  : M (heap T) unit :=
  match n with
  | O => ret tt
  | S n' =>
      x <- try_ T_default;;
      construct_at first x;;
      unwinding (destroy_at first)
        (uninitialized_value_construct_n (first +ₚ 1) n')
  end.

(** [std::uninitialized_copy_n(first, n, d_first)]: if a constructor
    throws, the objects already constructed are destroyed.  The iterator
    it returns is unused by the vector and dropped. *)
Fixpoint uninitialized_copy_n (first : ptr) (n : nat) (d_first : ptr)
  : M (heap T) unit :=
  match n with
  | O => ret tt
  | S n' =>
      new_copy d_first first;;
      unwinding (destroy_at d_first)
        (uninitialized_copy_n (first +ₚ 1) n' (d_first +ₚ 1))
  end.

(** [std::uninitialized_move_n(first, n, d_first)]: as above; the sources
    already moved from stay moved from. *)
Fixpoint uninitialized_move_n (first : ptr) (n : nat) (d_first : ptr)
  : M (heap T) unit :=
  match n with
  | O => ret tt
  | S n' =>
      new_move d_first first;;
      unwinding (destroy_at d_first)
        (uninitialized_move_n (first +ₚ 1) n' (d_first +ₚ 1))
  end.

(** The loop of [std::copy(first, first + n, d_first)]: [n] copy
    assignments, front to back. *)
Fixpoint copy_loop (first : ptr) (n : nat) (d_first : ptr) : M (heap T) unit :=
  match n with
  | O => ret tt
  | S n' => assign_copy d_first first;; copy_loop (first +ₚ 1) n' (d_first +ₚ 1)
  end.

(** [std::copy(first, last, d_first)] *)
Definition std_copy (first last d_first : ptr) : M (heap T) unit :=
  copy_loop first (Z.to_nat (ptr_diff last first)) d_first.

Fixpoint move_loop (first : ptr) (n : nat) (d_first : ptr) : M (heap T) unit :=
  match n with
  | O => ret tt
  | S n' => assign_move d_first first;; move_loop (first +ₚ 1) n' (d_first +ₚ 1)
  end.

(** [std::move(first, last, d_first)] *)
Definition std_move (first last d_first : ptr) : M (heap T) unit :=
  move_loop first (Z.to_nat (ptr_diff last first)) d_first.

(** The loop of [std::move_backward]: [n] move assignments, back to
    front. *)
Fixpoint move_backward_loop (n : nat) (last d_last : ptr) : M (heap T) unit :=
  match n with
  | O => ret tt
  | S n' =>
      assign_move (d_last +ₚ -1) (last +ₚ -1);;
      move_backward_loop n' (last +ₚ -1) (d_last +ₚ -1)
  end.

(** [std::move_backward(first, last, d_last)] *)
Definition std_move_backward (first last d_last : ptr) : M (heap T) unit :=
  move_backward_loop (Z.to_nat (ptr_diff last first)) last d_last.
End algorithms.

(** ** [class RawMemory<T>] *)

Record RawMemory : Type := {
  buffer_ : ptr;
  capacity_ : nat;
}.

Module RawMemory_.
Section methods.
Context {T : Type} `{!Element T}.

(** [T* Allocate(size_t n)]: [n * sizeof(T)] is computed in [size_t]. *)
Definition Allocate (n : nat) : M (heap T) ptr :=
  if decide (n ≠ 0%nat) then
    let bytes := to_size_t (Z.of_nat n * Z.pos sizeof_T) in
    operator_new (Z.to_nat (bytes / Z.pos sizeof_T))
  else ret nullptr.

(** [void Deallocate(T* buf) noexcept] *)
Definition Deallocate (buf : ptr) : M (heap T) unit :=
  operator_delete buf.

(** [RawMemory() = default] *)
Definition default : RawMemory := {| buffer_ := nullptr; capacity_ := 0 |}.

(** [explicit RawMemory(size_t capacity)] *)
Definition ctor (capacity : nat) : M (heap T) RawMemory :=
  buf <- Allocate capacity;;
  ret {| buffer_ := buf; capacity_ := capacity |}.

(** [RawMemory(RawMemory&& other) noexcept]: the new object and [other]
    after the call.  [std::move] of a pointer or of a [size_t] copies
    it. *)
Definition move_ctor (other : RawMemory) : M (heap T) (RawMemory * RawMemory) :=
  ret ({| buffer_ := buffer_ other; capacity_ := capacity_ other |}, other).

(** [RawMemory& operator=(RawMemory&& rhs) noexcept] on the object [this]:
    [this] and [rhs] after the call. *)
Definition move_assign (this rhs : RawMemory) : M (heap T) (RawMemory * RawMemory) :=
  ret ({| buffer_ := buffer_ rhs; capacity_ := capacity_ rhs |}, rhs).

(** [~RawMemory()] *)
Definition dtor (this : RawMemory) : M (heap T) unit :=
  Deallocate (buffer_ this).

(** [T* operator+(size_t offset) noexcept] *)
Definition plus (this : RawMemory) (offset : nat) : M (heap T) ptr :=
  assert (bool_decide (offset ≤ capacity_ this)%nat);;
  ret (buffer_ this +ₚ Z.of_nat offset).

(** [T& operator[](size_t index) noexcept]: the address of the element *)
Definition index (this : RawMemory) (index : nat) : M (heap T) ptr :=
  assert (bool_decide (index < capacity_ this)%nat);;
  ret (buffer_ this +ₚ Z.of_nat index).

(** [void Swap(RawMemory& other) noexcept]: [this] and [other] after the
    call *)
Definition Swap (this other : RawMemory) : RawMemory * RawMemory :=
  ({| buffer_ := buffer_ other; capacity_ := capacity_ other |},
   {| buffer_ := buffer_ this; capacity_ := capacity_ this |}).

Definition GetAddress (this : RawMemory) : ptr := buffer_ this.

Definition Capacity (this : RawMemory) : nat := capacity_ this.
End methods.
End RawMemory_.

(** ** [class Vector<T>] *)

Record Vector : Type := {
  data_ : RawMemory;
  size_ : nat;
}.

(** A reference to a vector passed to a member of another: the same object
    as [*this]ʼs, or a different one. *)
Inductive vref : Type :=
  | Self
  | Other (v : Vector).

Abbreviation vstate T := (heap T * Vector)%type.

Module Vector_.
Import RawMemory_.
Section methods.
Context {T : Type} `{!Element T}.

(** Lifting an operation on the free store to a member function. *)
Definition lift {A} (m : M (heap T) A) : M (vstate T) A :=
  λ s, match m (fst s) with
       | Ret a h => Ret a (h, snd s)
       | Throw h => Throw (h, snd s)
       | UB => UB
       end.

Definition this : M (vstate T) Vector := λ s, Ret (snd s) s.

Definition set_data (d : RawMemory) : M (vstate T) unit :=
  λ s, Ret tt (fst s, {| data_ := d; size_ := size_ (snd s) |}).

Definition set_size (n : nat) : M (vstate T) unit :=
  λ s, Ret tt (fst s, {| data_ := data_ (snd s); size_ := n |}).

(** [Vector() = default] *)
Definition default : Vector := {| data_ := RawMemory_.default; size_ := 0 |}.

(** [explicit Vector(size_t size)] *)
Definition ctor (size : nat) : M (heap T) Vector :=
  data <- RawMemory_.ctor size;;
  unwinding (RawMemory_.dtor data)
    (uninitialized_value_construct_n (GetAddress data) size);;
  ret {| data_ := data; size_ := size |}.

(** [Vector(const Vector& other)] *)
Definition copy_ctor (other : Vector) : M (heap T) Vector :=
  data <- RawMemory_.ctor (size_ other);;
  unwinding (RawMemory_.dtor data)
    (uninitialized_copy_n (GetAddress (data_ other)) (size_ other)
       (GetAddress data));;
  ret {| data_ := data; size_ := size_ other |}.

(** [~Vector()], followed by the destructor of the member [data_] *)
Definition dtor (v : Vector) : M (heap T) unit :=
  destroy_n (GetAddress (data_ v)) (size_ v);;
  RawMemory_.dtor (data_ v).

Definition begin (v : Vector) : ptr := GetAddress (data_ v).

Definition end_ (v : Vector) : ptr := GetAddress (data_ v) +ₚ Z.of_nat (size_ v).

Definition Size (v : Vector) : nat := size_ v.

Definition Capacity (v : Vector) : nat := RawMemory_.Capacity (data_ v).

(** [void Swap(Vector& other) noexcept]: yields [other] after the call *)
Definition Swap (other : Vector) : M (vstate T) Vector :=
  v <- this;;
  let '(d, od) := RawMemory_.Swap (data_ v) (data_ other) in
  set_data d;;
  set_size (size_ other);;
  ret {| data_ := od; size_ := size_ v |}.

(** [Vector(Vector&& other) noexcept]: the new vector and [other] after
    the call *)
Definition move_ctor (other : Vector) : M (heap T) (Vector * Vector) :=
  λ h, match Swap other (h, default) with
       | Ret other' (h', v) => Ret (v, other') h'
       | Throw (h', _) => Throw h'
       | UB => UB
       end.

(** [void UninitializedConstructN(T* data, int pos, T* new_data)] *)
Definition UninitializedConstructN (data : ptr) (pos : Z) (new_data : ptr)
  : M (heap T) unit :=
  if is_nothrow_move_constructible || negb is_copy_constructible then
    uninitialized_move_n data (Z.to_nat pos) new_data
  else
    uninitialized_copy_n data (Z.to_nat pos) new_data.

(** [void Reserve(size_t new_capacity)] *)
Definition Reserve (new_capacity : nat) : M (vstate T) unit :=
  v <- this;;
  if decide (new_capacity ≤ RawMemory_.Capacity (data_ v))%nat then ret tt
  else
    new_data <- lift (RawMemory_.ctor new_capacity);;
    unwinding (lift (RawMemory_.dtor new_data))
      (lift (UninitializedConstructN (GetAddress (data_ v))
               (to_int (Z.of_nat (size_ v))) (GetAddress new_data));;
       lift (destroy_n (GetAddress (data_ v)) (size_ v)));;
    let '(d, new_data) := RawMemory_.Swap (data_ v) new_data in
    set_data d;;
    lift (RawMemory_.dtor new_data).

(** [void Resize(size_t new_size)] *)
Definition Resize (new_size : nat) : M (vstate T) unit :=
  v <- this;;
  if decide (new_size < size_ v)%nat then
    lift (destroy_n (GetAddress (data_ v) +ₚ Z.of_nat new_size)
            (size_ v - new_size));;
    set_size new_size
  else
    Reserve new_size;;
    v <- this;;
    lift (uninitialized_value_construct_n
            (GetAddress (data_ v) +ₚ Z.of_nat (size_ v)) (new_size - size_ v));;
    set_size new_size.

(** [template <typename... Args> T& EmplaceBack(Args&&... args)]: yields
    the address of the new element.  [T_ctor] is the constructor of [T]
    that the arguments select. *)
Definition EmplaceBack {A} (T_ctor : A → option T) (args : A) : M (vstate T) ptr :=
  v <- this;;
  result <-
    (if decide (size_ v = Capacity v) then
       new_data <- lift (RawMemory_.ctor
                           (if decide (size_ v = 0%nat) then 1 else size_ v * 2)%nat);;
       result <-
         unwinding (lift (RawMemory_.dtor new_data))
           (p <- lift (plus new_data (size_ v));;
            lift (placement_new p T_ctor args);;
            lift (UninitializedConstructN (GetAddress (data_ v))
                    (to_int (Z.of_nat (size_ v))) (GetAddress new_data));;
            lift (destroy_n (GetAddress (data_ v)) (size_ v));;
            ret p);;
       let '(d, new_data) := RawMemory_.Swap (data_ v) new_data in
       set_data d;;
       lift (RawMemory_.dtor new_data);;
       ret result
     else
       p <- lift (plus (data_ v) (size_ v));;
       lift (placement_new p T_ctor args);;
       ret p);;
  v <- this;;
  set_size (size_ v + 1);;
  ret result.

(** [void PopBack() noexcept] *)
Definition PopBack : M (vstate T) unit :=
  v <- this;;
  if decide (0 < size_ v)%nat then
    lift (destroy_at (GetAddress (data_ v) +ₚ Z.of_nat (size_ v) +ₚ -1));;
    set_size (size_ v - 1)
  else ret tt.

(** [void PushBack(const T& value)] *)
Definition PushBack (value : T) : M (vstate T) unit :=
  EmplaceBack T_copy value;;
  ret tt.

(** [void PushBack(T&& value)] *)
Definition PushBack_rvalue (value : T) : M (vstate T) unit :=
  EmplaceBack (λ x, fst <$> T_move x) value;;
  ret tt.

(** The [try] block of [Emplace], entered when [size_ < Capacity()]. *)
Definition Emplace_try_block {A} (T_ctor : A → option T) (pos : ptr) (args : A)
    (v : Vector) (offset : Z) : M (vstate T) unit :=
  if decide (pos ≠ end_ v) then
    temp <- try_ (T_ctor args);;
    lift (new_move (end_ v) (end_ v +ₚ -1));;
    lift (std_move_backward (begin v +ₚ offset) (end_ v +ₚ -1) (end_ v));;
    lift (assign_move_from (begin v +ₚ offset) temp);;
    ret tt
  else
    lift (placement_new (end_ v) T_ctor args).

(** [template <typename... Args> iterator Emplace(const_iterator pos, Args&&... args)] *)
Definition Emplace {A} (T_ctor : A → option T) (pos : ptr) (args : A)
  : M (vstate T) ptr :=
  v <- this;;
  assert (ptr_le (begin v) pos && ptr_le pos (end_ v));;
  let offset : Z := to_int (ptr_diff pos (begin v)) in
  (if decide (RawMemory_.Capacity (data_ v) ≤ size_ v)%nat then
     new_data <- lift (RawMemory_.ctor
                         (if decide (size_ v = 0%nat) then 1 else size_ v * 2)%nat);;
     unwinding (lift (RawMemory_.dtor new_data))
       (lift (placement_new (GetAddress new_data +ₚ offset) T_ctor args);;
        lift (UninitializedConstructN (GetAddress (data_ v)) offset
                (GetAddress new_data));;
        lift (UninitializedConstructN (GetAddress (data_ v) +ₚ offset)
                (to_int (Z.of_nat (size_ v) - offset))
                (GetAddress new_data +ₚ offset +ₚ 1));;
        lift (destroy_n (GetAddress (data_ v)) (size_ v)));;
     let '(d, new_data) := RawMemory_.Swap (data_ v) new_data in
     set_data d;;
     lift (RawMemory_.dtor new_data)
   else
     (* try { ... } catch (...) { operator delete (end()); throw; } *)
     unwinding (lift (operator_delete (end_ v)))
       (Emplace_try_block T_ctor pos args v offset));;
  v <- this;;
  set_size (size_ v + 1);;
  ret (begin v +ₚ offset).

(** [iterator Erase(const_iterator pos) noexcept(std::is_nothrow_move_assignable_v<T>)] *)
Definition Erase (pos : ptr) : M (vstate T) ptr :=
  noexcept_ is_nothrow_move_assignable
    (v <- this;;
     assert (ptr_le (begin v) pos && ptr_lt pos (end_ v));;
     let offset : nat := Z.to_nat (ptr_diff pos (begin v)) in
     lift (std_move (begin v +ₚ Z.of_nat offset +ₚ 1) (end_ v)
             (begin v +ₚ Z.of_nat offset));;
     PopBack;;
     v <- this;;
     ret (begin v +ₚ Z.of_nat offset)).

(** [iterator Insert(const_iterator pos, const T& value)] *)
Definition Insert (pos : ptr) (value : T) : M (vstate T) ptr :=
  Emplace T_copy pos value.

(** [iterator Insert(const_iterator pos, T&& value)] *)
Definition Insert_rvalue (pos : ptr) (value : T) : M (vstate T) ptr :=
  Emplace (λ x, fst <$> T_move x) pos value.

(** [EmplaceBack] once more, for arguments that may be references to
    objects in the store: [make] runs the constructor that
    [T(std::forward<Args>(args)...)] selects, reading and, for an rvalue
    reference, modifying the objects the arguments refer to. *)
Definition EmplaceBack_with (make : M (heap T) T) : M (vstate T) ptr :=
  v <- this;;
  result <-
    (if decide (size_ v = Capacity v) then
       new_data <- lift (RawMemory_.ctor
                           (if decide (size_ v = 0%nat) then 1 else size_ v * 2)%nat);;
       result <-
         unwinding (lift (RawMemory_.dtor new_data))
           (p <- lift (plus new_data (size_ v));;
            lift (placement_new_with p make);;
            lift (UninitializedConstructN (GetAddress (data_ v))
                    (to_int (Z.of_nat (size_ v))) (GetAddress new_data));;
            lift (destroy_n (GetAddress (data_ v)) (size_ v));;
            ret p);;
       let '(d, new_data) := RawMemory_.Swap (data_ v) new_data in
       set_data d;;
       lift (RawMemory_.dtor new_data);;
       ret result
     else
       p <- lift (plus (data_ v) (size_ v));;
       lift (placement_new_with p make);;
       ret p);;
  v <- this;;
  set_size (size_ v + 1);;
  ret result.

(** [PushBack(const T& value)] and [PushBack(T&& value)] where [value]
    refers to the object at that address *)
Definition PushBack_ref (value : ptr) : M (vstate T) unit :=
  EmplaceBack_with (make_copy value);;
  ret tt.

Definition PushBack_rvalue_ref (value : ptr) : M (vstate T) unit :=
  EmplaceBack_with (make_move value);;
  ret tt.

(** [Emplace] once more, in the same way. *)
Definition Emplace_try_block_with (make : M (heap T) T) (pos : ptr)
    (v : Vector) (offset : Z) : M (vstate T) unit :=
  if decide (pos ≠ end_ v) then
    temp <- lift make;;
    lift (new_move (end_ v) (end_ v +ₚ -1));;
    lift (std_move_backward (begin v +ₚ offset) (end_ v +ₚ -1) (end_ v));;
    lift (assign_move_from (begin v +ₚ offset) temp);;
    ret tt
  else
    lift (placement_new_with (end_ v) make).

Definition Emplace_with (make : M (heap T) T) (pos : ptr)
  : M (vstate T) ptr :=
  v <- this;;
  assert (ptr_le (begin v) pos && ptr_le pos (end_ v));;
  let offset : Z := to_int (ptr_diff pos (begin v)) in
  (if decide (RawMemory_.Capacity (data_ v) ≤ size_ v)%nat then
     new_data <- lift (RawMemory_.ctor
                         (if decide (size_ v = 0%nat) then 1 else size_ v * 2)%nat);;
     unwinding (lift (RawMemory_.dtor new_data))
       (lift (placement_new_with (GetAddress new_data +ₚ offset) make);;
        lift (UninitializedConstructN (GetAddress (data_ v)) offset
                (GetAddress new_data));;
        lift (UninitializedConstructN (GetAddress (data_ v) +ₚ offset)
                (to_int (Z.of_nat (size_ v) - offset))
                (GetAddress new_data +ₚ offset +ₚ 1));;
        lift (destroy_n (GetAddress (data_ v)) (size_ v)));;
     let '(d, new_data) := RawMemory_.Swap (data_ v) new_data in
     set_data d;;
     lift (RawMemory_.dtor new_data)
   else
     unwinding (lift (operator_delete (end_ v)))
       (Emplace_try_block_with make pos v offset));;
  v <- this;;
  set_size (size_ v + 1);;
  ret (begin v +ₚ offset).

(** [Insert(pos, value)], both overloads, where [value] refers to the
    object at that address *)
Definition Insert_ref (pos value : ptr) : M (vstate T) ptr :=
  Emplace_with (make_copy value) pos.

Definition Insert_rvalue_ref (pos value : ptr) : M (vstate T) ptr :=
  Emplace_with (make_move value) pos.

(** [Vector& operator=(const Vector& rhs)] *)
Definition copy_assign (rhs : vref) : M (vstate T) unit :=
  match rhs with
  | Self => ret tt
  | Other rhs =>
      v <- this;;
      if decide (RawMemory_.Capacity (data_ v) < size_ rhs)%nat then
        rhs_copy <- lift (copy_ctor rhs);;
        rhs_copy <- Swap rhs_copy;;
        lift (dtor rhs_copy)
      else
        (if decide (size_ rhs < size_ v)%nat then
           lift (std_copy (GetAddress (data_ rhs))
                   (GetAddress (data_ rhs) +ₚ Z.of_nat (size_ rhs))
                   (GetAddress (data_ v)));;
           lift (destroy_n (GetAddress (data_ v) +ₚ Z.of_nat (size_ rhs))
                   (size_ v - size_ rhs))
         else
           lift (std_copy (GetAddress (data_ rhs))
                   (GetAddress (data_ rhs) +ₚ Z.of_nat (size_ v))
                   (GetAddress (data_ v)));;
           lift (uninitialized_copy_n
                   (GetAddress (data_ rhs) +ₚ Z.of_nat (size_ v))
                   (size_ rhs - size_ v)
                   (GetAddress (data_ v) +ₚ Z.of_nat (size_ v))));;
        set_size (size_ rhs)
  end.

(** [Vector& operator=(Vector&& rhs) noexcept]: yields [rhs] after the
    call *)
Definition move_assign (rhs : vref) : M (vstate T) vref :=
  match rhs with
  | Self => ret Self
  | Other rhs => rhs' <- Swap rhs;; ret (Other rhs')
  end.

(** [T& operator[](size_t index) noexcept]: the address of the element *)
Definition index (index : nat) : M (vstate T) ptr :=
  v <- this;;
  assert (bool_decide (index < size_ v)%nat);;
  lift (RawMemory_.index (data_ v) index).
End methods.
End Vector_.

(** * Specification vocabulary *)

(** Writing to a slot changes no block but the one pointed into. *)
Definition frame {T} (b : nat) (h h' : heap T) : Prop :=
  length h' = length h ∧ ∀ c, c ≠ b → h' !! c = h !! c.

(** ** Element types with value semantics *)

Section laws.
Context (T : Type) `{!Element T}.

(** A copy does not throw and yields the value of its source. *)
Definition copy_preserves : Prop := ∀ x : T, T_copy x = Some x.

(** A move does not throw and yields the value its source had. *)
Definition move_preserves : Prop := ∀ x : T, fst <$> T_move x = Some x.

Definition copy_assign_preserves : Prop :=
  ∀ d x : T, T_copy_assign d x = Some x.

Definition move_assign_preserves : Prop :=
  ∀ d x : T, fst <$> T_move_assign d x = Some x.

(** What [std::is_nothrow_move_constructible_v<T>] promises. *)
Definition nothrow_move_sound : Prop :=
  is_nothrow_move_constructible = true → ∀ x : T, is_Some (T_move x).

(** [n] objects of type [T] take at most [SIZE_MAX] bytes: the product
    [n * sizeof(T)] of [Allocate] does not wrap around. *)
Definition fits (n : nat) : Prop :=
  Z.of_nat n * Z.pos sizeof_T ≤ SIZE_MAX.
End laws.

(** The state a move construction, or a move assignment to an object in
    state [d], leaves in a source in state [x]. *)
Definition moved_from {T} `{!Element T} (x : T) : T :=
  match T_move x with Some (_, x') => x' | None => x end.

Definition move_assigned_from {T} `{!Element T} (d x : T) : T :=
  match T_move_assign d x with Some (_, x') => x' | None => x end.

(** ** The vector and the sequence it holds *)

(** [repr h v l]: in the store [h] the vector [v] holds the sequence [l].
    This is the class invariant: [size_ <= capacity_], the buffer is a block
    of [capacity_] slots, the first [size_] slots hold live objects and the
    others are raw memory; a vector without buffer has capacity zero. *)
Definition repr {T} (h : heap T) (v : Vector) (l : list T) : Prop :=
  size_ v = length l ∧
  (length l ≤ capacity_ (data_ v))%nat ∧
  match buffer_ (data_ v) with
  | nullptr => capacity_ (data_ v) = 0%nat
  | Ptr b o =>
      o = 0 ∧
      h !! b = Some (Some ((Some <$> l)
                           ++ replicate (capacity_ (data_ v) - length l) None))
  end.

(** Two vectors do not share their buffer. *)
Definition separate (v w : Vector) : Prop :=
  match buffer_ (data_ v), buffer_ (data_ w) with
  | Ptr b _, Ptr b' _ => b ≠ b'
  | _, _ => True
  end.

(** The sequence [l] with [x] put in at index [k] is what the call that
    ended in [r] left in the vector, which is one element longer than
    [size]; the call returned the address of index [k], where [x] lives. *)
Definition inserted {T} (l : list T) (k : nat) (x : T) (size : nat)
    (r : outcome (vstate T) ptr) : Prop :=
  ∃ h' v',
    r = Ret (Vector_.begin v' +ₚ Z.of_nat k) (h', v') ∧
    repr h' v' (take k l ++ x :: drop k l) ∧
    size_ v' = (size + 1)%nat ∧
    load (Vector_.begin v' +ₚ Z.of_nat k) h' = Ret x h'.

(** [int] elements *)
#[global] Instance int_Element : Element Z := {|
  T_default := Some 0;
  T_copy x := Some x;
  T_move x := Some (x, x);
  T_copy_assign _ x := Some x;
  T_move_assign _ x := Some (x, x);
  is_nothrow_move_constructible := true;
  is_copy_constructible := true;
  is_nothrow_move_assignable := true;
  sizeof_T := 4;
|}.

(** An element type that cannot be copied, and whose move constructor and
    move assignment throw when the source holds 13; a move leaves 0 in its
    source. *)
Definition move_only_Element : Element Z := {|
  T_default := Some 0;
  T_copy _ := None;
  T_move x := if decide (x = 13) then None else Some (x, 0);
  T_copy_assign _ _ := None;
  T_move_assign _ x := if decide (x = 13) then None else Some (x, 0);
  is_nothrow_move_constructible := false;
  is_copy_constructible := false;
  is_nothrow_move_assignable := false;
  sizeof_T := 4;
|}.

(** An element type that can be copied, and whose copy and move operations
    throw when the source holds 13. *)
Definition throwing_copy_Element : Element Z := {|
  T_default := Some 0;
  T_copy x := if decide (x = 13) then None else Some x;
  T_move x := if decide (x = 13) then None else Some (x, 0);
  T_copy_assign _ x := if decide (x = 13) then None else Some x;
  T_move_assign _ x := if decide (x = 13) then None else Some (x, 0);
  is_nothrow_move_constructible := false;
  is_copy_constructible := true;
  is_nothrow_move_assignable := false;
  sizeof_T := 4;
|}.

(** An element type whose default constructor throws; its other operations
    are those of [int]. *)
Definition throwing_default_Element : Element Z := {|
  T_default := None;
  T_copy x := Some x;
  T_move x := Some (x, x);
  T_copy_assign _ x := Some x;
  T_move_assign _ x := Some (x, x);
  is_nothrow_move_constructible := true;
  is_copy_constructible := true;
  is_nothrow_move_assignable := true;
  sizeof_T := 4;
|}.

(** Whatever the outcome of [m], normal or exceptional, only block [b] has
    changed. *)
Definition within {T A} (b : nat) (m : M (heap T) A) : Prop :=
  ∀ h, match m h with
       | Ret _ h' | Throw h' => frame b h h'
       | UB => True
       end.

(** The same for a member function, which moreover leaves the vector object
    as it was. *)
Definition vwithin {T A} (b : nat) (m : M (vstate T) A) : Prop :=
  ∀ h v, match m (h, v) with
         | Ret _ s' | Throw s' => s'.2 = v ∧ frame b h s'.1
         | UB => True
         end.

(** If an exception leaves [m], only block [b] has changed and the vector
    object is as it was. *)
Definition vthrows {T A} (b : nat) (m : M (vstate T) A) : Prop :=
  ∀ h v s', m (h, v) = Throw s' → s'.2 = v ∧ frame b h s'.1.

(** [m] lets no exception escape. *)
Definition nothrow {S A} (m : M S A) : Prop := ∀ s s', m s ≠ Throw s'.

(** [m] may read the store and may throw, but leaves the store as it was:
    what a constructor does whose arguments are values or lvalue
    references. *)
Definition readonly {T A} (m : M (heap T) A) : Prop :=
  ∀ h, match m h with
       | Ret _ h' | Throw h' => h' = h
       | UB => True
       end.

(** The capacity a full vector of [n] elements grows to. *)
Definition grown (n : nat) : nat :=
  if decide (n = 0%nat) then 1%nat else (n * 2)%nat.

(** The capacity after [k] appends to an empty vector: zero, then the least
    power of two that is at least [k]. *)
Definition capacity_after (k : nat) : nat :=
  if decide (k = 0%nat) then 0%nat else (2 ^ Nat.log2_up k)%nat.

Section pushes.
Context {T : Type} `{!Element T}.
Import Vector_.

(** The argument of a [PushBack] call: an lvalue selects
    [PushBack(const T&)], an rvalue [PushBack(T&&)]. *)
Inductive push_arg : Type :=
  | lvalue (x : T)
  | rvalue (x : T).

Definition arg_value (a : push_arg) : T :=
  match a with lvalue x | rvalue x => x end.

Definition push (a : push_arg) : M (vstate T) unit :=
  match a with
  | lvalue x => PushBack x
  | rvalue x => PushBack_rvalue x
  end.

(** Consecutive [PushBack] calls, reading [Capacity()] after each. *)
Fixpoint push_all (args : list push_arg) : M (vstate T) (list nat) :=
  match args with
  | [] => ret []
  | a :: args' =>
      push a;;
      v <- this;;
      caps <- push_all args';;
      ret (Capacity v :: caps)
  end.
End pushes.
Arguments push_arg T : clear implicits.

(** * Properties *)

(** ** The monad *)

Section monad_facts.
Context {S A B : Type}.

Lemma bind_Ret (m : M S A) (k : A → M S B) s a s' :
  m s = Ret a s' → bind m k s = k a s'.
Proof. intros H. unfold bind. by rewrite H. Qed.

Lemma bind_Throw (m : M S A) (k : A → M S B) s s' :
  m s = Throw s' → bind m k s = Throw s'.
Proof. intros H. unfold bind. by rewrite H. Qed.

Lemma bind_UB (m : M S A) (k : A → M S B) s :
  m s = UB → bind m k s = UB.
Proof. intros H. unfold bind. by rewrite H. Qed.

Lemma unwinding_Ret (c : M S unit) (m : M S A) s a s' :
  m s = Ret a s' → unwinding c m s = Ret a s'.
Proof. intros H. unfold unwinding. by rewrite H. Qed.

(** An exception leaves [bind m k] from [m] or from [k]. *)
Lemma bind_Throw_inv (m : M S A) (k : A → M S B) s s' :
  bind m k s = Throw s' →
  m s = Throw s' ∨ ∃ a s1, m s = Ret a s1 ∧ k a s1 = Throw s'.
Proof.
  unfold bind. destruct (m s) as [a s1| s1|]; intros H; try done.
  - right. eauto.
  - left. by injection H as ->.
Qed.

(** An exception leaves [unwinding c m] after the clean-up has run. *)
Lemma unwinding_Throw_inv (c : M S unit) (m : M S A) s s' :
  unwinding c m s = Throw s' →
  ∃ s1, m s = Throw s1 ∧ c s1 = Ret tt s'.
Proof.
  unfold unwinding. destruct (m s) as [a s1| s1|]; try done.
  destruct (c s1) as [[] s2| |] eqn:Hc; try done.
  intros [= <-]. eauto.
Qed.
End monad_facts.

(** ** The free store *)

Section store_facts.
Context {T : Type}.
Implicit Types (h : heap T) (pre suf : block T).

Lemma heap_lookup_insert h b x y :
  h !! b = Some x → <[b := y]> h !! b = Some y.
Proof. intros H. apply list_lookup_insert_eq. by eapply lookup_lt_Some. Qed.

Lemma slot_middle h b pre suf s o :
  h !! b = Some (Some (pre ++ s :: suf)) → o = Z.of_nat (length pre) →
  slot h (Ptr b o) = Some s.
Proof.
  intros Hb ->. unfold slot. rewrite decide_True by lia.
  rewrite Hb, Nat2Z.id. by apply list_lookup_middle.
Qed.

Lemma set_slot_middle h b pre suf s s' o :
  h !! b = Some (Some (pre ++ s :: suf)) → o = Z.of_nat (length pre) →
  set_slot (Ptr b o) s' h = <[b := Some (pre ++ s' :: suf)]> h.
Proof.
  intros Hb ->. unfold set_slot. rewrite Hb, Nat2Z.id.
  do 2 f_equal. rewrite insert_app_r_alt by lia.
  by replace (length pre - length pre)%nat with 0%nat by lia.
Qed.

Lemma load_middle h b pre suf x o :
  h !! b = Some (Some (pre ++ Some x :: suf)) → o = Z.of_nat (length pre) →
  load (Ptr b o) h = Ret x h.
Proof. intros Hb Ho. unfold load. by rewrite (slot_middle _ _ _ _ _ _ Hb Ho). Qed.

Lemma store_middle h b pre suf x y o :
  h !! b = Some (Some (pre ++ Some x :: suf)) → o = Z.of_nat (length pre) →
  store (Ptr b o) y h = Ret tt (<[b := Some (pre ++ Some y :: suf)]> h).
Proof.
  intros Hb Ho. unfold store. rewrite (slot_middle _ _ _ _ _ _ Hb Ho).
  by rewrite (set_slot_middle _ _ _ _ _ _ _ Hb Ho).
Qed.

Lemma construct_at_middle h b pre suf s y o :
  h !! b = Some (Some (pre ++ s :: suf)) → o = Z.of_nat (length pre) →
  construct_at (Ptr b o) y h = Ret tt (<[b := Some (pre ++ Some y :: suf)]> h).
Proof.
  intros Hb Ho. unfold construct_at. rewrite (slot_middle _ _ _ _ _ _ Hb Ho).
  by rewrite (set_slot_middle _ _ _ _ _ _ _ Hb Ho).
Qed.

Lemma destroy_at_middle h b pre suf x o :
  h !! b = Some (Some (pre ++ Some x :: suf)) → o = Z.of_nat (length pre) →
  destroy_at (Ptr b o) h = Ret tt (<[b := Some (pre ++ None :: suf)]> h).
Proof.
  intros Hb Ho. unfold destroy_at. rewrite (slot_middle _ _ _ _ _ _ Hb Ho).
  by rewrite (set_slot_middle _ _ _ _ _ _ _ Hb Ho).
Qed.

Lemma frame_refl b h : frame b h h.
Proof. by split. Qed.

Lemma frame_trans b h1 h2 h3 : frame b h1 h2 → frame b h2 h3 → frame b h1 h3.
Proof.
  intros [L1 F1] [L2 F2]. split; [congruence|].
  intros c Hc. by rewrite F2, F1.
Qed.

Lemma set_slot_frame b o s h : frame b h (set_slot (Ptr b o) s h).
Proof.
  unfold set_slot. destruct (h !! b) as [[blk|]|]; try apply frame_refl.
  split; [apply length_insert|].
  intros c Hc. by apply list_lookup_insert_ne.
Qed.
End store_facts.

(** ** The library algorithms on blocks *)

Section loops.
Context {T : Type} `{!Element T}.
Implicit Types (h : heap T) (pre suf : block T) (l : list T).

Lemma T_move_eq x : move_preserves T → T_move x = Some (x, moved_from x).
Proof.
  intros H. specialize (H x). unfold moved_from.
  destruct (T_move x) as [[y x']|]; simplify_eq/=; done.
Qed.

Lemma T_move_assign_eq d x :
  move_assign_preserves T → T_move_assign d x = Some (x, move_assigned_from d x).
Proof.
  intros H. specialize (H d x). unfold move_assigned_from.
  destruct (T_move_assign d x) as [[y x']|]; simplify_eq/=; done.
Qed.

Lemma destroy_n_spec l : ∀ h b pre suf o,
  h !! b = Some (Some (pre ++ (Some <$> l) ++ suf)) →
  o = Z.of_nat (length pre) →
  destroy_n (Ptr b o) (length l) h
  = Ret tt (<[b := Some (pre ++ replicate (length l) None ++ suf)]> h).
Proof.
  induction l as [|x l IH]; intros h b pre suf o Hb Ho; simpl in *.
  - unfold ret. f_equal. symmetry. by apply list_insert_id.
  - erewrite bind_Ret; [|by eapply destroy_at_middle].
    erewrite (IH _ b (pre ++ [None]) suf).
    + rewrite list_insert_insert_eq. by rewrite <- app_assoc.
    + erewrite heap_lookup_insert by done. by rewrite <- app_assoc.
    + rewrite length_app. simpl. lia.
Qed.

Lemma new_copy_spec h b b' pre suf dpre dsuf x s o o' :
  copy_preserves T → b ≠ b' →
  h !! b = Some (Some (pre ++ Some x :: suf)) → o = Z.of_nat (length pre) →
  h !! b' = Some (Some (dpre ++ s :: dsuf)) → o' = Z.of_nat (length dpre) →
  new_copy (Ptr b' o') (Ptr b o) h
  = Ret tt (<[b' := Some (dpre ++ Some x :: dsuf)]> h).
Proof.
  intros Hc Hne Hb Ho Hb' Ho'. unfold new_copy.
  erewrite bind_Ret; [|by eapply load_middle].
  rewrite Hc. simpl. erewrite bind_Ret; [|done].
  by eapply construct_at_middle.
Qed.

Lemma uninitialized_copy_n_spec l : ∀ h b b' pre suf dpre junk dsuf o o',
  copy_preserves T → b ≠ b' →
  h !! b = Some (Some (pre ++ (Some <$> l) ++ suf)) → o = Z.of_nat (length pre) →
  h !! b' = Some (Some (dpre ++ junk ++ dsuf)) → o' = Z.of_nat (length dpre) →
  length junk = length l →
  uninitialized_copy_n (Ptr b o) (length l) (Ptr b' o') h
  = Ret tt (<[b' := Some (dpre ++ (Some <$> l) ++ dsuf)]> h).
Proof.
  induction l as [|x l IH];
    intros h b b' pre suf dpre junk dsuf o o' Hc Hne Hb Ho Hb' Ho' Hlen;
    simpl in *.
  - destruct junk; [|done]. unfold ret. f_equal. symmetry.
    by apply list_insert_id.
  - destruct junk as [|s junk]; [done|]. simpl in *.
    erewrite bind_Ret; [|by eapply new_copy_spec].
    erewrite unwinding_Ret; [done|].
    erewrite (IH _ b b' (pre ++ [Some x]) suf (dpre ++ [Some x]) junk dsuf);
      try done.
    + rewrite list_insert_insert_eq. by rewrite <- app_assoc.
    + rewrite list_lookup_insert_ne by done. by rewrite <- app_assoc.
    + rewrite length_app. simpl. lia.
    + erewrite heap_lookup_insert by done. by rewrite <- app_assoc.
    + rewrite length_app. simpl. lia.
    + lia.
Qed.
Lemma new_move_spec h b b' pre suf dpre dsuf x s o o' :
  move_preserves T → b ≠ b' →
  h !! b = Some (Some (pre ++ Some x :: suf)) → o = Z.of_nat (length pre) →
  h !! b' = Some (Some (dpre ++ s :: dsuf)) → o' = Z.of_nat (length dpre) →
  new_move (Ptr b' o') (Ptr b o) h
  = Ret tt (<[b' := Some (dpre ++ Some x :: dsuf)]>
              (<[b := Some (pre ++ Some (moved_from x) :: suf)]> h)).
Proof.
  intros Hm Hne Hb Ho Hb' Ho'. unfold new_move.
  erewrite bind_Ret; [|by eapply load_middle].
  rewrite T_move_eq by done. simpl. erewrite bind_Ret; [|done].
  cbv beta iota.
  erewrite bind_Ret; [|by eapply store_middle].
  eapply construct_at_middle; [|done].
  by rewrite list_lookup_insert_ne.
Qed.

Lemma heap_insert_3 h b b' (x y z : option (block T)) :
  b ≠ b' →
  <[b := z]> (<[b' := y]> (<[b := x]> h)) = <[b' := y]> (<[b := z]> h).
Proof.
  intros Hne. rewrite list_insert_insert_ne by done.
  by rewrite list_insert_insert_eq.
Qed.

Lemma uninitialized_move_n_spec l : ∀ h b b' pre suf dpre junk dsuf o o',
  move_preserves T → b ≠ b' →
  h !! b = Some (Some (pre ++ (Some <$> l) ++ suf)) → o = Z.of_nat (length pre) →
  h !! b' = Some (Some (dpre ++ junk ++ dsuf)) → o' = Z.of_nat (length dpre) →
  length junk = length l →
  uninitialized_move_n (Ptr b o) (length l) (Ptr b' o') h
  = Ret tt (<[b' := Some (dpre ++ (Some <$> l) ++ dsuf)]>
              (<[b := Some (pre ++ (Some <$> (moved_from <$> l)) ++ suf)]> h)).
Proof.
  induction l as [|x l IH];
    intros h b b' pre suf dpre junk dsuf o o' Hc Hne Hb Ho Hb' Ho' Hlen;
    simpl in *.
  - destruct junk; [|done]. unfold ret. f_equal. symmetry.
    rewrite (list_insert_id h b) by done. by apply list_insert_id.
  - destruct junk as [|s junk]; [done|]. simpl in *.
    erewrite bind_Ret; [|by eapply new_move_spec].
    erewrite unwinding_Ret; [done|].
    erewrite (IH _ b b' (pre ++ [Some (moved_from x)]) suf
                (dpre ++ [Some x]) junk dsuf); try done.
    + rewrite (heap_insert_3 _ b b') by done.
      rewrite list_insert_insert_eq. by rewrite <- !app_assoc.
    + rewrite list_lookup_insert_ne by done.
      erewrite heap_lookup_insert by done. by rewrite <- app_assoc.
    + rewrite length_app. simpl. lia.
    + erewrite heap_lookup_insert; [by rewrite <- app_assoc|].
      by rewrite list_lookup_insert_ne.
    + rewrite length_app. simpl. lia.
    + lia.
Qed.

Lemma assign_copy_spec h b b' pre suf dpre dsuf x d o o' :
  copy_assign_preserves T → b ≠ b' →
  h !! b = Some (Some (pre ++ Some x :: suf)) → o = Z.of_nat (length pre) →
  h !! b' = Some (Some (dpre ++ Some d :: dsuf)) → o' = Z.of_nat (length dpre) →
  assign_copy (Ptr b' o') (Ptr b o) h
  = Ret tt (<[b' := Some (dpre ++ Some x :: dsuf)]> h).
Proof.
  intros Hc Hne Hb Ho Hb' Ho'. unfold assign_copy.
  erewrite bind_Ret; [|by eapply load_middle].
  erewrite bind_Ret; [|by eapply load_middle].
  rewrite Hc. simpl. erewrite bind_Ret; [|done].
  by eapply store_middle.
Qed.

Lemma copy_loop_spec l : ∀ h b b' pre suf dpre dl dsuf o o',
  copy_assign_preserves T → b ≠ b' →
  h !! b = Some (Some (pre ++ (Some <$> l) ++ suf)) → o = Z.of_nat (length pre) →
  h !! b' = Some (Some (dpre ++ (Some <$> dl) ++ dsuf)) →
  o' = Z.of_nat (length dpre) →
  length dl = length l →
  copy_loop (Ptr b o) (length l) (Ptr b' o') h
  = Ret tt (<[b' := Some (dpre ++ (Some <$> l) ++ dsuf)]> h).
Proof.
  induction l as [|x l IH];
    intros h b b' pre suf dpre dl dsuf o o' Hc Hne Hb Ho Hb' Ho' Hlen;
    simpl in *.
  - destruct dl; [|done]. unfold ret. f_equal. symmetry.
    by apply list_insert_id.
  - destruct dl as [|d dl]; [done|]. simpl in *.
    erewrite bind_Ret; [|by eapply assign_copy_spec].
    erewrite (IH _ b b' (pre ++ [Some x]) suf (dpre ++ [Some x]) dl dsuf);
      try done.
    + rewrite list_insert_insert_eq. by rewrite <- app_assoc.
    + rewrite list_lookup_insert_ne by done. by rewrite <- app_assoc.
    + rewrite length_app. simpl. lia.
    + erewrite heap_lookup_insert by done. by rewrite <- app_assoc.
    + rewrite length_app. simpl. lia.
    + lia.
Qed.

(** Move assignment between neighbours of one block. *)
Lemma assign_move_left h b pre d x suf o o' :
  move_assign_preserves T →
  h !! b = Some (Some (pre ++ Some d :: Some x :: suf)) →
  o = Z.of_nat (length pre) → o' = o + 1 →
  assign_move (Ptr b o) (Ptr b o') h
  = Ret tt (<[b := Some (pre ++ Some x :: Some (move_assigned_from d x) :: suf)]> h).
Proof.
  intros Hm Hb Ho Ho'. unfold assign_move.
  erewrite bind_Ret; [|by eapply load_middle].
  erewrite bind_Ret;
    [|eapply (load_middle _ _ (pre ++ [Some d]));
      [rewrite <- app_assoc; exact Hb|rewrite length_app; simpl; lia]].
  rewrite T_move_assign_eq by done. simpl. erewrite bind_Ret; [|done].
  cbv beta iota.
  erewrite bind_Ret;
    [|eapply (store_middle _ _ (pre ++ [Some d]));
      [rewrite <- app_assoc; exact Hb|rewrite length_app; simpl; lia]].
  erewrite store_middle; [|erewrite heap_lookup_insert by done;
                            by rewrite <- app_assoc|done].
  by rewrite list_insert_insert_eq.
Qed.

Lemma assign_move_right h b pre d x suf o o' :
  move_assign_preserves T →
  h !! b = Some (Some (pre ++ Some x :: Some d :: suf)) →
  o = Z.of_nat (length pre) → o' = o + 1 →
  assign_move (Ptr b o') (Ptr b o) h
  = Ret tt (<[b := Some (pre ++ Some (move_assigned_from d x) :: Some x :: suf)]> h).
Proof.
  intros Hm Hb Ho Ho'. unfold assign_move.
  erewrite bind_Ret;
    [|eapply (load_middle _ _ (pre ++ [Some x]));
      [rewrite <- app_assoc; exact Hb|rewrite length_app; simpl; lia]].
  erewrite bind_Ret; [|by eapply load_middle].
  rewrite T_move_assign_eq by done. simpl. erewrite bind_Ret; [|done].
  cbv beta iota.
  erewrite bind_Ret; [|by eapply store_middle].
  erewrite (store_middle _ _ (pre ++ [Some (move_assigned_from d x)]));
    [|erewrite heap_lookup_insert by done; by rewrite <- app_assoc
     |rewrite length_app; simpl; lia].
  rewrite list_insert_insert_eq. by rewrite <- app_assoc.
Qed.

(** [std::move] to the left by one slot: the values move down, the slot
    after them is left in a moved-from state. *)
Lemma move_loop_spec l : ∀ h b pre d suf o o',
  move_assign_preserves T →
  h !! b = Some (Some (pre ++ Some d :: (Some <$> l) ++ suf)) →
  o = Z.of_nat (length pre) → o' = o + 1 →
  move_loop (Ptr b o') (length l) (Ptr b o) h
  = Ret tt (<[b := Some (pre ++ (Some <$> l)
                           ++ Some (foldl move_assigned_from d l) :: suf)]> h).
Proof.
  induction l as [|x l IH]; intros h b pre d suf o o' Hm Hb Ho Ho'; simpl in *.
  - unfold ret. f_equal. symmetry. by apply list_insert_id.
  - erewrite bind_Ret; [|by eapply assign_move_left].
    erewrite (IH _ b (pre ++ [Some x]) _ suf); try done.
    + rewrite list_insert_insert_eq. by rewrite <- app_assoc.
    + erewrite heap_lookup_insert by done. by rewrite <- app_assoc.
    + rewrite length_app. simpl. lia.
    + lia.
Qed.

(** [std::move_backward] to the right by one slot. *)
Lemma move_backward_loop_spec l : ∀ h b pre d suf o o',
  move_assign_preserves T →
  h !! b = Some (Some (pre ++ (Some <$> l) ++ Some d :: suf)) →
  o = Z.of_nat (length pre + length l) → o' = o + 1 →
  move_backward_loop (length l) (Ptr b o) (Ptr b o') h
  = Ret tt (<[b := Some (pre ++ Some (foldr (λ x d, move_assigned_from d x) d l)
                           :: (Some <$> l) ++ suf)]> h).
Proof.
  induction l as [|x l IH] using rev_ind;
    intros h b pre d suf o o' Hm Hb Ho Ho'; simpl in *.
  - unfold ret. f_equal. symmetry. by apply list_insert_id.
  - rewrite length_app in *. simpl in *.
    replace (length l + 1)%nat with (Datatypes.S (length l)) by lia. simpl.
    rewrite fmap_app, <- !app_assoc in Hb. simpl in Hb.
    erewrite bind_Ret;
      [|eapply (assign_move_right _ _ (pre ++ (Some <$> l)));
        [done|by rewrite <- app_assoc
         |rewrite length_app, length_fmap; lia|lia]].
    erewrite (IH _ b pre _ (Some x :: suf)); try done.
    + rewrite list_insert_insert_eq, foldr_app, fmap_app. simpl.
      by rewrite <- !app_assoc.
    + erewrite heap_lookup_insert by done. by rewrite <- app_assoc.
    + lia.
    + lia.
Qed.
End loops.

(** ** The vector and the sequence it holds *)

Section vector_facts.
Context {T : Type} `{!Element T}.
Import Vector_.
Implicit Types (h : heap T) (v : Vector) (l : list T).

Lemma lift_Ret {A} (m : M (heap T) A) h v a h' :
  m h = Ret a h' → lift m (h, v) = Ret a (h', v).
Proof. intros H. unfold lift. simpl. by rewrite H. Qed.

Lemma to_int_id z : - 2 ^ 31 ≤ z ≤ INT_MAX → to_int z = z.
Proof.
  unfold to_int, INT_MAX. intros Hz.
  rewrite Z.mod_small; lia.
Qed.

Lemma repr_size h v l : repr h v l → size_ v = length l.
Proof. by intros [? _]. Qed.

Lemma repr_le h v l : repr h v l → (size_ v ≤ Capacity v)%nat.
Proof. intros (-> & ? & _). done. Qed.
End vector_facts.

Section growth.
Context {T : Type} `{!Element T}.
Import Vector_.
Implicit Types (h : heap T) (v : Vector) (l : list T).

(** Relocation puts the values into the new block; the old slots stay
    live (copied from, or moved from). *)
Lemma UninitializedConstructN_spec l h b b' pre suf dpre junk dsuf o o' n :
  copy_preserves T → move_preserves T → b ≠ b' →
  h !! b = Some (Some (pre ++ (Some <$> l) ++ suf)) → o = Z.of_nat (length pre) →
  h !! b' = Some (Some (dpre ++ junk ++ dsuf)) → o' = Z.of_nat (length dpre) →
  length junk = length l → n = Z.of_nat (length l) →
  ∃ l', length l' = length l ∧
    UninitializedConstructN (Ptr b o) n (Ptr b' o') h
    = Ret tt (<[b' := Some (dpre ++ (Some <$> l) ++ dsuf)]>
                (<[b := Some (pre ++ (Some <$> l') ++ suf)]> h)).
Proof.
  intros Hc Hm Hne Hb Ho Hb' Ho' Hlen ->.
  unfold UninitializedConstructN. rewrite Nat2Z.id.
  destruct (_ || _).
  - exists (moved_from <$> l). split; [by rewrite length_fmap|].
    by eapply uninitialized_move_n_spec.
  - exists l. split; [done|]. rewrite (list_insert_id h b) by done.
    by eapply uninitialized_copy_n_spec.
Qed.

(** A count that narrows to a non-positive [int] relocates nothing: this
    is what happens to the [2 ^ 31] elements of a full vector, and why the
    properties of the growth paths below are stated for sizes up to
    [INT_MAX]. *)
Lemma UninitializedConstructN_narrowed p q h (n : nat) :
  Z.of_nat n = 2 ^ 31 →
  UninitializedConstructN p (to_int (Z.of_nat n)) q h = Ret tt h.
Proof.
  intros ->. unfold UninitializedConstructN.
  replace (Z.to_nat (to_int (2 ^ 31))) with 0%nat by (by vm_compute).
  by destruct (_ || _).
Qed.

Lemma UninitializedConstructN_0 p q h n :
  n ≤ 0 → UninitializedConstructN p n q h = Ret tt h.
Proof.
  intros Hn. unfold UninitializedConstructN.
  replace (Z.to_nat n) with 0%nat by lia. by destruct (_ || _).
Qed.

(** A request that does not wrap around gets a block of as many slots
    as were asked for. *)
Lemma Allocate_slots (n : nat) :
  fits T n →
  Z.to_nat (to_size_t (Z.of_nat n * Z.pos sizeof_T) / Z.pos sizeof_T) = n.
Proof.
  unfold fits, SIZE_MAX, to_size_t. intros Hn.
  rewrite Z.mod_small by lia. rewrite Z.div_mul by lia. apply Nat2Z.id.
Qed.

(** One that wraps around gets fewer. *)
Lemma Allocate_slots_wrapped (n : nat) :
  ¬ fits T n →
  (Z.to_nat (to_size_t (Z.of_nat n * Z.pos sizeof_T) / Z.pos sizeof_T) < n)%nat.
Proof.
  unfold fits, SIZE_MAX, to_size_t. intros Hn.
  assert (0 ≤ (Z.of_nat n * Z.pos sizeof_T) mod 2 ^ 64 < 2 ^ 64) as Hmod
    by (apply Z.mod_pos_bound; lia).
  assert ((Z.of_nat n * Z.pos sizeof_T) mod 2 ^ 64 / Z.pos sizeof_T
          < Z.of_nat n); [|lia].
  apply Z.div_lt_upper_bound; lia.
Qed.

Lemma RawMemory_ctor_any (n : nat) h :
  n ≠ 0%nat →
  ∃ k, RawMemory_.ctor n h
       = Ret {| buffer_ := Ptr (length h) 0; capacity_ := n |}
           (h ++ [Some (replicate k None)]).
Proof.
  intros Hn. unfold RawMemory_.ctor, RawMemory_.Allocate.
  rewrite decide_True by done. by eexists.
Qed.

Lemma RawMemory_ctor_pos (n : nat) h :
  n ≠ 0%nat → fits T n →
  RawMemory_.ctor n h
  = Ret {| buffer_ := Ptr (length h) 0; capacity_ := n |}
      (h ++ [Some (replicate n None)]).
Proof.
  intros Hn Hfit. unfold RawMemory_.ctor, RawMemory_.Allocate.
  rewrite decide_True by done. cbv zeta. by rewrite Allocate_slots.
Qed.

Lemma RawMemory_ctor_grown n h :
  fits T (grown n) →
  RawMemory_.ctor (grown n) h
  = Ret {| buffer_ := Ptr (length h) 0; capacity_ := grown n |}
      (h ++ [Some (replicate (grown n) None)]).
Proof.
  intros Hfit. apply RawMemory_ctor_pos; [|done].
  unfold grown. case_decide; lia.
Qed.

Lemma plus_spec (rm : RawMemory) (off : nat) h :
  (off ≤ capacity_ rm)%nat →
  RawMemory_.plus rm off h = Ret (buffer_ rm +ₚ Z.of_nat off) h.
Proof.
  intros H. unfold RawMemory_.plus.
  by rewrite bool_decide_eq_true_2.
Qed.

Lemma placement_new_middle {A} (T_ctor : A → option T) args x h b pre suf s o :
  T_ctor args = Some x →
  h !! b = Some (Some (pre ++ s :: suf)) → o = Z.of_nat (length pre) →
  placement_new (Ptr b o) T_ctor args h
  = Ret tt (<[b := Some (pre ++ Some x :: suf)]> h).
Proof.
  intros Hx Hb Ho. unfold placement_new. rewrite Hx. simpl.
  erewrite bind_Ret; [|done]. by eapply construct_at_middle.
Qed.

Lemma replicate_middle {B} (y : B) (n m : nat) :
  (n < m)%nat → replicate m y = replicate n y ++ y :: replicate (m - n - 1) y.
Proof.
  intros H. replace m with (n + Datatypes.S (m - n - 1))%nat at 1 by lia.
  by rewrite replicate_add.
Qed.

Lemma heap_lookup_fresh h (blk : option (block T)) :
  (h ++ [blk]) !! length h = Some blk.
Proof. by apply list_lookup_middle. Qed.

Lemma operator_delete_spec h b (blk : block T) :
  h !! b = Some (Some blk) →
  operator_delete (Ptr b 0) h = Ret tt (<[b := None]> h).
Proof. intros H. unfold operator_delete. simpl. by rewrite H. Qed.

Lemma grown_gt n : (n < grown n)%nat.
Proof. unfold grown. case_decide; lia. Qed.

Lemma EmplaceBack_spec {A} (T_ctor : A → option T) args x h v l :
  copy_preserves T → move_preserves T →
  repr h v l → T_ctor args = Some x → Z.of_nat (size_ v) ≤ INT_MAX →
  (size_ v = Capacity v → fits T (grown (size_ v))) →
  ∃ h' v',
    EmplaceBack T_ctor args (h, v)
    = Ret (begin v' +ₚ Z.of_nat (length l)) (h', v') ∧
    repr h' v' (l ++ [x]) ∧
    Capacity v' = (if decide (size_ v = Capacity v) then grown (size_ v)
                   else Capacity v).
Proof.
  intros Hc Hm (Hsz & Hle & Hbuf) Hx Hmax Hfit.
  destruct v as [[buf cap] sz].
  unfold Capacity, RawMemory_.Capacity in Hfit. simpl in *. subst sz.
  unfold EmplaceBack, Capacity, RawMemory_.Capacity.
  erewrite bind_Ret; [|done]. simpl size_. simpl capacity_. simpl data_.
  pose proof (grown_gt (length l)) as Hgt.
  case_decide as Hfull.
  - (* growth *)
    specialize (Hfit Hfull).
    subst cap. fold (grown (length l)).
    rewrite Nat.sub_diag in Hbuf. simpl in Hbuf. rewrite app_nil_r in Hbuf.
    remember (length h) as b' eqn:Hb'.
    remember (h ++ [Some (replicate (grown (length l)) None)]) as h1 eqn:Hh1.
    remember (grown (length l) - length l - 1)%nat as k eqn:Hk.
    assert (Hlen1 : length h1 = Datatypes.S b')
      by (subst; rewrite length_app; simpl; lia).
    assert (Hfresh : h1 !! b'
              = Some (Some (replicate (length l) None
                            ++ None :: replicate k None))).
    { subst. rewrite heap_lookup_fresh. by rewrite <- replicate_middle. }
    remember (<[b' := Some (replicate (length l) None
                            ++ Some x :: replicate k None)]> h1)
      as h2 eqn:Hh2.
    assert (∃ h3 h4 h5,
      UninitializedConstructN buf (to_int (Z.of_nat (length l))) (Ptr b' 0) h2
      = Ret tt h3 ∧
      destroy_n buf (length l) h3 = Ret tt h4 ∧
      RawMemory_.dtor {| buffer_ := buf; capacity_ := length l |} h4
      = Ret tt h5 ∧
      h5 !! b' = Some (Some ((Some <$> l) ++ Some x :: replicate k None)))
      as (h3 & h4 & h5 & Hrel & Hdes & Hdel & Hnew).
    { rewrite to_int_id by (unfold INT_MAX in *; lia).
      destruct buf as [|b o].
      - destruct l; [|done]. exists h2, h2, h2. simpl.
        split; [by apply UninitializedConstructN_0|]. do 2 (split; [done|]).
        subst h2. by rewrite list_lookup_insert_eq by lia.
      - destruct Hbuf as [-> Hb].
        assert (b < b')%nat as Hlt by (apply lookup_lt_Some in Hb; lia).
        assert (b ≠ b') as Hne by lia.
        destruct (UninitializedConstructN_spec l h2 b b' [] [] []
          (replicate (length l) None) (Some x :: replicate k None) 0 0
          (Z.of_nat (length l))) as (l' & Hl' & Hrel); try done.
        { subst h2 h1. rewrite list_lookup_insert_ne by done.
          rewrite lookup_app_l by lia. simpl. by rewrite app_nil_r. }
        { subst h2. by rewrite list_lookup_insert_eq by lia. }
        { by rewrite length_replicate. }
        simpl in Hrel. rewrite app_nil_r in Hrel.
        assert (length h2 = Datatypes.S b') as Hlen2
          by (subst h2; by rewrite length_insert).
        do 3 eexists. split; [exact Hrel|]. split; [|split].
        + rewrite <- Hl'. eapply (destroy_n_spec l' _ b [] []); [|done].
          rewrite list_lookup_insert_ne by done.
          rewrite list_lookup_insert_eq by lia. by rewrite app_nil_r.
        + unfold RawMemory_.dtor, RawMemory_.Deallocate. simpl.
          eapply operator_delete_spec.
          by rewrite list_lookup_insert_eq by (rewrite ?length_insert; lia).
        + rewrite !list_lookup_insert_ne by done.
          by rewrite list_lookup_insert_eq by (rewrite ?length_insert; lia). }
    exists h5, {| data_ := {| buffer_ := Ptr b' 0;
                             capacity_ := grown (length l) |};
                  size_ := length l + 1 |}.
    split; [|split].
    + erewrite bind_Ret.
      2:{ erewrite bind_Ret; [|by apply lift_Ret, RawMemory_ctor_grown].
          rewrite <- Hb', <- Hh1.
          erewrite bind_Ret.
          2:{ apply unwinding_Ret.
              erewrite bind_Ret; [|apply lift_Ret, plus_spec; simpl; lia].
              erewrite bind_Ret.
              2:{ apply lift_Ret. simpl. eapply placement_new_middle; [done..|].
                  rewrite length_replicate. lia. }
              rewrite <- Hh2.
              erewrite bind_Ret; [|by apply lift_Ret, Hrel].
              erewrite bind_Ret; [|by apply lift_Ret, Hdes].
              done. }
          simpl.
          erewrite bind_Ret; [|done].
          erewrite bind_Ret; [|by apply lift_Ret, Hdel]. done. }
      simpl. done.
    + split; [simpl; rewrite length_app; simpl; lia|].
      split; [simpl; rewrite length_app; simpl; lia|]. simpl.
      split; [done|]. rewrite Hnew. do 2 f_equal.
      rewrite fmap_app, <- app_assoc. simpl. do 3 f_equal.
      rewrite length_app. simpl. lia.
    + done.
  - (* in place *)
    destruct buf as [|b o]; [lia|]. destruct Hbuf as [-> Hb].
    rewrite (replicate_middle _ 0 (cap - length l)) in Hb by lia. simpl in Hb.
    eexists _, {| data_ := {| buffer_ := Ptr b 0; capacity_ := cap |};
                  size_ := length l + 1 |}.
    split; [|split].
    + erewrite bind_Ret.
      2:{ erewrite bind_Ret; [|apply lift_Ret, plus_spec; simpl; lia].
          erewrite bind_Ret.
          2:{ apply lift_Ret. simpl. eapply placement_new_middle; [done..|].
              rewrite length_fmap. lia. }
          done. }
      simpl. done.
    + split; [simpl; rewrite length_app; simpl; lia|].
      split; [simpl; rewrite length_app; simpl; lia|]. simpl.
      split; [done|]. erewrite heap_lookup_insert by done. do 2 f_equal.
      rewrite fmap_app, <- app_assoc. simpl. do 3 f_equal.
      rewrite length_app. simpl. lia.
    + done.
Qed.
End growth.

(** ** Appending *)

Lemma capacity_after_S n :
  capacity_after (S n)
  = if decide (n = capacity_after n) then grown n else capacity_after n.
Proof.
  unfold capacity_after, grown.
  destruct (decide (n = 0%nat)) as [->|Hn]; [done|].
  rewrite decide_False by lia.
  destruct (decide (n = 1%nat)) as [->|Hn1]; [done|].
  pose proof (Nat.log2_up_spec n ltac:(lia)) as [Hlo Hhi].
  pose proof (Nat.log2_up_pos n ltac:(lia)) as Hpos.
  case_decide as Hfull.
  - rewrite Hfull at 1. rewrite Nat.log2_up_succ_pow2 by lia.
    rewrite Nat.pow_succ_r'. lia.
  - f_equal. apply Nat.log2_up_unique; lia.
Qed.

Lemma capacity_after_mono m n :
  (m ≤ n)%nat → (capacity_after m ≤ capacity_after n)%nat.
Proof.
  intros Hmn. unfold capacity_after.
  destruct (decide (m = 0%nat)) as [->|Hm]; [lia|].
  rewrite decide_False by lia.
  apply Nat.pow_le_mono_r; [lia|]. by apply Nat.log2_up_le_mono.
Qed.

Section push_facts.
Context {T : Type} `{!Element T}.
Import Vector_.

Lemma fits_le (m n : nat) : (m ≤ n)%nat → fits T n → fits T m.
Proof. unfold fits. intros Hmn Hn. nia. Qed.

Lemma push_spec a h v l :
  copy_preserves T → move_preserves T →
  repr h v l → Z.of_nat (size_ v) ≤ INT_MAX →
  (size_ v = Capacity v → fits T (grown (size_ v))) →
  ∃ h' v',
    push a (h, v) = Ret tt (h', v') ∧
    repr h' v' (l ++ [arg_value a]) ∧
    Capacity v' = (if decide (size_ v = Capacity v) then grown (size_ v)
                   else Capacity v).
Proof.
  intros Hc Hm Hr Hmax Hfit.
  destruct a as [x|x]; simpl; unfold PushBack, PushBack_rvalue.
  - destruct (EmplaceBack_spec T_copy x x h v l) as (h' & v' & Hrun & Hr' & Hcap);
      try done.
    exists h', v'. split; [|done]. by erewrite bind_Ret.
  - destruct (EmplaceBack_spec (λ x, fst <$> T_move x) x x h v l)
      as (h' & v' & Hrun & Hr' & Hcap); try done.
    exists h', v'. split; [|done]. by erewrite bind_Ret.
Qed.

Lemma push_all_spec args : ∀ h v l,
  copy_preserves T → move_preserves T →
  repr h v l → Capacity v = capacity_after (length l) →
  Z.of_nat (length l + length args) ≤ INT_MAX + 1 →
  fits T (capacity_after (length l + length args)) →
  ∃ h' v',
    push_all args (h, v)
    = Ret (capacity_after <$> seq (Datatypes.S (length l)) (length args)) (h', v') ∧
    repr h' v' (l ++ (arg_value <$> args)) ∧
    Capacity v' = capacity_after (length l + length args).
Proof.
  induction args as [|a args IH]; intros h v l Hc Hm Hr Hcap Hmax Hfit.
  - exists h, v. simpl. by rewrite app_nil_r, Nat.add_0_r.
  - pose proof (repr_size _ _ _ Hr) as Hsz.
    destruct (push_spec a h v l) as (h1 & v1 & Hrun & Hr1 & Hcap1); try done.
    { simpl in Hmax. lia. }
    { intros Hfull. rewrite Hsz, Hcap in Hfull.
      pose proof (capacity_after_S (length l)) as HS.
      rewrite decide_True in HS by done. rewrite Hsz, <- HS.
      eapply fits_le; [|exact Hfit].
      apply capacity_after_mono. simpl. lia. }
    rewrite Hsz, Hcap, <- capacity_after_S in Hcap1.
    destruct (IH h1 v1 (l ++ [arg_value a])) as (h' & v' & Hrun' & Hr' & Hcap');
      try done.
    { rewrite length_app. simpl. by rewrite Nat.add_1_r. }
    { rewrite length_app. simpl in *. lia. }
    { rewrite length_app. simpl in *.
      by replace (length l + 1 + length args)%nat
        with (length l + Datatypes.S (length args))%nat by lia. }
    exists h', v'. split.
    + simpl. erewrite bind_Ret; [|done].
      erewrite bind_Ret; [|done].
      erewrite bind_Ret; [|done].
      rewrite length_app, Nat.add_1_r. simpl. by rewrite Hcap1.
    + split; [by rewrite <- app_assoc in Hr'|].
      rewrite Hcap', length_app. simpl. f_equal. lia.
Qed.

Lemma bind_Ret_inv {S A B} (m : M S A) (k : A → M S B) s b s' :
  bind m k s = Ret b s' → ∃ a s1, m s = Ret a s1 ∧ k a s1 = Ret b s'.
Proof. unfold bind. destruct (m s) as [a s1| |]; [|done..]. eauto. Qed.

Lemma push_all_app args1 args2 : ∀ s caps1 s1,
  push_all args1 s = Ret caps1 s1 →
  push_all (args1 ++ args2) s
  = (caps2 <- push_all args2;; ret (caps1 ++ caps2)) s1.
Proof.
  induction args1 as [|a args1 IH]; intros s caps1 s1 H; simpl in *.
  - injection H as <- <-. unfold bind. by destruct (push_all args2 s).
  - apply bind_Ret_inv in H as ([] & sa & Ha & H).
    apply bind_Ret_inv in H as (v & sv & Hv & H).
    apply bind_Ret_inv in H as (c & sc & Hcs & H).
    injection H as <- <-.
    erewrite bind_Ret; [|exact Ha]. erewrite bind_Ret; [|exact Hv].
    unfold bind at 1. rewrite (IH _ _ _ Hcs).
    unfold bind, ret. by destruct (push_all args2 sc).
Qed.
End push_facts.

(** ** Insertion *)

Section insert_facts.
Context {T : Type} `{!Element T}.
Import Vector_.
Implicit Types (h : heap T) (v : Vector) (l : list T).

(** Move construction into the slot after the source. *)
Lemma new_move_right h b pre z s suf o o' :
  move_preserves T →
  h !! b = Some (Some (pre ++ Some z :: s :: suf)) →
  o = Z.of_nat (length pre) → o' = o + 1 →
  new_move (Ptr b o') (Ptr b o) h
  = Ret tt (<[b := Some (pre ++ Some (moved_from z) :: Some z :: suf)]> h).
Proof.
  intros Hm Hb Ho Ho'. unfold new_move.
  erewrite bind_Ret; [|by eapply load_middle].
  rewrite T_move_eq by done. simpl. erewrite bind_Ret; [|done].
  cbv beta iota.
  erewrite bind_Ret; [|by eapply store_middle].
  erewrite (construct_at_middle _ _ (pre ++ [Some (moved_from z)]));
    [|erewrite heap_lookup_insert by done; by rewrite <- app_assoc
     |rewrite length_app; simpl; lia].
  rewrite list_insert_insert_eq. by rewrite <- app_assoc.
Qed.

Lemma assign_move_from_middle h b pre d suf x o :
  move_assign_preserves T →
  h !! b = Some (Some (pre ++ Some d :: suf)) → o = Z.of_nat (length pre) →
  assign_move_from (Ptr b o) x h
  = Ret (move_assigned_from d x) (<[b := Some (pre ++ Some x :: suf)]> h).
Proof.
  intros Hm Hb Ho. unfold assign_move_from.
  erewrite bind_Ret; [|by eapply load_middle].
  rewrite T_move_assign_eq by done. simpl. erewrite bind_Ret; [|done].
  cbv beta iota.
  erewrite bind_Ret; [|by eapply store_middle]. done.
Qed.

Lemma Emplace_in_place {A} (T_ctor : A → option T) args x h b cap l (k : nat) :
  move_preserves T → move_assign_preserves T →
  h !! b = Some (Some ((Some <$> l) ++ replicate (cap - length l) None)) →
  T_ctor args = Some x → (k ≤ length l)%nat → (length l < cap)%nat →
  Z.of_nat (length l) ≤ INT_MAX →
  let v := {| data_ := {| buffer_ := Ptr b 0; capacity_ := cap |};
              size_ := length l |} in
  let v' := {| data_ := {| buffer_ := Ptr b 0; capacity_ := cap |};
               size_ := length l + 1 |} in
  Emplace T_ctor (begin v +ₚ Z.of_nat k) args (h, v)
  = Ret (Ptr b (Z.of_nat k))
      (<[b := Some ((Some <$> (take k l ++ x :: drop k l))
                    ++ replicate (cap - (length l + 1)) None)]> h, v').
Proof.
  intros Hm Hma Hb Hx Hk Hcap Hmax v v'.
  unfold Emplace, Emplace_try_block. erewrite bind_Ret; [|done].
  unfold begin, end_, v, RawMemory_.GetAddress, RawMemory_.Capacity. simpl.
  erewrite bind_Ret.
  2:{ unfold assert. rewrite !bool_decide_eq_true_2 by lia. done. }
  rewrite decide_False by lia.
  replace (0 + Z.of_nat k - 0) with (Z.of_nat k) by lia.
  rewrite to_int_id by (unfold INT_MAX in *; lia).
  rewrite (replicate_middle _ 0 (cap - length l)) in Hb by lia. simpl in Hb.
  replace (cap - length l - 0 - 1)%nat with (cap - (length l + 1))%nat in Hb by lia.
  remember (replicate (cap - (length l + 1)) None) as rest eqn:Hrest.
  case_decide as Hpos.
  - (* before the end *)
    assert (k < length l)%nat as Hlt.
    { destruct (decide (k = length l)) as [->|]; [done|lia]. }
    destruct (drop k l) as [|z mid _] eqn:Hdrop using rev_ind.
    { apply (f_equal length) in Hdrop. rewrite length_drop in Hdrop.
      simpl in Hdrop. lia. }
    assert (l = take k l ++ mid ++ [z]) as Hl.
    { by rewrite <- Hdrop, take_drop. }
    assert (length l = (k + length mid + 1)%nat) as Hlen.
    { rewrite Hl at 1. rewrite !length_app, length_take. simpl. lia. }
    remember (take k l) as front eqn:Hfront.
    assert (length front = k) as Hfk.
    { subst front. rewrite length_take. lia. }
    rewrite Hl in Hb. rewrite !fmap_app, <- !app_assoc in Hb. simpl in Hb.
    erewrite bind_Ret.
    2:{ apply unwinding_Ret. rewrite Hx. simpl.
        erewrite bind_Ret; [|done].
        erewrite bind_Ret.
        2:{ apply lift_Ret.
            eapply (new_move_right _ _ ((Some <$> front) ++ (Some <$> mid)));
              [done|by rewrite <- app_assoc
              |rewrite length_app, !length_fmap; lia|lia]. }
        erewrite bind_Ret.
        2:{ apply lift_Ret. unfold std_move_backward. simpl.
            replace (Z.to_nat (0 + Z.of_nat (length l) + -1 - (0 + Z.of_nat k)))
              with (length mid) by lia.
            eapply (move_backward_loop_spec mid _ b (Some <$> front));
              [done| |rewrite length_fmap; lia|lia].
            erewrite heap_lookup_insert by done. by rewrite <- app_assoc. }
        erewrite bind_Ret.
        2:{ apply lift_Ret.
            eapply (assign_move_from_middle _ _ (Some <$> front)); [done| |].
            - by erewrite heap_lookup_insert by (by erewrite heap_lookup_insert).
            - rewrite length_fmap. lia. }
        done. }
    erewrite bind_Ret; [|done]. erewrite bind_Ret; [|done].
    unfold ret, v'. simpl. do 2 f_equal.
    rewrite !list_insert_insert_eq. do 2 f_equal.
    rewrite !fmap_app, <- !app_assoc. simpl.
    by rewrite fmap_app, <- !app_assoc.
  - (* at the end *)
    assert (k = length l) as ->.
    { injection Hpos. lia. }
    erewrite bind_Ret.
    2:{ apply unwinding_Ret. apply lift_Ret.
        eapply placement_new_middle; [done..|]. rewrite length_fmap. lia. }
    erewrite bind_Ret; [|done]. erewrite bind_Ret; [|done].
    unfold ret, v'. simpl. do 4 f_equal.
    rewrite firstn_all, drop_all, fmap_app, <- app_assoc. done.
Qed.

Lemma Emplace_growth {A} (T_ctor : A → option T) args x h buf l (k : nat) :
  copy_preserves T → move_preserves T →
  match buf with
  | nullptr => l = []
  | Ptr b o => o = 0 ∧ h !! b = Some (Some (Some <$> l))
  end →
  T_ctor args = Some x → (k ≤ length l)%nat →
  Z.of_nat (length l) ≤ INT_MAX → fits T (grown (length l)) →
  let v := {| data_ := {| buffer_ := buf; capacity_ := length l |};
              size_ := length l |} in
  let v' := {| data_ := {| buffer_ := Ptr (length h) 0;
                           capacity_ := grown (length l) |};
               size_ := length l + 1 |} in
  ∃ h',
    Emplace T_ctor (begin v +ₚ Z.of_nat k) args (h, v)
    = Ret (Ptr (length h) (Z.of_nat k)) (h', v') ∧
    h' !! length h
    = Some (Some ((Some <$> (take k l ++ x :: drop k l))
                  ++ replicate (grown (length l) - (length l + 1)) None)).
Proof.
  intros Hc Hm Hbuf Hx Hk Hmax Hfit v v'.
  pose proof (grown_gt (length l)) as Hgt.
  remember (length h) as b' eqn:Hb'.
  remember (h ++ [Some (replicate (grown (length l)) None)]) as h1 eqn:Hh1.
  remember (replicate (grown (length l) - (length l + 1)) None) as rest eqn:Hrest.
  assert (Hlen1 : length h1 = Datatypes.S b')
    by (subst; rewrite length_app; simpl; lia).
  assert (Hfresh : h1 !! b'
            = Some (Some (replicate k None ++ None ::
                          replicate (length l - k) None ++ rest))).
  { subst. rewrite heap_lookup_fresh. do 2 f_equal.
    rewrite (replicate_middle _ k) by lia. do 2 f_equal.
    rewrite <- replicate_add. f_equal. lia. }
  remember (<[b' := Some (replicate k None ++ Some x ::
                          replicate (length l - k) None ++ rest)]> h1)
    as h2 eqn:Hh2.
  assert (length h2 = Datatypes.S b') as Hlen2
    by (subst h2; by rewrite length_insert).
  assert (∃ h3 h4 h5 h6,
    UninitializedConstructN buf (Z.of_nat k) (Ptr b' 0) h2 = Ret tt h3 ∧
    UninitializedConstructN (buf +ₚ Z.of_nat k) (Z.of_nat (length l) - Z.of_nat k)
      (Ptr b' (0 + Z.of_nat k + 1)) h3 = Ret tt h4 ∧
    destroy_n buf (length l) h4 = Ret tt h5 ∧
    RawMemory_.dtor {| buffer_ := buf; capacity_ := length l |} h5 = Ret tt h6 ∧
    h6 !! b' = Some (Some ((Some <$> (take k l ++ x :: drop k l)) ++ rest)))
    as (h3 & h4 & h5 & h6 & Hrel1 & Hrel2 & Hdes & Hdel & Hnew).
  { destruct buf as [|b o].
    - subst l. simpl in *. assert (k = 0%nat) as -> by lia.
      exists h2, h2, h2, h2. simpl.
      split; [by apply UninitializedConstructN_0|].
      split; [by apply UninitializedConstructN_0|].
      do 2 (split; [done|]).
      subst h2. by rewrite list_lookup_insert_eq by lia.
    - destruct Hbuf as [-> Hb].
      assert (b < b')%nat as Hlt by (apply lookup_lt_Some in Hb; lia).
      assert (b ≠ b') as Hne by lia.
      assert (length (take k l) = k) as Htk by (rewrite length_take; lia).
      assert (length (drop k l) = (length l - k)%nat) as Hdk
        by (by rewrite length_drop).
      rewrite <- (take_drop k l), fmap_app in Hb.
      destruct (UninitializedConstructN_spec (take k l) h2 b b' []
        (Some <$> drop k l) [] (replicate k None)
        (Some x :: replicate (length l - k) None ++ rest) 0 0 (Z.of_nat k))
        as (l1 & Hl1 & Hrel1); try done.
      { subst h2 h1. rewrite list_lookup_insert_ne by done.
        by rewrite lookup_app_l by lia. }
      { subst h2. by rewrite list_lookup_insert_eq by lia. }
      { rewrite length_replicate. lia. }
      { lia. }
      simpl in Hrel1.
      destruct (UninitializedConstructN_spec (drop k l)
        (<[b':=Some ((Some <$> take k l) ++ Some x ::
                     replicate (length l - k) None ++ rest)]>
           (<[b:=Some ((Some <$> l1) ++ (Some <$> drop k l))]> h2))
        b b' (Some <$> l1) [] ((Some <$> take k l) ++ [Some x])
        (replicate (length l - k) None) rest
        (0 + Z.of_nat k) (0 + Z.of_nat k + 1)
        (Z.of_nat (length l) - Z.of_nat k))
        as (l2 & Hl2 & Hrel2); try done.
      { rewrite list_lookup_insert_ne by done.
        rewrite list_lookup_insert_eq by lia. by rewrite app_nil_r. }
      { rewrite length_fmap. lia. }
      { rewrite list_lookup_insert_eq by (rewrite length_insert; lia).
        by rewrite <- app_assoc. }
      { rewrite length_app, length_fmap. simpl. lia. }
      { rewrite length_replicate. lia. }
      { lia. }
      rewrite app_nil_r in Hrel2.
      rewrite (heap_insert_3 _ b b'), list_insert_insert_eq in Hrel2 by done.
      do 4 eexists. split; [exact Hrel1|]. split; [exact Hrel2|].
      split; [|split].
      + replace (length l) with (length (l1 ++ l2))
          by (rewrite length_app; lia).
        eapply (destroy_n_spec (l1 ++ l2) _ b [] []); [|done].
        rewrite list_lookup_insert_ne by done.
        rewrite list_lookup_insert_eq by lia. simpl.
        by rewrite app_nil_r, fmap_app.
      + unfold RawMemory_.dtor, RawMemory_.Deallocate. simpl.
        eapply operator_delete_spec.
        by rewrite list_lookup_insert_eq by (rewrite ?length_insert; lia).
      + rewrite !list_lookup_insert_ne by done.
        rewrite list_lookup_insert_eq by (rewrite ?length_insert; lia).
        do 2 f_equal. rewrite fmap_app, <- !app_assoc. simpl. done. }
  exists h6. split; [|done].
  unfold Emplace. erewrite bind_Ret; [|done].
  unfold begin, end_, v, RawMemory_.GetAddress, RawMemory_.Capacity. simpl.
  assert (ptr_diff (buf +ₚ Z.of_nat k) buf = Z.of_nat k) as ->.
  { destruct buf as [|b o]; simpl; [|lia]. subst l. simpl in Hk. lia. }
  erewrite bind_Ret.
  2:{ unfold assert. destruct buf as [|b o]; simpl.
      - done.
      - rewrite !bool_decide_eq_true_2 by lia. done. }
  rewrite decide_True by lia.
  rewrite !to_int_id by (unfold INT_MAX in *; lia).
  fold (grown (length l)).
  erewrite bind_Ret.
  2:{ erewrite bind_Ret; [|by apply lift_Ret, RawMemory_ctor_grown].
      rewrite <- Hb', <- Hh1.
      erewrite bind_Ret.
      2:{ apply unwinding_Ret.
          erewrite bind_Ret.
          2:{ apply lift_Ret. simpl. eapply placement_new_middle; [done..|].
              rewrite length_replicate. lia. }
          rewrite <- Hh2.
          erewrite bind_Ret; [|by apply lift_Ret, Hrel1].
          erewrite bind_Ret; [|by apply lift_Ret, Hrel2].
          by apply lift_Ret, Hdes. }
      simpl.
      erewrite bind_Ret; [|done].
      by apply lift_Ret, Hdel. }
  done.
Qed.
End insert_facts.

(** ** Operations that raise nothing *)

Section nothrow_facts.
Context {S : Type}.

Lemma nothrow_ret {A} (a : A) : nothrow (ret a : M S A).
Proof. by intros s s'. Qed.

Lemma nothrow_undefined {A} : nothrow (undefined : M S A).
Proof. by intros s s'. Qed.

Lemma nothrow_bind {A B} (m : M S A) (k : A → M S B) :
  nothrow m → (∀ a, nothrow (k a)) → nothrow (bind m k).
Proof.
  intros Hm Hk s s' H. apply bind_Throw_inv in H as [H|(a & s1 & _ & H)].
  - by eapply Hm.
  - by eapply Hk.
Qed.

Lemma nothrow_assert b : nothrow (assert b : M S unit).
Proof. destruct b; [apply nothrow_ret|apply nothrow_undefined]. Qed.

Lemma nothrow_try_ {A} (r : option A) : is_Some r → nothrow (try_ r : M S A).
Proof. intros [a ->]. apply nothrow_ret. Qed.

Lemma nothrow_unwinding {A} (c : M S unit) (m : M S A) :
  nothrow m → nothrow (unwinding c m).
Proof.
  intros Hm s s' H. apply unwinding_Throw_inv in H as (s1 & H & _).
  by eapply Hm.
Qed.

Lemma noexcept_Ret {A} b (m : M S A) s a s' :
  m s = Ret a s' → noexcept_ b m s = Ret a s'.
Proof. intros H. unfold noexcept_. destruct b; by rewrite ?H. Qed.

Lemma nothrow_noexcept {A} b (m : M S A) :
  (b = false → nothrow m) → nothrow (noexcept_ b m).
Proof.
  intros Hm s s'. unfold noexcept_. destruct b; [|by apply Hm].
  by destruct (m s).
Qed.
End nothrow_facts.

Section nothrow_store.
Context {T : Type} `{!Element T}.
Import Vector_.

Lemma nothrow_load p : nothrow (load (T:=T) p).
Proof. intros h h'. unfold load. by destruct (slot h p) as [[?|]|]. Qed.

Lemma nothrow_store p x : nothrow (store (T:=T) p x).
Proof. intros h h'. unfold store. by destruct (slot h p) as [[?|]|]. Qed.

Lemma nothrow_construct_at p x : nothrow (construct_at (T:=T) p x).
Proof. intros h h'. unfold construct_at. by destruct (slot h p) as [?|]. Qed.

Lemma nothrow_destroy_at p : nothrow (destroy_at (T:=T) p).
Proof. intros h h'. unfold destroy_at. by destruct (slot h p) as [[?|]|]. Qed.

Lemma nothrow_operator_delete p : nothrow (operator_delete (T:=T) p).
Proof.
  intros h h'. unfold operator_delete. destruct p as [|b o]; [done|].
  case_decide; [|done]. by destruct (h !! b) as [[?|]|].
Qed.

Lemma nothrow_destroy_n n : ∀ p, nothrow (destroy_n (T:=T) p n).
Proof.
  induction n as [|n IH]; intros p; simpl; [apply nothrow_ret|].
  apply nothrow_bind; [apply nothrow_destroy_at|auto].
Qed.

Lemma nothrow_lift {A} (m : M (heap T) A) : nothrow m → nothrow (lift m).
Proof.
  intros Hm [h v] s'. unfold lift. simpl.
  destruct (m h) eqn:H; try done. by apply Hm in H.
Qed.

Lemma nothrow_assign_move dst src :
  (∀ d x : T, is_Some (T_move_assign d x)) → nothrow (assign_move dst src).
Proof.
  intros Hma. unfold assign_move.
  apply nothrow_bind; [apply nothrow_load|]. intros d.
  apply nothrow_bind; [apply nothrow_load|]. intros x.
  apply nothrow_bind; [by apply nothrow_try_|]. intros [d' x'].
  apply nothrow_bind; [apply nothrow_store|]. intros _.
  apply nothrow_store.
Qed.

Lemma nothrow_move_loop n : ∀ first d_first,
  (∀ d x : T, is_Some (T_move_assign d x)) →
  nothrow (move_loop first n d_first).
Proof.
  induction n as [|n IH]; intros first d_first Hma; simpl;
    [apply nothrow_ret|].
  apply nothrow_bind; [by apply nothrow_assign_move|auto].
Qed.

Lemma nothrow_this : nothrow (this (T:=T)).
Proof. by intros s s'. Qed.

Lemma nothrow_set_size n : nothrow (set_size (T:=T) n).
Proof. by intros s s'. Qed.

Lemma nothrow_set_data d : nothrow (set_data (T:=T) d).
Proof. by intros s s'. Qed.

Lemma nothrow_PopBack : nothrow (PopBack (T:=T)).
Proof.
  unfold PopBack. apply nothrow_bind; [apply nothrow_this|]. intros v.
  case_decide; [|apply nothrow_ret].
  apply nothrow_bind; [apply nothrow_lift, nothrow_destroy_at|].
  intros _. apply nothrow_set_size.
Qed.

Lemma nothrow_Erase pos :
  (∀ d x : T, is_Some (T_move_assign d x)) → nothrow (Erase pos).
Proof.
  intros Hma. unfold Erase. apply nothrow_noexcept. intros _.
  apply nothrow_bind; [apply nothrow_this|]. intros v.
  apply nothrow_bind; [apply nothrow_assert|]. intros _.
  apply nothrow_bind; [by apply nothrow_lift, nothrow_move_loop|]. intros _.
  apply nothrow_bind; [apply nothrow_PopBack|]. intros _.
  apply nothrow_bind; [apply nothrow_this|]. intros v'.
  apply nothrow_ret.
Qed.
End nothrow_store.

(** ** Removal *)

Section erase_facts.
Context {T : Type} `{!Element T}.
Import Vector_.
Implicit Types (h : heap T) (v : Vector) (l : list T).

Lemma PopBack_Ret h b cap (n : nat) front d rest :
  h !! b = Some (Some (front ++ Some d :: rest)) → length front = n →
  PopBack (h, {| data_ := {| buffer_ := Ptr b 0; capacity_ := cap |};
                 size_ := n + 1 |})
  = Ret tt (<[b := Some (front ++ None :: rest)]> h,
            {| data_ := {| buffer_ := Ptr b 0; capacity_ := cap |};
               size_ := n |}).
Proof.
  intros Hb Hn. unfold PopBack. erewrite bind_Ret; [|done]. simpl.
  rewrite decide_True by lia.
  erewrite bind_Ret;
    [|apply lift_Ret; simpl; eapply destroy_at_middle; [done|lia]].
  unfold set_size. simpl. do 3 f_equal. lia.
Qed.

Lemma Erase_Ret h b cap front d tail rest (k : nat) :
  move_assign_preserves T →
  h !! b = Some (Some ((Some <$> front ++ d :: tail) ++ rest)) →
  length front = k →
  let v := {| data_ := {| buffer_ := Ptr b 0; capacity_ := cap |};
              size_ := length (front ++ d :: tail) |} in
  let v' := {| data_ := {| buffer_ := Ptr b 0; capacity_ := cap |};
               size_ := length (front ++ tail) |} in
  Erase (begin v +ₚ Z.of_nat k) (h, v)
  = Ret (Ptr b (Z.of_nat k))
      (<[b := Some ((Some <$> front ++ tail) ++ None :: rest)]> h, v').
Proof.
  intros Hma Hb Hk v v'. unfold Erase. apply noexcept_Ret.
  erewrite bind_Ret; [|done].
  unfold begin, end_, v, RawMemory_.GetAddress. simpl.
  rewrite length_app in *. simpl in *.
  erewrite bind_Ret.
  2:{ unfold assert. rewrite !bool_decide_eq_true_2 by lia. done. }
  replace (0 + Z.of_nat k - 0) with (Z.of_nat k) by lia. rewrite Nat2Z.id.
  rewrite fmap_app, <- app_assoc in Hb. simpl in Hb.
  erewrite bind_Ret.
  2:{ apply lift_Ret. unfold std_move. simpl.
      replace (Z.to_nat (0 + Z.of_nat (length front + S (length tail))
                         - (0 + Z.of_nat k + 1)))
        with (length tail) by lia.
      eapply (move_loop_spec tail _ b (Some <$> front)); [done|done| |done].
      rewrite length_fmap. lia. }
  erewrite bind_Ret.
  2:{ replace (length front + Datatypes.S (length tail))%nat
        with (length (front ++ tail) + 1)%nat by (rewrite length_app; lia).
      eapply (PopBack_Ret _ _ _ _ ((Some <$> front) ++ (Some <$> tail))).
      - erewrite heap_lookup_insert by done. by rewrite <- app_assoc.
      - by rewrite !length_app, !length_fmap. }
  erewrite bind_Ret; [|done]. unfold ret, v'. simpl.
  rewrite list_insert_insert_eq, fmap_app, <- app_assoc, length_app. done.
Qed.
End erase_facts.

(** ** Copy assignment *)

Section assign_facts.
Context {T : Type} `{!Element T}.
Import Vector_.
Implicit Types (h : heap T) (v : Vector) (l : list T).

Lemma copy_assign_fits h a b la lb :
  copy_preserves T → copy_assign_preserves T →
  repr h a la → repr h b lb → separate a b →
  (length lb ≤ Capacity a)%nat →
  ∃ h',
    copy_assign (Other b) (h, a)
    = Ret tt (h', {| data_ := data_ a; size_ := size_ b |}) ∧
    repr h' {| data_ := data_ a; size_ := size_ b |} lb ∧
    repr h' b lb ∧
    length h' = length h.
Proof.
  intros Hc Hca (Hsa & Hlea & Hbufa) (Hsb & Hleb & Hbufb) Hsep Hfit.
  destruct a as [[bufa capa] sza], b as [[bufb capb] szb].
  unfold Capacity, RawMemory_.Capacity, separate in *. simpl in *. subst sza szb.
  unfold copy_assign. erewrite bind_Ret; [|done].
  unfold RawMemory_.Capacity, RawMemory_.GetAddress. simpl.
  rewrite decide_False by lia.
  destruct bufa as [|ba oa].
  { (* no buffer: both are empty *)
    subst capa. destruct lb; [|simpl in *; lia]. destruct la; [|simpl in *; lia].
    simpl.
    exists h. split; [|done].
    assert (Z.to_nat (ptr_diff (bufb +ₚ Z.of_nat 0) bufb) = 0%nat) as Hz.
    { destruct bufb; simpl; lia. }
    unfold std_copy. rewrite Hz. simpl. done. }
  destruct Hbufa as [-> Hba].
  remember (replicate (capa - length la) None) as resta eqn:Hresta.
  destruct (decide (lb = [])) as [->|Hnil].
  { (* nothing to copy *)
    assert (Z.to_nat (ptr_diff (bufb +ₚ Z.of_nat 0) bufb) = 0%nat) as Hz.
    { destruct bufb; simpl; lia. }
    simpl. case_decide as Hsz.
    - eexists. split; [|split; [|split]].
      + erewrite bind_Ret.
        2:{ unfold std_copy. rewrite Hz. simpl.
            erewrite bind_Ret; [|done].
            rewrite Nat.sub_0_r.
            apply lift_Ret. by eapply (destroy_n_spec la _ ba []). }
        done.
      + split; [done|]. split; [simpl; lia|]. simpl. split; [done|].
        erewrite heap_lookup_insert by done. do 2 f_equal.
        rewrite Hresta, <- replicate_add. f_equal. lia.
      + split; [done|]. split; [done|]. simpl.
        destruct bufb as [|bb ob]; [done|]. destruct Hbufb as [-> Hbb].
        split; [done|]. by rewrite list_lookup_insert_ne.
      + simpl. by rewrite length_insert.
    - destruct la; [|simpl in *; lia].
      exists h. split; [|by subst resta].
      unfold std_copy. simpl. rewrite Hz. done. }
  destruct bufb as [|bb ob].
  { subst capb. destruct lb; [done|simpl in *; lia]. }
  destruct Hbufb as [-> Hbb].
  remember (replicate (capb - length lb) None) as restb eqn:Hrestb.
  simpl. case_decide as Hsz.
  - (* the target is longer: assign, then destroy the surplus *)
    rewrite <- (take_drop (length lb) la), fmap_app, <- app_assoc in Hba.
    eexists. split; [|split; [|split]].
    + erewrite bind_Ret.
      2:{ erewrite bind_Ret.
          2:{ apply lift_Ret. unfold std_copy. simpl.
              replace (Z.to_nat (0 + Z.of_nat (length lb) - 0)) with (length lb) by lia.
              eapply (copy_loop_spec lb _ bb ba [] _ [] (take (length lb) la));
                try done.
              rewrite length_take. lia. }
          apply lift_Ret. simpl.
          replace (length la - length lb)%nat with (length (drop (length lb) la))
            by (by rewrite length_drop).
          eapply (destroy_n_spec _ _ ba (Some <$> lb)).
          - by erewrite heap_lookup_insert.
          - rewrite length_fmap. lia. }
      done.
    + split; [done|]. split; [simpl; lia|]. simpl. split; [done|].
      erewrite heap_lookup_insert by (by erewrite heap_lookup_insert).
      do 3 f_equal. rewrite Hresta, <- replicate_add, length_drop. f_equal. lia.
    + split; [done|]. split; [done|]. simpl. split; [done|].
      rewrite !list_lookup_insert_ne by done. by subst restb.
    + simpl. by rewrite !length_insert.
  - (* the source is at least as long: assign, then construct the rest *)
    rewrite <- (take_drop (length la) lb), fmap_app, <- app_assoc in Hbb.
    assert (length (take (length la) lb) = length la) as Htk
      by (rewrite length_take; lia).
    assert (length (drop (length la) lb) = (length lb - length la)%nat) as Hdk
      by (by rewrite length_drop).
    replace resta with (replicate (length lb - length la) (None : option T)
                          ++ replicate (capa - length lb) None) in Hba
      by (rewrite Hresta, <- replicate_add; f_equal; lia).
    eexists. split; [|split; [|split]].
    + erewrite bind_Ret.
      2:{ erewrite bind_Ret.
          2:{ apply lift_Ret. unfold std_copy. simpl.
              replace (Z.to_nat (0 + Z.of_nat (length la) - 0))
                with (length (take (length la) lb)) by lia.
              eapply (copy_loop_spec _ _ bb ba [] _ [] la); try done. }
          apply lift_Ret. simpl. rewrite <- Hdk.
          eapply (uninitialized_copy_n_spec _ _ bb ba
                    (Some <$> take (length la) lb) restb
                    (Some <$> take (length la) lb)
                    (replicate (length lb - length la) None)
                    (replicate (capa - length lb) None)); try done.
          - by rewrite list_lookup_insert_ne.
          - rewrite length_fmap. lia.
          - erewrite heap_lookup_insert by done. by rewrite Hdk.
          - rewrite length_fmap. lia.
          - rewrite length_replicate. lia. }
      done.
    + split; [done|]. split; [simpl; lia|]. simpl. split; [done|].
      erewrite heap_lookup_insert by (by erewrite heap_lookup_insert).
      do 2 f_equal. by rewrite app_assoc, <- fmap_app, take_drop.
    + split; [done|]. split; [done|]. simpl. split; [done|].
      rewrite !list_lookup_insert_ne by done. rewrite Hbb. subst restb.
      do 2 f_equal. by rewrite app_assoc, <- fmap_app, take_drop.
    + simpl. by rewrite !length_insert.
Qed.
End assign_facts.

(** ** Exceptions on the growth paths *)

Section guarantee_facts.
Context {T : Type} `{!Element T}.
Import Vector_.
Implicit Types (h : heap T) (v : Vector) (l : list T).

Lemma within_ret {A} b (a : A) : within (T:=T) b (ret a).
Proof. intros h. apply frame_refl. Qed.

Lemma within_bind {A B} b (m : M (heap T) A) (k : A → M (heap T) B) :
  within b m → (∀ a, within b (k a)) → within b (bind m k).
Proof.
  intros Hm Hk h. unfold bind. specialize (Hm h).
  destruct (m h) as [a h1|h1|]; [|done..].
  specialize (Hk a h1). destruct (k a h1); try done; by eapply frame_trans.
Qed.

Lemma within_unwinding {A} b (c : M (heap T) unit) (m : M (heap T) A) :
  within b c → within b m → within b (unwinding c m).
Proof.
  intros Hc Hm h. unfold unwinding. specialize (Hm h).
  destruct (m h) as [a h1|h1|]; [done| |done].
  specialize (Hc h1). destruct (c h1); try done. by eapply frame_trans.
Qed.

Lemma within_try_ {A} b (r : option A) : within (T:=T) b (try_ r).
Proof. intros h. destruct r; apply frame_refl. Qed.

Lemma within_load b p : within (T:=T) b (load p).
Proof.
  intros h. unfold load.
  destruct (slot h p) as [[x|]|]; first [done|apply frame_refl].
Qed.

Lemma within_construct_at b o x : within (T:=T) b (construct_at (Ptr b o) x).
Proof.
  intros h. unfold construct_at.
  destruct (slot h _) as [s|]; first [done|apply set_slot_frame].
Qed.

Lemma within_destroy_at b o : within (T:=T) b (destroy_at (Ptr b o)).
Proof.
  intros h. unfold destroy_at.
  destruct (slot h _) as [[x|]|]; first [done|apply set_slot_frame].
Qed.

Lemma within_operator_delete b o : within (T:=T) b (operator_delete (Ptr b o)).
Proof.
  intros h. unfold operator_delete. case_decide; [|done].
  destruct (h !! b) as [[blk|]|]; try done.
  split; [apply length_insert|]. intros c Hc. by apply list_lookup_insert_ne.
Qed.

Lemma within_placement_new {A} b o (T_ctor : A → option T) args :
  within b (placement_new (Ptr b o) T_ctor args).
Proof.
  unfold placement_new. apply within_bind; [apply within_try_|].
  intros x. apply within_construct_at.
Qed.

Lemma within_uninitialized_copy_n b n : ∀ first o,
  within b (uninitialized_copy_n first n (Ptr b o)).
Proof.
  induction n as [|n IH]; intros first o; simpl; [apply within_ret|].
  apply within_bind.
  - unfold new_copy. apply within_bind; [apply within_load|]. intros x.
    apply within_bind; [apply within_try_|]. intros y.
    apply within_construct_at.
  - intros _. apply within_unwinding; [apply within_destroy_at|apply IH].
Qed.

Lemma nothrow_uninitialized_move_n n : ∀ first d_first,
  (∀ x : T, is_Some (T_move x)) →
  nothrow (uninitialized_move_n first n d_first).
Proof.
  induction n as [|n IH]; intros first d_first Hm; simpl; [apply nothrow_ret|].
  apply nothrow_bind.
  - unfold new_move. apply nothrow_bind; [apply nothrow_load|]. intros x.
    apply nothrow_bind; [by apply nothrow_try_|]. intros [y x'].
    apply nothrow_bind; [apply nothrow_store|]. intros _.
    apply nothrow_construct_at.
  - intros _. apply nothrow_unwinding. by apply IH.
Qed.

(** Relocation either copies, and then changes the new block only, or
    moves with a constructor that does not throw. *)
Lemma UninitializedConstructN_cases b :
  nothrow_move_sound T →
  is_nothrow_move_constructible || is_copy_constructible = true →
  (∀ data n o, within b (UninitializedConstructN data n (Ptr b o))) ∨
  (∀ data n new_data, nothrow (UninitializedConstructN data n new_data)).
Proof.
  intros Hsound Hor. unfold UninitializedConstructN.
  destruct is_nothrow_move_constructible eqn:Hnt; simpl.
  - right. intros. apply nothrow_uninitialized_move_n. by apply Hsound.
  - simpl in Hor. rewrite Hor. simpl. left. intros.
    apply within_uninitialized_copy_n.
Qed.

Lemma assert_Ret_inv {S} b (s s' : S) a :
  assert b s = Ret a s' → b = true ∧ s' = s.
Proof. destruct b; [|done]. by intros [= _ <-]. Qed.

Lemma lift_Ret_inv {A} (m : M (heap T) A) h v a s' :
  lift m (h, v) = Ret a s' → ∃ h', m h = Ret a h' ∧ s' = (h', v).
Proof.
  unfold lift. simpl. destruct (m h) as [a' h'|h'|]; try done.
  intros [= <- <-]. eauto.
Qed.

Lemma lift_Throw_inv {A} (m : M (heap T) A) h v s' :
  lift m (h, v) = Throw s' → ∃ h', m h = Throw h' ∧ s' = (h', v).
Proof.
  unfold lift. simpl. destruct (m h) as [a' h'|h'|]; try done.
  intros [= <-]. eauto.
Qed.

Lemma vwithin_lift {A} b (m : M (heap T) A) : within b m → vwithin b (lift m).
Proof.
  intros Hm h v. unfold lift. simpl. specialize (Hm h).
  by destruct (m h).
Qed.

Lemma vwithin_ret {A} b (a : A) : vwithin (T:=T) b (ret a).
Proof. intros h v. split; [done|apply frame_refl]. Qed.

Lemma vwithin_bind {A B} b (m : M (vstate T) A) (k : A → M (vstate T) B) :
  vwithin b m → (∀ a, vwithin b (k a)) → vwithin b (bind m k).
Proof.
  intros Hm Hk h v. unfold bind. specialize (Hm h v).
  destruct (m (h, v)) as [a [h1 v1]|[h1 v1]|]; [|done..].
  destruct Hm as [Hv Hf]. simpl in *. subst v1.
  specialize (Hk a h1 v). destruct (k a (h1, v)) as [c s2|s2|]; try done;
    destruct Hk as [? ?]; split; try done; by eapply frame_trans.
Qed.

Lemma vthrows_bind {A B} b (m : M (vstate T) A) (k : A → M (vstate T) B) :
  vwithin b m → (∀ a, vthrows b (k a)) → vthrows b (bind m k).
Proof.
  intros Hm Hk h v s' H. specialize (Hm h v).
  apply bind_Throw_inv in H as [H|(a & [h1 v1] & H & H')]; rewrite H in Hm.
  - done.
  - destruct Hm as [Hv Hf]. simpl in *. subst v1.
    apply Hk in H' as [? ?]. split; [done|]. by eapply frame_trans.
Qed.

Lemma vthrows_nothrow {A} b (m : M (vstate T) A) : nothrow m → vthrows b m.
Proof. intros Hm h v s' H. by apply Hm in H. Qed.

Lemma vthrows_vwithin {A} b (m : M (vstate T) A) : vwithin b m → vthrows b m.
Proof. intros Hm h v s' H. specialize (Hm h v). by rewrite H in Hm. Qed.

(** A vector is not affected by changes to blocks allocated after it. *)
Lemma repr_frame h h' v l (b' : nat) :
  repr h v l → (length h ≤ b')%nat → frame b' h h' → repr h' v l.
Proof.
  intros (Hsz & Hle & Hbuf) Hb' [_ Hf]. split; [done|]. split; [done|].
  destruct (buffer_ (data_ v)) as [|b o]; [done|].
  destruct Hbuf as [-> Hb]. split; [done|].
  rewrite Hf; [done|]. apply lookup_lt_Some in Hb. lia.
Qed.

Lemma frame_alloc h (blk : option (block T)) h' :
  frame (length h) (h ++ [blk]) h' →
  ∀ c, (c < length h)%nat → h' !! c = h !! c.
Proof.
  intros [_ Hf] c Hc. rewrite Hf by lia. by apply lookup_app_l.
Qed.

Lemma repr_alloc_frame h h' v l (blk : option (block T)) :
  repr h v l → frame (length h) (h ++ [blk]) h' → repr h' v l.
Proof.
  intros (Hsz & Hle & Hbuf) Hf. split; [done|]. split; [done|].
  destruct (buffer_ (data_ v)) as [|b o]; [done|].
  destruct Hbuf as [-> Hb]. split; [done|].
  erewrite frame_alloc; [done..|]. by eapply lookup_lt_Some.
Qed.

(** The common shape of the three growth paths: allocate, work on the new
    block inside the scope of [new_data], then adopt it. *)
Lemma growth_scope_Throw {A B} (cap : nat)
    (body : RawMemory → M (vstate T) A)
    (rest : RawMemory → A → M (vstate T) B) h v l s' :
  cap ≠ 0%nat →
  vthrows (length h) (body {| buffer_ := Ptr (length h) 0; capacity_ := cap |}) →
  (∀ nd a, nothrow (rest nd a)) →
  repr h v l →
  (new_data <- lift (RawMemory_.ctor cap);;
   a <- unwinding (lift (RawMemory_.dtor new_data)) (body new_data);;
   rest new_data a) (h, v) = Throw s' →
  s'.2 = v ∧ repr s'.1 v l.
Proof.
  intros Hcap Hbody Hrest Hr H.
  apply bind_Throw_inv in H as [H|(nd & s1 & Hnd & H)].
  { unfold lift, RawMemory_.ctor, RawMemory_.Allocate in H. simpl in H.
    rewrite decide_True in H by done. done. }
  unfold lift, RawMemory_.ctor, RawMemory_.Allocate in Hnd. simpl in Hnd.
  rewrite decide_True in Hnd by done. simpl in Hnd.
  injection Hnd as <- <-.
  apply bind_Throw_inv in H as [H|(a & s2 & _ & H)];
    [|by apply Hrest in H].
  apply unwinding_Throw_inv in H as ([h2 v2] & H & Hc).
  apply Hbody in H as [Hv Hf]. simpl in *. subst v2.
  apply lift_Ret_inv in Hc as (h3 & Hdel & ->).
  unfold RawMemory_.dtor, RawMemory_.Deallocate in Hdel. cbn [buffer_] in Hdel.
  pose proof (within_operator_delete (length h) 0 h2) as Hd.
  rewrite Hdel in Hd. simpl. split; [done|].
  eapply repr_alloc_frame; [done|]. by eapply frame_trans.
Qed.

Lemma vthrows_plus {A} b rm off (k : ptr → M (vstate T) A) :
  vthrows b (k (buffer_ rm +ₚ Z.of_nat off)) →
  vthrows b (p <- lift (RawMemory_.plus rm off);; k p).
Proof.
  intros Hk h v s'. unfold bind, lift, RawMemory_.plus, assert. simpl.
  case_bool_decide; simpl; [|done]. apply Hk.
Qed.

Lemma nothrow_RawMemory_dtor rm : nothrow (RawMemory_.dtor (T:=T) rm).
Proof. apply nothrow_operator_delete. Qed.

(** What follows the scope of [new_data] raises nothing. *)
Lemma nothrow_adopt {A} (v : Vector) (new_data : RawMemory) (a : A) :
  nothrow (let '(d, new_data) := RawMemory_.Swap (data_ v) new_data in
           set_data (T:=T) d;; lift (RawMemory_.dtor new_data);; ret a).
Proof.
  simpl. apply nothrow_bind; [apply nothrow_set_data|]. intros _.
  apply nothrow_bind; [apply nothrow_lift, nothrow_RawMemory_dtor|].
  intros _. apply nothrow_ret.
Qed.

Section growth_paths.
Hypothesis Hsound : nothrow_move_sound T.
Hypothesis Hcopy :
  is_nothrow_move_constructible || is_copy_constructible = true.

Lemma relocate_vthrows {B} b data n o (rest : M (vstate T) B) :
  nothrow rest →
  vthrows b (lift (UninitializedConstructN data n (Ptr b o));; rest).
Proof.
  intros Hrest.
  destruct (UninitializedConstructN_cases b Hsound Hcopy) as [Hw|Hn].
  - apply vthrows_bind; [apply vwithin_lift, Hw|].
    intros _. by apply vthrows_nothrow.
  - apply vthrows_nothrow, nothrow_bind; [apply nothrow_lift, Hn|done].
Qed.

Lemma relocate2_vthrows {B} b data n o data' n' o' (rest : M (vstate T) B) :
  nothrow rest →
  vthrows b (lift (UninitializedConstructN data n (Ptr b o));;
             lift (UninitializedConstructN data' n' (Ptr b o'));; rest).
Proof.
  intros Hrest.
  destruct (UninitializedConstructN_cases b Hsound Hcopy) as [Hw|Hn].
  - apply vthrows_bind; [apply vwithin_lift, Hw|]. intros _.
    apply vthrows_bind; [apply vwithin_lift, Hw|].
    intros _. by apply vthrows_nothrow.
  - apply vthrows_nothrow, nothrow_bind; [apply nothrow_lift, Hn|].
    intros _. apply nothrow_bind; [apply nothrow_lift, Hn|done].
Qed.

Lemma Reserve_Throw n h v l s' :
  repr h v l → Reserve n (h, v) = Throw s' → s'.2 = v ∧ repr s'.1 v l.
Proof.
  intros Hr H. unfold Reserve in H.
  apply bind_Throw_inv in H as [H|(v0 & s1 & [= <- <-] & H)]; [done|].
  case_decide as Hn; [done|].
  eapply (growth_scope_Throw n
            (λ new_data,
               lift (UninitializedConstructN _ _ (RawMemory_.GetAddress new_data));;
               lift (destroy_n _ _))
            (λ new_data _,
               let '(d, new_data) := RawMemory_.Swap (data_ v) new_data in
               set_data d;; lift (RawMemory_.dtor new_data)));
    [| | |done|exact H].
  - unfold RawMemory_.Capacity in Hn. lia.
  - apply relocate_vthrows, nothrow_lift, nothrow_destroy_n.
  - intros nd _. simpl.
    apply nothrow_bind; [apply nothrow_set_data|]. intros _.
    apply nothrow_lift, nothrow_RawMemory_dtor.
Qed.

Lemma EmplaceBack_Throw {A} (T_ctor : A → option T) args h v l s' :
  repr h v l →
  EmplaceBack T_ctor args (h, v) = Throw s' → s'.2 = v ∧ repr s'.1 v l.
Proof.
  intros Hr H. unfold EmplaceBack in H.
  apply bind_Throw_inv in H as [H|(v0 & s1 & [= <- <-] & H)]; [done|].
  apply bind_Throw_inv in H as [H|(p & s1 & _ & H)].
  2:{ apply bind_Throw_inv in H as [H|(v1 & s2 & _ & H)]; [done|].
      apply bind_Throw_inv in H as [H|(? & s3 & _ & H)]; done. }
  case_decide as Hfull.
  - eapply (growth_scope_Throw _
              (λ new_data,
                 p <- lift (RawMemory_.plus new_data (size_ v));;
                 lift (placement_new p T_ctor args);;
                 lift (UninitializedConstructN _ _ (RawMemory_.GetAddress new_data));;
                 lift (destroy_n _ _);; ret p)
              (λ new_data result,
                 let '(d, new_data) := RawMemory_.Swap (data_ v) new_data in
                 set_data d;; lift (RawMemory_.dtor new_data);; ret result));
      [| | |done|exact H].
    + case_decide; lia.
    + apply vthrows_plus. simpl.
      apply vthrows_bind; [apply vwithin_lift, within_placement_new|].
      intros _. apply relocate_vthrows.
      apply nothrow_bind; [apply nothrow_lift, nothrow_destroy_n|].
      intros _. apply nothrow_ret.
    + intros nd a. apply nothrow_adopt.
  - (* in place: the constructor throws before anything is written *)
    unfold bind, lift, RawMemory_.plus, assert in H. simpl in H.
    case_bool_decide; simpl in H; [|done].
    unfold placement_new, bind in H.
    destruct (T_ctor args) as [x|]; simpl in H.
    + unfold construct_at in H. by destruct (slot h _).
    + by injection H as <-.
Qed.

Lemma Emplace_growth_Throw {A} (T_ctor : A → option T) pos args h v l s' :
  repr h v l → (Capacity v ≤ size_ v)%nat →
  Emplace T_ctor pos args (h, v) = Throw s' → s'.2 = v ∧ repr s'.1 v l.
Proof.
  intros Hr Hfull H. unfold Emplace in H.
  apply bind_Throw_inv in H as [H|(v0 & s1 & [= <- <-] & H)]; [done|].
  apply bind_Throw_inv in H as [H|([] & s1 & Ha & H)].
  { by apply nothrow_assert in H. }
  apply assert_Ret_inv in Ha as [_ ->].
  apply bind_Throw_inv in H as [H|(p & s1 & _ & H)].
  2:{ apply bind_Throw_inv in H as [H|(v1 & s2 & _ & H)]; [done|].
      apply bind_Throw_inv in H as [H|(? & s3 & _ & H)]; done. }
  rewrite decide_True in H by done.
  eapply (growth_scope_Throw _
            (λ new_data,
               lift (placement_new (RawMemory_.GetAddress new_data +ₚ _) T_ctor args);;
               lift (UninitializedConstructN _ _ (RawMemory_.GetAddress new_data));;
               lift (UninitializedConstructN _ _
                       (RawMemory_.GetAddress new_data +ₚ _ +ₚ 1));;
               lift (destroy_n _ _))
            (λ new_data _,
               let '(d, new_data) := RawMemory_.Swap (data_ v) new_data in
               set_data d;; lift (RawMemory_.dtor new_data)));
    [| | |done|exact H].
  - case_decide; lia.
  - simpl.
    apply vthrows_bind; [apply vwithin_lift, within_placement_new|].
    intros _. apply relocate2_vthrows, nothrow_lift, nothrow_destroy_n.
  - intros nd _. simpl.
    apply nothrow_bind; [apply nothrow_set_data|]. intros _.
    apply nothrow_lift, nothrow_RawMemory_dtor.
Qed.

(** The same for constructor arguments that are references, as long
    as running the constructor leaves the store as it was. *)
Lemma within_readonly {A} b (m : M (heap T) A) : readonly m → within b m.
Proof.
  intros Hm h. specialize (Hm h).
  destruct (m h) as [a h'|h'|]; [| |done]; subst h'; apply frame_refl.
Qed.

Lemma within_placement_new_with b o (make : M (heap T) T) :
  readonly make → within b (placement_new_with (Ptr b o) make).
Proof.
  intros Hm. unfold placement_new_with.
  apply within_bind; [by apply within_readonly|].
  intros x. apply within_construct_at.
Qed.

Lemma EmplaceBack_with_Throw (make : M (heap T) T) h v l s' :
  readonly make → repr h v l →
  EmplaceBack_with make (h, v) = Throw s' → s'.2 = v ∧ repr s'.1 v l.
Proof.
  intros Hmk Hr H. unfold EmplaceBack_with in H.
  apply bind_Throw_inv in H as [H|(v0 & s1 & [= <- <-] & H)]; [done|].
  apply bind_Throw_inv in H as [H|(p & s1 & _ & H)].
  2:{ apply bind_Throw_inv in H as [H|(v1 & s2 & _ & H)]; [done|].
      apply bind_Throw_inv in H as [H|(? & s3 & _ & H)]; done. }
  case_decide as Hfull.
  - eapply (growth_scope_Throw _
              (λ new_data,
                 p <- lift (RawMemory_.plus new_data (size_ v));;
                 lift (placement_new_with p make);;
                 lift (UninitializedConstructN _ _ (RawMemory_.GetAddress new_data));;
                 lift (destroy_n _ _);; ret p)
              (λ new_data result,
                 let '(d, new_data) := RawMemory_.Swap (data_ v) new_data in
                 set_data d;; lift (RawMemory_.dtor new_data);; ret result));
      [| | |done|exact H].
    + case_decide; lia.
    + apply vthrows_plus. simpl.
      apply vthrows_bind;
        [by apply vwithin_lift, within_placement_new_with|].
      intros _. apply relocate_vthrows.
      apply nothrow_bind; [apply nothrow_lift, nothrow_destroy_n|].
      intros _. apply nothrow_ret.
    + intros nd a. apply nothrow_adopt.
  - (* in place: the constructor throws before anything is written *)
    unfold bind, lift, RawMemory_.plus, assert in H. simpl in H.
    case_bool_decide; simpl in H; [|done].
    unfold placement_new_with, bind in H. specialize (Hmk h).
    destruct (make h) as [x h1|h1|]; simpl in H; [| |done].
    + unfold construct_at in H. by destruct (slot h1 _).
    + injection H as <-. by subst h1.
Qed.

Lemma Emplace_with_growth_Throw (make : M (heap T) T) pos h v l s' :
  readonly make → repr h v l → (Capacity v ≤ size_ v)%nat →
  Emplace_with make pos (h, v) = Throw s' → s'.2 = v ∧ repr s'.1 v l.
Proof.
  intros Hmk Hr Hfull H. unfold Emplace_with in H.
  apply bind_Throw_inv in H as [H|(v0 & s1 & [= <- <-] & H)]; [done|].
  apply bind_Throw_inv in H as [H|([] & s1 & Ha & H)].
  { by apply nothrow_assert in H. }
  apply assert_Ret_inv in Ha as [_ ->].
  apply bind_Throw_inv in H as [H|(p & s1 & _ & H)].
  2:{ apply bind_Throw_inv in H as [H|(v1 & s2 & _ & H)]; [done|].
      apply bind_Throw_inv in H as [H|(? & s3 & _ & H)]; done. }
  rewrite decide_True in H by done.
  eapply (growth_scope_Throw _
            (λ new_data,
               lift (placement_new_with (RawMemory_.GetAddress new_data +ₚ _) make);;
               lift (UninitializedConstructN _ _ (RawMemory_.GetAddress new_data));;
               lift (UninitializedConstructN _ _
                       (RawMemory_.GetAddress new_data +ₚ _ +ₚ 1));;
               lift (destroy_n _ _))
            (λ new_data _,
               let '(d, new_data) := RawMemory_.Swap (data_ v) new_data in
               set_data d;; lift (RawMemory_.dtor new_data)));
    [| | |done|exact H].
  - case_decide; lia.
  - simpl.
    apply vthrows_bind;
      [by apply vwithin_lift, within_placement_new_with|].
    intros _. apply relocate2_vthrows, nothrow_lift, nothrow_destroy_n.
  - intros nd _. simpl.
    apply nothrow_bind; [apply nothrow_set_data|]. intros _.
    apply nothrow_lift, nothrow_RawMemory_dtor.
Qed.
End growth_paths.

Lemma readonly_try_ {A} (r : option A) : readonly (T:=T) (try_ r).
Proof. intros h. by destruct r. Qed.

Lemma readonly_make_copy src : readonly (make_copy (T:=T) src).
Proof.
  intros h. unfold make_copy, bind, load.
  destruct (slot h src) as [[x|]|]; [|done..]. by destruct (T_copy x).
Qed.

(** By-value arguments are the case of a constructor that reads
    nothing. *)
Lemma EmplaceBack_with_value {A} (T_ctor : A → option T) args :
  EmplaceBack T_ctor args = EmplaceBack_with (try_ (T_ctor args)).
Proof. reflexivity. Qed.

Lemma bind_ext {S A B} (m : M S A) (k k' : A → M S B) s :
  (∀ a s', k a s' = k' a s') → bind m k s = bind m k' s.
Proof. intros Hk. unfold bind. by destruct (m s). Qed.

Lemma bind_ext_l {S A B} (m m' : M S A) (k : A → M S B) s :
  m s = m' s → bind m k s = bind m' k s.
Proof. unfold bind. by intros ->. Qed.

Lemma Emplace_with_value {A} (T_ctor : A → option T) pos args s :
  Emplace T_ctor pos args s = Emplace_with (try_ (T_ctor args)) pos s.
Proof.
  unfold Emplace, Emplace_with.
  apply bind_ext. intros v s1. apply bind_ext. intros _ s2.
  apply bind_ext_l. case_decide; [done|].
  unfold unwinding, Emplace_try_block, Emplace_try_block_with.
  case_decide; [|done].
  replace ((temp <- try_ (T_ctor args);;
            lift (new_move (end_ v) (end_ v +ₚ -1));;
            lift (std_move_backward
                    (begin v +ₚ to_int (ptr_diff pos (begin v)))
                    (end_ v +ₚ -1) (end_ v));;
            lift (assign_move_from
                    (begin v +ₚ to_int (ptr_diff pos (begin v))) temp);;
            ret tt) s2)
    with ((temp <- lift (try_ (T_ctor args));;
           lift (new_move (end_ v) (end_ v +ₚ -1));;
           lift (std_move_backward
                   (begin v +ₚ to_int (ptr_diff pos (begin v)))
                   (end_ v +ₚ -1) (end_ v));;
           lift (assign_move_from
                   (begin v +ₚ to_int (ptr_diff pos (begin v))) temp);;
           ret tt) s2); [done|].
  apply bind_ext_l. unfold lift, try_. by destruct s2, (T_ctor args).
Qed.
End guarantee_facts.

(** ** Sizes beyond [INT_MAX] *)

Section narrowing_facts.
Context {T : Type} `{!Element T}.
Import Vector_.
Implicit Types (h : heap T) (v : Vector) (l : list T).

Lemma to_int_narrowed : to_int (INT_MAX + 1) = - 2 ^ 31.
Proof. reflexivity. Qed.

(** [EmplaceBack] on a full vector of [INT_MAX + 1] elements: the count
    handed to [UninitializedConstructN] narrows to a negative [int],
    nothing is relocated, and the old elements are destroyed with their
    buffer. *)
Lemma EmplaceBack_narrowed {A} (T_ctor : A → option T) args x h v l :
  repr h v l → size_ v = Capacity v → Z.of_nat (size_ v) = INT_MAX + 1 →
  T_ctor args = Some x → fits T (grown (size_ v)) →
  ∃ h',
    EmplaceBack T_ctor args (h, v)
    = Ret (Ptr (length h) (Z.of_nat (length l)))
        (h', {| data_ := {| buffer_ := Ptr (length h) 0;
                            capacity_ := grown (length l) |};
                size_ := length l + 1 |}) ∧
    h' !! length h
    = Some (Some (replicate (length l) None
                  ++ Some x :: replicate (grown (length l) - length l - 1) None)).
Proof.
  intros (Hsz & Hle & Hbuf) Hfull Hmax Hx Hfit.
  destruct v as [[buf cap] sz].
  unfold Capacity, RawMemory_.Capacity in *. simpl in *. subst sz cap.
  assert (length l ≠ 0%nat) as Hne by (unfold INT_MAX in Hmax; lia).
  destruct buf as [|b o]; [done|]. destruct Hbuf as [-> Hb].
  rewrite Nat.sub_diag in Hb. simpl in Hb. rewrite app_nil_r in Hb.
  pose proof (grown_gt (length l)) as Hgt.
  assert (b < length h)%nat as Hlt by (by eapply lookup_lt_Some).
  remember (grown (length l) - length l - 1)%nat as k eqn:Hk.
  remember (h ++ [Some (replicate (grown (length l)) None)]) as h1 eqn:Hh1.
  assert (h1 !! length h
          = Some (Some (replicate (length l) None ++ None :: replicate k None)))
    as Hfresh.
  { subst h1 k. rewrite heap_lookup_fresh. do 2 f_equal.
    by apply replicate_middle. }
  remember (<[length h := Some (replicate (length l) None
                                ++ Some x :: replicate k None)]> h1)
    as h2 eqn:Hh2.
  assert (length h1 = Datatypes.S (length h)) as Hlen1
    by (subst h1; rewrite length_app; simpl; lia).
  assert (h2 !! b = Some (Some ([] ++ (Some <$> l) ++ []))) as Hb2.
  { subst h2 h1. rewrite list_lookup_insert_ne by lia.
    rewrite lookup_app_l by done. simpl. by rewrite app_nil_r. }
  exists (<[b := None]> (<[b := Some ([] ++ replicate (length l) None ++ [])]> h2)).
  split.
  - unfold EmplaceBack, Capacity, RawMemory_.Capacity.
    erewrite bind_Ret; [|done]. cbn [snd data_ capacity_ size_].
    rewrite decide_True by done. fold (grown (length l)).
    erewrite bind_Ret.
    2:{ erewrite bind_Ret; [|by apply lift_Ret, RawMemory_ctor_grown].
        rewrite <- Hh1.
        erewrite bind_Ret.
        2:{ apply unwinding_Ret.
            erewrite bind_Ret; [|apply lift_Ret, plus_spec; simpl; lia].
            erewrite bind_Ret.
            2:{ apply lift_Ret. simpl. eapply placement_new_middle; [done..|].
                rewrite length_replicate. lia. }
            rewrite <- Hh2.
            erewrite bind_Ret.
            2:{ apply lift_Ret. rewrite Hmax, to_int_narrowed.
                by apply UninitializedConstructN_0. }
            erewrite bind_Ret.
            2:{ apply lift_Ret.
                by eapply (destroy_n_spec l _ b [] []). }
            done. }
        cbn [RawMemory_.Swap data_ buffer_ capacity_].
        erewrite bind_Ret; [|done].
        erewrite bind_Ret.
        2:{ apply lift_Ret. unfold RawMemory_.dtor, RawMemory_.Deallocate.
            cbn [buffer_ fst].
            eapply operator_delete_spec. by erewrite heap_lookup_insert. }
        done. }
    simpl. done.
  - rewrite !list_lookup_insert_ne by lia. subst h2.
    by rewrite list_lookup_insert_eq by lia.
Qed.

(** A block whose first slot is raw does not hold a non-empty
    sequence. *)
Lemma repr_first_raw h v l b rest :
  buffer_ (data_ v) = Ptr b 0 → h !! b = Some (Some (None :: rest)) →
  l ≠ [] → ¬ repr h v l.
Proof.
  intros Hv Hb Hl (_ & _ & Hbuf). rewrite Hv in Hbuf.
  destruct Hbuf as [_ Hb']. rewrite Hb in Hb'.
  destruct l as [|y l]; [done|]. by simplify_eq/=.
Qed.

Lemma capacity_after_pow2 (a : nat) : capacity_after (2 ^ a) = (2 ^ a)%nat.
Proof.
  unfold capacity_after.
  rewrite decide_False by (apply Nat.pow_nonzero; lia).
  f_equal. apply Nat.log2_up_pow2. lia.
Qed.

Lemma INT_MAX_succ_pow2 (n : nat) :
  Z.of_nat n = INT_MAX + 1 → n = (2 ^ 31)%nat.
Proof.
  intros Hn. apply Nat2Z.inj. rewrite Hn, Nat2Z.inj_pow. reflexivity.
Qed.

(** [INT_MAX + 2] pushes from empty: the last one loses the elements
    pushed before. *)
Lemma push_all_narrowed (n : nat) (a a' : push_arg T) h :
  copy_preserves T → move_preserves T →
  Z.of_nat n = INT_MAX + 1 → fits T (n * 2) →
  ∃ caps h' v',
    push_all (replicate n a ++ [a']) (h, Vector_.default)
    = Ret caps (h', v') ∧
    size_ v' = (n + 1)%nat ∧ Capacity v' = (n * 2)%nat ∧
    load (begin v') h' = UB ∧
    ¬ repr h' v' (arg_value <$> replicate n a ++ [a']).
Proof.
  intros Hc Hm Hn Hfit.
  pose proof (INT_MAX_succ_pow2 n Hn) as Hpow.
  assert (capacity_after n = n) as Hcapn
    by (rewrite Hpow at 1; rewrite capacity_after_pow2; done).
  clear Hpow.
  assert (n ≠ 0%nat) as Hn0 by (unfold INT_MAX in Hn; lia).
  assert (grown n = (n * 2)%nat) as Hgrown
    by (unfold grown; by rewrite decide_False).
  destruct (push_all_spec (replicate n a) h Vector_.default [])
    as (h0 & v0 & Hrun0 & Hr0 & Hcap0); try done.
  { simpl. rewrite length_replicate. lia. }
  { simpl. rewrite length_replicate, Hcapn.
    eapply fits_le; [|exact Hfit]. lia. }
  simpl in Hr0, Hcap0. rewrite length_replicate in Hcap0.
  rewrite Hcapn in Hcap0.
  pose proof (repr_size _ _ _ Hr0) as Hsz0.
  rewrite length_fmap, length_replicate in Hsz0.
  rewrite fmap_app. simpl.
  remember (arg_value <$> replicate n a) as l eqn:Hl.
  assert (length l = n) as Hlen
    by (subst l; by rewrite length_fmap, length_replicate).
  assert (∃ h',
    push a' (h0, v0)
    = Ret tt (h', {| data_ := {| buffer_ := Ptr (length h0) 0;
                                 capacity_ := grown (length l) |};
                     size_ := length l + 1 |}) ∧
    h' !! length h0
    = Some (Some (replicate (length l) None
                  ++ Some (arg_value a')
                     :: replicate (grown (length l) - length l - 1) None)))
    as (h' & Hrun & Hnew).
  { destruct a' as [x|x]; simpl; unfold PushBack, PushBack_rvalue.
    - destruct (EmplaceBack_narrowed T_copy x x h0 v0 l)
        as (h' & Hrun & Hnew); try done.
      { lia. } { by rewrite Hsz0. } { by rewrite Hsz0, Hgrown. }
      exists h'. split; [|done]. by erewrite bind_Ret.
    - destruct (EmplaceBack_narrowed (λ y, fst <$> T_move y) x x h0 v0 l)
        as (h' & Hrun & Hnew); try done.
      { lia. } { by rewrite Hsz0. } { by rewrite Hsz0, Hgrown. }
      exists h'. split; [|done]. by erewrite bind_Ret. }
  rewrite Hlen, Hgrown in Hrun, Hnew.
  assert (∃ rest, h' !! length h0 = Some (Some (None :: rest)))
    as [rest Hraw].
  { rewrite Hnew. clear -Hn0. destruct n as [|n']; [done|]. simpl. eauto. }
  eexists _, h', _. split; [|split; [|split; [|split]]].
  - rewrite (push_all_app _ _ _ _ _ Hrun0). simpl.
    erewrite bind_Ret; [done|].
    erewrite bind_Ret; [|exact Hrun]. done.
  - done.
  - done.
  - unfold begin, RawMemory_.GetAddress, load, slot. simpl.
    by rewrite Hraw.
  - eapply repr_first_raw; [done|exact Hraw|by destruct l].
Qed.

(** [Emplace] at [end()] of a vector of [INT_MAX + 1] elements: the
    offset narrows to [- 2 ^ 31].  On the growth path the new element is
    placed before the new block; with spare capacity it is placed at
    [end()], but the iterator returned is [begin() - 2 ^ 31]. *)
Lemma Emplace_narrowed {A} (T_ctor : A → option T) args x h v l :
  repr h v l → Z.of_nat (size_ v) = INT_MAX + 1 → T_ctor args = Some x →
  ((Capacity v ≤ size_ v)%nat →
   Emplace T_ctor (end_ v) args (h, v) = UB) ∧
  ((size_ v < Capacity v)%nat →
   ∃ h',
     Emplace T_ctor (end_ v) args (h, v)
     = Ret (begin v +ₚ - 2 ^ 31)
         (h', {| data_ := data_ v; size_ := size_ v + 1 |}) ∧
     load (end_ v) h' = Ret x h' ∧
     begin v +ₚ - 2 ^ 31 ≠ end_ v).
Proof.
  intros (Hsz & Hle & Hbuf) Hmax Hx. destruct v as [[buf cap] sz].
  unfold Capacity, RawMemory_.Capacity. simpl in *. subst sz.
  assert (length l ≠ 0%nat) as Hne by (unfold INT_MAX in Hmax; lia).
  destruct buf as [|b o]; [lia|]. destruct Hbuf as [-> Hb].
  assert (to_int (ptr_diff (Ptr b (0 + Z.of_nat (length l))) (Ptr b 0))
          = - 2 ^ 31) as Hoff.
  { simpl. replace (0 + Z.of_nat (length l) - 0) with (INT_MAX + 1) by lia.
    apply to_int_narrowed. }
  assert (∀ s : vstate T,
    assert (ptr_le (Ptr b 0) (Ptr b (0 + Z.of_nat (length l)))
            && ptr_le (Ptr b (0 + Z.of_nat (length l)))
                 (Ptr b (0 + Z.of_nat (length l)))) s = Ret tt s)
    as Hassert.
  { intros s. unfold assert. simpl.
    by rewrite !bool_decide_eq_true_2 by lia. }
  split.
  - intros Hfull. unfold Emplace. erewrite bind_Ret; [|done]. cbn [snd].
    unfold begin, end_, RawMemory_.GetAddress, RawMemory_.Capacity.
    cbn [data_ buffer_ capacity_ size_ ptr_add].
    erewrite bind_Ret; [|apply Hassert]. rewrite Hoff.
    rewrite decide_True by done.
    rewrite (decide_False (P := length l = 0%nat)) by done.
    destruct (RawMemory_ctor_any (length l * 2) h ltac:(lia)) as [k Hctor].
    apply bind_UB.
    erewrite bind_Ret; [|by apply lift_Ret, Hctor].
    unfold unwinding. rewrite bind_UB; [done|].
    unfold lift, placement_new, bind. simpl. by rewrite Hx.
  - intros Hroom.
    rewrite (replicate_middle _ 0 (cap - length l)) in Hb by lia.
    simpl in Hb.
    eexists. split; [|split].
    + unfold Emplace. erewrite bind_Ret; [|done]. cbn [snd].
      unfold begin, end_, RawMemory_.GetAddress, RawMemory_.Capacity.
      cbn [data_ buffer_ capacity_ size_ ptr_add].
      erewrite bind_Ret; [|apply Hassert]. rewrite Hoff.
      rewrite decide_False by lia.
      erewrite bind_Ret; cycle 1.
      { apply unwinding_Ret. unfold Emplace_try_block, end_.
        cbn [data_ buffer_ size_ RawMemory_.GetAddress ptr_add].
        rewrite decide_False by (by intros []).
        apply lift_Ret. eapply placement_new_middle; [done..|].
        rewrite length_fmap. lia. }
      done.
    + unfold end_, RawMemory_.GetAddress. simpl.
      eapply load_middle; [by erewrite heap_lookup_insert|].
      rewrite length_fmap. lia.
    + unfold begin, end_, RawMemory_.GetAddress. simpl.
      intros [=]. unfold INT_MAX in Hmax. lia.
Qed.
End narrowing_facts.

(** * Main results *)

Section main_results.
Context {T : Type} `{!Element T}.
Import Vector_.
Implicit Types (h : heap T) (v : Vector) (l : list T).


(** On the in-place path before the end, no exception ever reaches the
    caller of [Emplace]: an exception out of the [try] block runs the
    handler, whose [operator delete (end())] is given an address inside
    the buffer. *)
Lemma Emplace_in_place_handler_undefined {A} (T_ctor : A → option T) args
    h v l (k : nat) s1 :
  repr h v l → (size_ v < Capacity v)%nat → (k < length l)%nat →
  Emplace_try_block T_ctor (begin v +ₚ Z.of_nat k) args v
    (to_int (ptr_diff (begin v +ₚ Z.of_nat k) (begin v))) (h, v) = Throw s1 →
  Emplace T_ctor (begin v +ₚ Z.of_nat k) args (h, v) = UB.
Proof.
  intros (Hsz & Hle & Hbuf) Hcap Hk Htry.
  destruct v as [[buf cap] sz].
  unfold Capacity, RawMemory_.Capacity in Hcap. simpl in Hsz, Hle, Hbuf, Hcap.
  subst sz.
  destruct buf as [|b o]; [lia|]. destruct Hbuf as [-> Hb].
  unfold Emplace. erewrite bind_Ret; [|done]. cbn [snd].
  erewrite bind_Ret.
  2:{ unfold assert, begin, end_, RawMemory_.GetAddress. simpl.
      rewrite !bool_decide_eq_true_2 by lia. done. }
  unfold RawMemory_.Capacity. cbn [data_ capacity_ size_].
  rewrite decide_False by lia.
  apply bind_UB. unfold unwinding. rewrite Htry.
  destruct s1 as [h1 v1]. unfold lift, end_, RawMemory_.GetAddress. simpl.
  rewrite decide_False by lia. done.
Qed.

(** C4.  The claim holds for the first [INT_MAX + 1] pushes and fails at
    the next one.  After [INT_MAX + 1] pushes the vector is full;
    [EmplaceBack] hands its size to [UninitializedConstructN], whose
    count is an [int]: it narrows to [- 2 ^ 31], nothing is relocated,
    and the old elements are destroyed with their buffer.  The push
    returns normally with size [INT_MAX + 2] and the capacity doubled,
    but the slot of the first element is raw memory, and the vector does
    not hold the values pushed. *)
Theorem PushBack_past_INT_MAX (n : nat) (a a' : push_arg T) h :
  copy_preserves T → move_preserves T →
  Z.of_nat n = INT_MAX + 1 → fits T (n * 2) →
  ∃ caps h' v',
    push_all (replicate n a ++ [a']) (h, Vector_.default)
    = Ret caps (h', v') ∧
    size_ v' = (n + 1)%nat ∧ Capacity v' = (n * 2)%nat ∧
    load (begin v') h' = UB ∧
    ¬ repr h' v' (arg_value <$> replicate n a ++ [a']).
Proof. apply push_all_narrowed. Qed.

(** C5.  The claim fails for a vector of [INT_MAX + 1] elements:
    [Emplace] keeps [pos - begin()] in an [int] (where [Erase] uses a
    [size_t]), and at [end()] the offset narrows to [- 2 ^ 31].  On the
    growth path the new element is placed [2 ^ 31] slots before the new
    block: undefined behaviour.  With spare capacity the element is
    constructed at [end()], but the iterator returned is
    [begin() - 2 ^ 31], not the position of the new element. *)
Theorem Emplace_past_INT_MAX {A} (T_ctor : A → option T) args x h v l :
  repr h v l → Z.of_nat (size_ v) = INT_MAX + 1 → T_ctor args = Some x →
  ((Capacity v ≤ size_ v)%nat →
   Emplace T_ctor (end_ v) args (h, v) = UB) ∧
  ((size_ v < Capacity v)%nat →
   ∃ h',
     Emplace T_ctor (end_ v) args (h, v)
     = Ret (begin v +ₚ - 2 ^ 31)
         (h', {| data_ := data_ v; size_ := size_ v + 1 |}) ∧
     load (end_ v) h' = Ret x h' ∧
     begin v +ₚ - 2 ^ 31 ≠ end_ v).
Proof. apply Emplace_narrowed. Qed.

(** C6.  [Erase] at index [k < size] of a vector holding [l] lets no
    exception escape if move assignment cannot throw; with move assignment
    that yields the value of its source it returns normally, the vector
    then holds [l] without its element [k], the others in their order,
    its size is one less, and the iterator returned is [begin() + k]: the
    place of the element that followed the removed one, or [end()] if it
    was the last. *)
Theorem Erase_spec h v l (k : nat) :
  repr h v l → (k < length l)%nat →
  let pos := begin v +ₚ Z.of_nat k in
  ((∀ d x : T, is_Some (T_move_assign d x)) → nothrow (Erase pos)) ∧
  (move_assign_preserves T →
   ∃ h' v',
     Erase pos (h, v) = Ret (begin v' +ₚ Z.of_nat k) (h', v') ∧
     repr h' v' (take k l ++ drop (Datatypes.S k) l) ∧
     size_ v' = (size_ v - 1)%nat ∧
     data_ v' = data_ v ∧
     (∀ y, l !! Datatypes.S k = Some y →
           load (begin v' +ₚ Z.of_nat k) h' = Ret y h') ∧
     (Datatypes.S k = length l → begin v' +ₚ Z.of_nat k = end_ v')).
Proof.
  intros (Hsz & Hle & Hbuf) Hk pos. split; [apply nothrow_Erase|].
  intros Hma. destruct v as [[buf cap] sz]. simpl in *. subst sz pos.
  destruct buf as [|b o]; [lia|]. destruct Hbuf as [-> Hb].
  destruct (drop k l) as [|d tail] eqn:Hdrop.
  { apply (f_equal length) in Hdrop. rewrite length_drop in Hdrop.
    simpl in Hdrop. lia. }
  assert (l = take k l ++ d :: tail) as Hl by (by rewrite <- Hdrop, take_drop).
  assert (length (take k l) = k) as Htk by (rewrite length_take; lia).
  assert (drop (Datatypes.S k) l = tail) as Htail.
  { replace (Datatypes.S k) with (k + 1)%nat by lia.
    by rewrite <- drop_drop, Hdrop. }
  rewrite Htail. remember (take k l) as front eqn:Hfront.
  assert (length l = (k + Datatypes.S (length tail))%nat) as Hlen.
  { rewrite Hl, length_app. simpl. lia. }
  assert (length (front ++ tail) = (length l - 1)%nat) as Hlen'.
  { rewrite length_app. lia. }
  remember (replicate (cap - length l) None) as rest eqn:Hrest.
  pose proof (Erase_Ret h b cap front d tail rest k Hma) as Hrun.
  rewrite <- Hl in Hrun. specialize (Hrun Hb Htk). simpl in Hrun.
  eexists _, {| data_ := {| buffer_ := Ptr b 0; capacity_ := cap |};
                size_ := length (front ++ tail) |}.
  split; [exact Hrun|]. split; [|split; [done|split; [done|split]]].
  - split; [done|]. simpl. split; [lia|]. split; [done|].
    erewrite heap_lookup_insert by done. do 3 f_equal.
    rewrite Hrest, Hlen'.
    by replace (cap - (length l - 1))%nat
      with (Datatypes.S (cap - length l)) by lia.
  - intros y Hy. simpl.
    rewrite Hl, lookup_app_r in Hy by lia.
    replace (Datatypes.S k - length front)%nat with 1%nat in Hy by lia.
    simpl in Hy. destruct tail as [|y' tail']; [done|].
    injection Hy as ->.
    eapply (load_middle _ b (Some <$> front)).
    + erewrite heap_lookup_insert by done.
      by rewrite fmap_app, <- app_assoc.
    + rewrite length_fmap. lia.
  - intros Hlast. unfold end_, begin, RawMemory_.GetAddress. simpl.
    do 2 f_equal. lia.
Qed.

(** C7.  Move construction gives the new vector the size, the capacity
    and the buffer, hence the elements, of the source, leaves the store
    untouched, and leaves the source with size 0, capacity 0 and no
    buffer. *)
Theorem move_ctor_spec h other :
  ∃ v other',
    move_ctor other h = Ret (v, other') h ∧
    v = other ∧
    other' = Vector_.default ∧
    size_ other' = 0%nat ∧ Capacity other' = 0%nat ∧
    ∀ l, repr h other l → repr h v l.
Proof.
  exists other, Vector_.default.
  split; [by destruct other as [[buf cap] sz]|].
  repeat (split; [done|]). auto.
Qed.

(** C8.  [PopBack] on a vector holding [l] returns normally; the vector
    then holds [l] without its last element, its size is one less (or
    still 0), its capacity and buffer are unchanged, and the slot of the
    removed element is raw memory again; on an empty vector nothing
    changes at all. *)
Theorem PopBack_spec h v l :
  repr h v l →
  ∃ h' v',
    PopBack (h, v) = Ret tt (h', v') ∧
    size_ v' = (size_ v - 1)%nat ∧
    data_ v' = data_ v ∧
    repr h' v' (removelast l) ∧
    (size_ v = 0%nat → h' = h ∧ v' = v) ∧
    ((0 < size_ v)%nat → slot h' (end_ v') = Some None).
Proof.
  intros (Hsz & Hle & Hbuf).
  destruct v as [[buf cap] sz]. simpl in *. subst sz.
  destruct l as [|x l _] using rev_ind.
  - eexists _, _. split; [done|]. repeat split; try done. simpl. lia.
  - rewrite length_app in *. simpl in *.
    destruct buf as [|b o]; [lia|]. destruct Hbuf as [-> Hb].
    rewrite fmap_app, <- app_assoc in Hb. simpl in Hb.
    eexists _, _. split.
    { eapply (PopBack_Ret _ _ _ _ (Some <$> l)); [done|].
      by rewrite length_fmap. }
    rewrite removelast_last. simpl.
    split; [lia|]. split; [done|]. split; [|split; [lia|]].
    + split; [done|]. split; [simpl; lia|]. simpl. split; [done|].
      erewrite heap_lookup_insert by done. do 3 f_equal.
      by replace (cap - length l)%nat
        with (Datatypes.S (cap - (length l + 1))) by lia.
    + intros _. unfold end_. simpl.
      eapply slot_middle.
      * by erewrite heap_lookup_insert.
      * rewrite length_fmap. lia.
Qed.

(** C9.  Copy assignment of a vector [b] holding [lb] to a different
    vector [a] whose capacity is at least the size of [b] returns
    normally; [a] then has the size of [b] and holds [lb], its capacity
    and buffer are unchanged and no block was allocated; [b] is unchanged.
    Self assignment changes nothing. *)
Theorem copy_assign_spec h a b la lb :
  copy_preserves T → copy_assign_preserves T →
  repr h a la → repr h b lb → separate a b →
  (size_ b ≤ Capacity a)%nat →
  (∃ h',
     copy_assign (Other b) (h, a)
     = Ret tt (h', {| data_ := data_ a; size_ := size_ b |}) ∧
     repr h' {| data_ := data_ a; size_ := size_ b |} lb ∧
     repr h' b lb ∧
     length h' = length h) ∧
  copy_assign Self (h, a) = Ret tt (h, a).
Proof.
  intros Hc Hca Hra Hrb Hsep Hfit. split; [|done].
  apply (copy_assign_fits h a b la lb); try done.
  by rewrite <- (repr_size _ _ _ Hrb).
Qed.

(** C10.  Move assignment from a different vector exchanges the two: the
    target takes the size, capacity and buffer of the source, the source
    those of the target, and the store is untouched, so the source is
    left empty only if the target was empty; self move assignment changes
    nothing. *)
Theorem move_assign_spec h a b :
  move_assign (Other b) (h, a) = Ret (Other a) (h, b) ∧
  move_assign Self (h, a) = Ret Self (h, a).
Proof. by destruct a as [[bufa capa] sza], b as [[bufb capb] szb]. Qed.
End main_results.

(** ** Concrete runs *)

Import Vector_.

Ltac by_evaluation := vm_compute; repeat split; first [done | lia].

(** C1.  On a [RawMemory<int>] that owns block 0 with capacity 3, move
    construction and move assignment return normally, give the destination
    the block and the capacity and leave the store untouched, but the
    source keeps capacity 3 and the address of the block; destroying the
    destination and then the source releases block 0 twice. *)
Theorem RawMemory_move_keeps_source :
  let h : heap Z := [Some [None; None; None]] in
  let src := {| buffer_ := Ptr 0 0; capacity_ := 3 |} in
  RawMemory_.move_ctor src h = Ret (src, src) h ∧
  RawMemory_.move_assign RawMemory_.default src h = Ret (src, src) h ∧
  (r <- RawMemory_.move_ctor src;;
   RawMemory_.dtor r.1;; RawMemory_.dtor r.2) h = UB.
Proof. by vm_compute. Qed.


(** It fails as well, for a copyable element type, when the argument is an
    rvalue reference to an element of the vector: on the vector holding 1
    and 13 in a full buffer, [PushBack(std::move(v[0]))] moves from the 1
    to construct the new element, then relocates by copy; the copy of the
    13 throws, and the exception leaves the vector holding 0 and 13. *)
Lemma PushBack_aliased_rvalue_changes_contents :
  let E := throwing_copy_Element in
  let h : heap Z := [Some [Some 1; Some 13]] in
  let v := {| data_ := {| buffer_ := Ptr 0 0; capacity_ := 2 |}; size_ := 2 |} in
  repr h v [1; 13] ∧
  @is_nothrow_move_constructible Z E || @is_copy_constructible Z E = true ∧
  ∃ h', PushBack_rvalue_ref (Element0 := E) (begin v) (h, v) = Throw (h', v) ∧
        repr h' v [0; 13] ∧ ¬ repr h' v [1; 13].
Proof.
  split; [by_evaluation|]. split; [done|].
  exists [Some [Some 0; Some 13]; None].
  split; [by_evaluation|]. split; [by_evaluation|].
  intros (_ & _ & _ & H). by vm_compute in H.
Qed.


(** C3.  A vector of a move-only element type holds 13 and 1 in a buffer
    of capacity 4; [Emplace(begin(), 7)] runs in place.  The [try] block
    move-constructs the 1 into the trailing slot, then the move assignment
    of the 13 throws: at that point the trailing slot holds an object and
    [size_] is still 2.  The handler passes [end()], the address of slot 2
    of the buffer, to [operator delete]: the behaviour is undefined. *)
Theorem Emplace_in_place_throw_undefined :
  let h : heap Z := [Some [Some 13; Some 1; None; None]] in
  let v := {| data_ := {| buffer_ := Ptr 0 0; capacity_ := 4 |}; size_ := 2 |} in
  repr h v [13; 1] ∧
  Emplace_try_block (Element0 := move_only_Element) Some (begin v) 7 v 0 (h, v)
  = Throw ([Some [Some 13; Some 0; Some 1; None]], v) ∧
  operator_delete (end_ v) [Some [Some 13; Some 0; Some 1; None]] = UB ∧
  Emplace (Element0 := move_only_Element) Some (begin v) 7 (h, v) = UB.
Proof. by_evaluation. Qed.

Lemma PushBack_past_INT_MAX_witness :
  copy_preserves Z ∧ move_preserves Z ∧
  Z.of_nat (Z.to_nat (INT_MAX + 1)) = INT_MAX + 1 ∧
  fits Z (Z.to_nat (INT_MAX + 1) * 2) ∧
  ∃ caps h' v',
    push_all (replicate (Z.to_nat (INT_MAX + 1)) (lvalue 7) ++ [lvalue 9])
      ([], Vector_.default)
    = Ret caps (h', v') ∧
    size_ v' = (Z.to_nat (INT_MAX + 1) + 1)%nat ∧
    Capacity v' = (Z.to_nat (INT_MAX + 1) * 2)%nat ∧
    load (begin v') h' = UB ∧
    ¬ repr h' v'
        (arg_value <$> replicate (Z.to_nat (INT_MAX + 1)) (lvalue 7)
                       ++ [lvalue 9]).
Proof.
  assert (copy_preserves Z) as H1 by (intros x; reflexivity).
  assert (move_preserves Z) as H2 by (intros x; reflexivity).
  assert (Z.of_nat (Z.to_nat (INT_MAX + 1)) = INT_MAX + 1) as H3
    by (apply Z2Nat.id; unfold INT_MAX; lia).
  assert (fits Z (Z.to_nat (INT_MAX + 1) * 2)) as H4.
  { unfold fits. rewrite Nat2Z.inj_mul, H3. unfold INT_MAX, SIZE_MAX.
    simpl sizeof_T. lia. }
  repeat (split; [assumption|]).
  exact (PushBack_past_INT_MAX (Z.to_nat (INT_MAX + 1)) (lvalue 7) (lvalue 9)
           [] H1 H2 H3 H4).
Defined.

Lemma Emplace_past_INT_MAX_witness :
  let l := replicate (Z.to_nat (INT_MAX + 1)) 7 in
  let h : heap Z := [Some (Some <$> l)] in
  let v := {| data_ := {| buffer_ := Ptr 0 0; capacity_ := length l |};
              size_ := length l |} in
  repr h v l ∧ Z.of_nat (size_ v) = INT_MAX + 1 ∧ Some 9 = Some 9 ∧
  (Capacity v ≤ size_ v)%nat ∧
  Emplace Some (end_ v) 9 (h, v) = UB.
Proof.
  assert (∀ l : list Z,
    let h : heap Z := [Some (Some <$> l)] in
    let v := {| data_ := {| buffer_ := Ptr 0 0; capacity_ := length l |};
                size_ := length l |} in
    Z.of_nat (length l) = INT_MAX + 1 →
    repr h v l ∧ Z.of_nat (size_ v) = INT_MAX + 1 ∧ Some 9 = Some 9 ∧
    (Capacity v ≤ size_ v)%nat ∧
    Emplace Some (end_ v) 9 (h, v) = UB) as Hall.
  { intros l h v Hlen.
    assert (repr h v l) as H1.
    { split; [done|]. split; [done|]. split; [done|].
      cbn [data_ capacity_]. rewrite Nat.sub_diag.
      cbn [replicate]. by rewrite app_nil_r. }
    assert (Z.of_nat (size_ v) = INT_MAX + 1) as H2 by exact Hlen.
    assert (Some 9 = Some 9) as H3 by reflexivity.
    assert (Capacity v ≤ size_ v)%nat as H4 by done.
    repeat (split; [assumption|]).
    exact (proj1 (Emplace_past_INT_MAX Some 9 9 h v l H1 H2 H3) H4). }
  apply Hall. rewrite length_replicate. apply Z2Nat.id. unfold INT_MAX. lia.
Defined.

Lemma Erase_spec_witness :
  let h : heap Z := [Some [Some 10; Some 20; Some 30; None]] in
  let v := {| data_ := {| buffer_ := Ptr 0 0; capacity_ := 4 |}; size_ := 3 |} in
  repr h v [10; 20; 30] ∧ (1 < 3)%nat ∧ move_assign_preserves Z ∧
  ∃ h' v',
    Erase (Ptr 0 1) (h, v) = Ret (begin v' +ₚ 1) (h', v') ∧
    repr h' v' [10; 30] ∧
    size_ v' = 2%nat ∧
    data_ v' = data_ v ∧
    (∀ y, [10; 20; 30] !! 2%nat = Some y → load (begin v' +ₚ 1) h' = Ret y h') ∧
    (2%nat = 3%nat → begin v' +ₚ 1 = end_ v').
Proof.
  intros h v.
  assert (repr h v [10; 20; 30]) as H1 by by_evaluation.
  assert (1 < 3)%nat as H2 by lia.
  assert (move_assign_preserves Z) as H3 by (intros d x; reflexivity).
  repeat (split; [assumption|]).
  exact (proj2 (Erase_spec h v [10; 20; 30] 1 H1 H2) H3).
Defined.

Lemma PopBack_spec_witness :
  let h : heap Z := [Some [Some 10; Some 20; Some 30; None]] in
  let v := {| data_ := {| buffer_ := Ptr 0 0; capacity_ := 4 |}; size_ := 3 |} in
  repr h v [10; 20; 30] ∧
  ∃ h' v',
    PopBack (h, v) = Ret tt (h', v') ∧
    size_ v' = 2%nat ∧
    data_ v' = data_ v ∧
    repr h' v' [10; 20] ∧
    (3%nat = 0%nat → h' = h ∧ v' = v) ∧
    ((0 < 3)%nat → slot h' (end_ v') = Some None).
Proof.
  intros h v.
  assert (repr h v [10; 20; 30]) as H1 by by_evaluation.
  split; [assumption|].
  exact (PopBack_spec h v [10; 20; 30] H1).
Defined.

Lemma copy_assign_spec_witness :
  let h : heap Z := [Some [Some 1; Some 2; Some 3; Some 4; Some 5];
                     Some [Some 7; Some 8]] in
  let a := {| data_ := {| buffer_ := Ptr 0 0; capacity_ := 5 |}; size_ := 5 |} in
  let b := {| data_ := {| buffer_ := Ptr 1 0; capacity_ := 2 |}; size_ := 2 |} in
  copy_preserves Z ∧ copy_assign_preserves Z ∧
  repr h a [1; 2; 3; 4; 5] ∧ repr h b [7; 8] ∧ separate a b ∧
  (size_ b ≤ Capacity a)%nat ∧
  (∃ h',
     copy_assign (Other b) (h, a)
     = Ret tt (h', {| data_ := {| buffer_ := Ptr 0 0; capacity_ := 5 |};
                      size_ := 2 |}) ∧
     repr h' {| data_ := {| buffer_ := Ptr 0 0; capacity_ := 5 |};
                size_ := 2 |} [7; 8] ∧
     repr h' b [7; 8] ∧
     length h' = length h) ∧
  copy_assign Self (h, a) = Ret tt (h, a).
Proof.
  intros h a b.
  assert (copy_preserves Z) as H1 by (intros x; reflexivity).
  assert (copy_assign_preserves Z) as H2 by (intros d x; reflexivity).
  assert (repr h a [1; 2; 3; 4; 5]) as H3 by by_evaluation.
  assert (repr h b [7; 8]) as H4 by by_evaluation.
  assert (separate a b) as H5 by by_evaluation.
  assert (size_ b ≤ Capacity a)%nat as H6 by by_evaluation.
  repeat (split; [assumption|]).
  exact (copy_assign_spec h a b [1; 2; 3; 4; 5] [7; 8] H1 H2 H3 H4 H5 H6).
Defined.

(** * Further properties of the vector *)

Section construction_facts.
Context {T : Type} `{!Element T}.
Import Vector_.
Implicit Types (h : heap T) (v : Vector) (l : list T).

Lemma uninitialized_value_construct_n_spec n : ∀ h b pre junk suf o d,
  T_default = Some d →
  h !! b = Some (Some (pre ++ junk ++ suf)) → length junk = n →
  o = Z.of_nat (length pre) →
  uninitialized_value_construct_n (Ptr b o) n h
  = Ret tt (<[b := Some (pre ++ replicate n (Some d) ++ suf)]> h).
Proof.
  induction n as [|n IH]; intros h b pre junk suf o d Hd Hb Hlen Ho; simpl.
  - destruct junk; [|done]. unfold ret. f_equal. symmetry.
    by apply list_insert_id.
  - destruct junk as [|s junk]; [done|]. simpl in *.
    rewrite Hd. simpl. erewrite bind_Ret; [|done].
    erewrite bind_Ret; [|by eapply construct_at_middle].
    erewrite unwinding_Ret; [done|].
    erewrite (IH _ b (pre ++ [Some d]) junk suf); try done.
    + rewrite list_insert_insert_eq. by rewrite <- app_assoc.
    + erewrite heap_lookup_insert by done. by rewrite <- app_assoc.
    + lia.
    + rewrite length_app. simpl. lia.
Qed.

(** A block appended to the store leaves the vectors in it as they
    were. *)
Lemma repr_app h v l (blk : option (block T)) :
  repr h v l → repr (h ++ [blk]) v l.
Proof.
  intros Hr. eapply repr_alloc_frame; [done|]. apply frame_refl.
Qed.

(** X1.  [Vector(n)], for an element type whose default constructor makes
    [d] and for [n] such that [n * sizeof(T)] does not exceed
    [SIZE_MAX]: the new vector holds [n] copies of [d], its size and
    capacity are [n]; every vector already in the store holds what it
    held, and none shares its buffer with the new one. *)
Theorem ctor_spec (n : nat) h d :
  T_default = Some d → fits T n →
  ∃ h' v,
    ctor n h = Ret v h' ∧
    repr h' v (replicate n d) ∧
    size_ v = n ∧ Capacity v = n ∧
    (∀ w l, repr h w l → repr h' w l ∧ separate v w).
Proof.
  intros Hd Hfit. unfold ctor.
  destruct (decide (n = 0%nat)) as [->|Hn].
  - exists h, Vector_.default. split; [done|]. split; [done|].
    split; [done|]. split; [done|]. by intros w l Hr.
  - exists (h ++ [Some (replicate n (Some d))]),
      {| data_ := {| buffer_ := Ptr (length h) 0; capacity_ := n |};
         size_ := n |}.
    split; [|split; [|split; [done|split; [done|]]]].
    + erewrite bind_Ret; [|by apply RawMemory_ctor_pos].
      erewrite bind_Ret; [done|]. apply unwinding_Ret. simpl.
      erewrite (uninitialized_value_construct_n_spec n _ (length h) []
                  (replicate n None) []); try done.
      * simpl. rewrite app_nil_r.
        rewrite <- (Nat.add_0_r (length h)) at 1.
        by rewrite insert_app_r.
      * rewrite heap_lookup_fresh. simpl. by rewrite app_nil_r.
      * by rewrite length_replicate.
    + split; [by rewrite length_replicate|]. simpl.
      split; [by rewrite length_replicate|]. split; [done|].
      rewrite heap_lookup_fresh, length_replicate, Nat.sub_diag. simpl.
      by rewrite app_nil_r, fmap_replicate.
    + intros w l Hr. split; [by apply repr_app|].
      unfold separate. simpl.
      destruct Hr as (_ & _ & Hbuf).
      destruct (buffer_ (data_ w)) as [|b o]; [done|].
      destruct Hbuf as [_ Hb]. apply lookup_lt_Some in Hb. lia.
Qed.

(** X2.  [Vector(n)] for an element type whose default constructor
    throws: for [n = 0] no element is constructed and the empty vector
    is returned without any allocation; otherwise the exception leaves
    the constructor, and the block allocated for the buffer has been
    released again. *)
Theorem ctor_throwing (n : nat) h :
  T_default = None →
  ctor n h = (if decide (n = 0%nat) then Ret Vector_.default h
              else Throw (h ++ [None])).
Proof.
  intros Hd. unfold ctor. case_decide as Hn.
  - by subst n.
  - destruct (RawMemory_ctor_any n h Hn) as [k Hctor].
    erewrite bind_Ret; [|exact Hctor].
    destruct n as [|n]; [done|]. simpl.
    unfold bind, unwinding. simpl. rewrite Hd. simpl.
    unfold RawMemory_.dtor, RawMemory_.Deallocate. cbn [buffer_].
    erewrite (operator_delete_spec (h ++ [_])) by apply heap_lookup_fresh.
    f_equal. rewrite <- (Nat.add_0_r (length h)) at 1.
    by rewrite insert_app_r.
Qed.
End construction_facts.

Section copy_facts.
Context {T : Type} `{!Element T}.
Import Vector_.
Implicit Types (h : heap T) (v : Vector) (l : list T).

Lemma heap_insert_fresh h (x y : option (block T)) :
  <[length h := y]> (h ++ [x]) = h ++ [y].
Proof.
  rewrite <- (Nat.add_0_r (length h)) at 1. by rewrite insert_app_r.
Qed.

Lemma separate_fresh h w l o cap sz :
  repr h w l →
  separate {| data_ := {| buffer_ := Ptr (length h) o; capacity_ := cap |};
              size_ := sz |} w.
Proof.
  intros (_ & _ & Hbuf). unfold separate. simpl.
  destruct (buffer_ (data_ w)) as [|b o']; [done|].
  destruct Hbuf as [_ Hb]. apply lookup_lt_Some in Hb. lia.
Qed.

Lemma repr_ext h h' w l :
  repr h w l →
  (∀ b o, buffer_ (data_ w) = Ptr b o → h' !! b = h !! b) →
  repr h' w l.
Proof.
  intros (Hsz & Hle & Hbuf) Hext. split; [done|]. split; [done|].
  destruct (buffer_ (data_ w)) as [|b o]; [done|].
  destruct Hbuf as [-> Hb]. split; [done|]. by erewrite Hext.
Qed.

Lemma copy_ctor_Ret h other l :
  copy_preserves T → repr h other l → l ≠ [] → fits T (length l) →
  copy_ctor other h
  = Ret {| data_ := {| buffer_ := Ptr (length h) 0; capacity_ := length l |};
           size_ := length l |}
      (h ++ [Some (Some <$> l)]).
Proof.
  intros Hc (Hsz & Hle & Hbuf) Hne Hfit.
  destruct other as [[buf cap] sz]. simpl in *. subst sz.
  unfold copy_ctor. simpl.
  assert (length l ≠ 0%nat) as Hpos by (by destruct l).
  destruct buf as [|b o]; [lia|]. destruct Hbuf as [-> Hb].
  assert (b < length h)%nat as Hlt by (by eapply lookup_lt_Some).
  erewrite bind_Ret; [|by apply RawMemory_ctor_pos].
  erewrite bind_Ret; [done|]. apply unwinding_Ret. simpl.
  erewrite (uninitialized_copy_n_spec l _ b (length h) [] _ []
              (replicate (length l) None) []); try done.
  - simpl. by rewrite app_nil_r, heap_insert_fresh.
  - lia.
  - rewrite lookup_app_l by done. exact Hb.
  - rewrite heap_lookup_fresh. simpl. by rewrite app_nil_r.
  - by rewrite length_replicate.
Qed.

Lemma copy_ctor_nil h other :
  repr h other [] → copy_ctor other h = Ret Vector_.default h.
Proof. intros (Hsz & _). unfold copy_ctor. by rewrite Hsz. Qed.

Lemma dtor_Ret h v l :
  repr h v l →
  dtor v h = Ret tt (match buffer_ (data_ v) with
                     | nullptr => h
                     | Ptr b _ => <[b := None]> h
                     end).
Proof.
  intros (Hsz & Hle & Hbuf). destruct v as [[buf cap] sz].
  simpl in *. subst sz. unfold dtor, RawMemory_.GetAddress. simpl.
  destruct buf as [|b o].
  - subst cap. destruct l; [done|simpl in Hle; lia].
  - destruct Hbuf as [-> Hb].
    erewrite bind_Ret; [|by eapply (destroy_n_spec l _ b [])].
    unfold RawMemory_.dtor, RawMemory_.Deallocate. cbn [buffer_].
    erewrite operator_delete_spec by (by erewrite heap_lookup_insert).
    by rewrite list_insert_insert_eq.
Qed.

(** X3.  [Vector(const Vector&)], for a source whose elements take at
    most [SIZE_MAX] bytes: the copy holds the sequence of the source,
    its capacity is the size (not the capacity) of the source, it has a
    buffer of its own, and every vector already in the store, the
    source among them, holds what it held. *)
Theorem copy_ctor_spec h other l :
  copy_preserves T → repr h other l → fits T (size_ other) →
  ∃ h' v,
    copy_ctor other h = Ret v h' ∧
    repr h' v l ∧
    Capacity v = length l ∧
    separate v other ∧
    (∀ w l', repr h w l' → repr h' w l' ∧ separate v w).
Proof.
  intros Hc Hr Hfit. rewrite (repr_size _ _ _ Hr) in Hfit.
  destruct (decide (l = [])) as [->|Hne].
  - exists h, Vector_.default. split; [by apply copy_ctor_nil|].
    split; [done|]. split; [done|]. split; [done|]. by intros w l' Hw.
  - eexists _, _. split; [by apply copy_ctor_Ret|].
    split; [|split; [done|split]].
    + split; [done|]. split; [done|]. simpl. split; [done|].
      rewrite heap_lookup_fresh, Nat.sub_diag. simpl. by rewrite app_nil_r.
    + by eapply separate_fresh.
    + intros w l' Hw. split; [by apply repr_app|]. by eapply separate_fresh.
Qed.

Lemma copy_ctor_Throw_inv h other h' :
  copy_ctor other h = Throw h' → h' = h ++ [None].
Proof.
  unfold copy_ctor. intros H.
  apply bind_Throw_inv in H as [H|(data & h1 & Hdata & H)].
  { unfold RawMemory_.ctor, RawMemory_.Allocate, bind in H.
    by case_decide. }
  apply bind_Throw_inv in H as [H|(? & h2 & _ & H)]; [|done].
  apply unwinding_Throw_inv in H as (h2 & H & Hdel).
  unfold RawMemory_.ctor, RawMemory_.Allocate, bind in Hdata.
  case_decide as Hn; simpl in Hdata.
  - injection Hdata as <- <-.
    unfold RawMemory_.GetAddress in H. cbn [buffer_] in H.
    match type of H with
    | uninitialized_copy_n _ _ _ ?h1 = _ =>
        pose proof (within_uninitialized_copy_n (length h) (size_ other)
                      (buffer_ (data_ other)) 0 h1) as Hw
    end.
    rewrite H in Hw. destruct Hw as [Hlen Hf].
    unfold RawMemory_.dtor, RawMemory_.Deallocate, operator_delete in Hdel.
    simpl in Hdel.
    destruct (h2 !! length h) as [[blk|]|] eqn:Hblk; try done.
    injection Hdel as <-.
    apply list_eq. intros c.
    destruct (decide (c = length h)) as [->|Hc].
    + rewrite list_lookup_insert_eq, heap_lookup_fresh; [done|].
      rewrite Hlen, length_app. simpl. lia.
    + rewrite list_lookup_insert_ne, Hf by done.
      destruct (decide (c < length h)%nat).
      * by rewrite !lookup_app_l by done.
      * rewrite !lookup_ge_None_2; [done|..];
          rewrite length_app; simpl; lia.
  - injection Hdata as <- <-.
    assert (size_ other = 0%nat) as Hz by (destruct (size_ other); [done|lia]).
    rewrite Hz in H. done.
Qed.

(** X4.  If an exception leaves the copy constructor, the block that was
    allocated for the copy has been released: the store is the one
    before the call followed by one released block, and every vector
    in it holds what it held. *)
Theorem copy_ctor_Throw h other h' :
  copy_ctor other h = Throw h' →
  h' = h ++ [None] ∧ ∀ w l, repr h w l → repr h' w l.
Proof.
  intros H. apply copy_ctor_Throw_inv in H as ->.
  split; [done|]. intros w l. apply repr_app.
Qed.

(** Destroying a range that reaches a slot without object is
    undefined. *)
Lemma destroy_n_raw l1 : ∀ h b pre suf o (n : nat),
  h !! b = Some (Some (pre ++ (Some <$> l1) ++ None :: suf)) →
  o = Z.of_nat (length pre) → (length l1 < n)%nat →
  destroy_n (Ptr b o) n h = UB.
Proof.
  induction l1 as [|x l1 IH]; intros h b pre suf o n Hb Ho Hn;
    (destruct n as [|n]; [simpl in Hn; lia|]); simpl in *.
  - apply bind_UB. unfold destroy_at.
    by rewrite (slot_middle _ _ _ _ _ _ Hb Ho).
  - erewrite bind_Ret; [|by eapply destroy_at_middle].
    eapply (IH _ b (pre ++ [None]) suf).
    + erewrite heap_lookup_insert by done. by rewrite <- app_assoc.
    + rewrite length_app. simpl. lia.
    + lia.
Qed.

End copy_facts.

Section reserve_facts.
Context {T : Type} `{!Element T}.
Import Vector_.
Implicit Types (h : heap T) (v : Vector) (l : list T).

Lemma Reserve_repr (n : nat) h v l :
  copy_preserves T → move_preserves T →
  repr h v l → Z.of_nat (size_ v) ≤ INT_MAX →
  ((Capacity v < n)%nat → fits T n) →
  ∃ h' v',
    Reserve n (h, v) = Ret tt (h', v') ∧
    repr h' v' l ∧
    size_ v' = size_ v ∧
    Capacity v' = (n `max` Capacity v)%nat ∧
    ((n ≤ Capacity v)%nat → h' = h ∧ v' = v) ∧
    ((Capacity v < n)%nat →
     ∀ b o, buffer_ (data_ v) = Ptr b o → h' !! b = Some None) ∧
    (∀ w lw, repr h w lw → separate v w → repr h' w lw ∧ separate v' w).
Proof.
  intros Hc Hm Hr Hmax Hfit. pose proof Hr as (Hsz & Hle & Hbuf).
  destruct v as [[buf cap] sz].
  unfold Capacity, RawMemory_.Capacity in Hfit. simpl in *. subst sz.
  unfold Reserve, Capacity, RawMemory_.Capacity.
  erewrite bind_Ret; [|done]. cbn [snd data_ capacity_ size_].
  case_decide as Hn.
  { exists h, {| data_ := {| buffer_ := buf; capacity_ := cap |};
                 size_ := length l |}.
    split; [done|]. split; [done|]. split; [done|].
    split; [simpl; lia|]. split; [done|].
    split; [simpl; lia|]. auto. }
  assert (n ≠ 0%nat) as Hn0 by lia.
  specialize (Hfit ltac:(lia)).
  remember (length h) as b' eqn:Hb'.
  remember (h ++ [Some (replicate n None)]) as h1 eqn:Hh1.
  assert (Hlen1 : length h1 = Datatypes.S b')
    by (subst; rewrite length_app; simpl; lia).
  assert (Hfresh : h1 !! b'
            = Some (Some (replicate (length l) None
                          ++ replicate (n - length l) None))).
  { subst. rewrite heap_lookup_fresh, <- replicate_add.
    do 3 f_equal. lia. }
  assert (∃ h2 h3 h4,
    UninitializedConstructN buf (to_int (Z.of_nat (length l))) (Ptr b' 0) h1
    = Ret tt h2 ∧
    destroy_n buf (length l) h2 = Ret tt h3 ∧
    RawMemory_.dtor {| buffer_ := buf; capacity_ := cap |} h3 = Ret tt h4 ∧
    h4 !! b' = Some (Some ((Some <$> l) ++ replicate (n - length l) None)) ∧
    match buf with Ptr b _ => h4 !! b = Some None | nullptr => True end ∧
    (∀ c, match buf with Ptr b _ => c ≠ b | nullptr => True end →
          (c < b')%nat → h4 !! c = h !! c))
    as (h2 & h3 & h4 & Hrel & Hdes & Hdel & Hnew & Hfreed & Hold).
  { rewrite to_int_id by (unfold INT_MAX in *; lia).
    destruct buf as [|b o].
    - subst cap. destruct l; [|simpl in *; lia]. exists h1, h1, h1. simpl.
      split; [by apply UninitializedConstructN_0|]. do 2 (split; [done|]).
      split; [by rewrite Hfresh|]. split; [done|].
      intros c _ Hlt. subst h1. by rewrite lookup_app_l by lia.
    - destruct Hbuf as [-> Hb].
      assert (b < b')%nat as Hlt by (apply lookup_lt_Some in Hb; lia).
      assert (b ≠ b') as Hne by lia.
      destruct (UninitializedConstructN_spec l h1 b b' []
        (replicate (cap - length l) None) []
        (replicate (length l) None) (replicate (n - length l) None) 0 0
        (Z.of_nat (length l))) as (l' & Hl' & Hrel); try done.
      { subst h1. by rewrite lookup_app_l by lia. }
      { by rewrite length_replicate. }
      simpl in Hrel.
      do 3 eexists. split; [exact Hrel|]. split; [|split; [|split; [|split]]].
      + rewrite <- Hl'. eapply (destroy_n_spec l' _ b []); [|done].
        rewrite list_lookup_insert_ne by done.
        by rewrite list_lookup_insert_eq by lia.
      + unfold RawMemory_.dtor, RawMemory_.Deallocate. cbn [buffer_].
        eapply operator_delete_spec.
        by rewrite list_lookup_insert_eq by (rewrite ?length_insert; lia).
      + rewrite !list_lookup_insert_ne by done.
        rewrite list_lookup_insert_eq by (rewrite ?length_insert; lia).
        by rewrite Hl'.
      + by rewrite list_lookup_insert_eq by (rewrite ?length_insert; lia).
      + intros c Hco Hcb.
        rewrite !list_lookup_insert_ne by (done || lia).
        subst h1. by rewrite lookup_app_l by lia. }
  exists h4, {| data_ := {| buffer_ := Ptr b' 0; capacity_ := n |};
                size_ := length l |}.
  split; [|split; [|split; [done|split; [simpl; lia|split; [lia|split]]]]].
  - erewrite bind_Ret; [|by apply lift_Ret, RawMemory_ctor_pos].
    rewrite <- Hb', <- Hh1.
    erewrite bind_Ret.
    2:{ apply unwinding_Ret.
        erewrite bind_Ret; [|by apply lift_Ret, Hrel].
        by apply lift_Ret, Hdes. }
    simpl. erewrite bind_Ret; [|done]. by apply lift_Ret, Hdel.
  - split; [done|]. simpl. split; [lia|]. split; [done|]. exact Hnew.
  - intros _ b o Hbo. simpl in Hbo. subst buf. exact Hfreed.
  - intros w lw Hw Hsep. split.
    + eapply repr_ext; [done|]. intros c o Hwb.
      destruct Hw as (_ & _ & Hbw). rewrite Hwb in Hbw.
      destruct Hbw as [_ Hbw]. apply lookup_lt_Some in Hbw.
      unfold separate in Hsep. simpl in Hsep. rewrite Hwb in Hsep.
      apply Hold; [|lia].
      destruct buf as [|b ob]; [done|]. done.
    + unfold separate in *. simpl in *.
      destruct Hw as (_ & _ & Hbw).
      destruct (buffer_ (data_ w)) as [|bw ow]; [done|].
      destruct Hbw as [_ Hbw]. apply lookup_lt_Some in Hbw. lia.
Qed.

(** X6.  [Reserve(n)] on a vector of at most [INT_MAX] elements: the
    sequence and the size stay, the capacity becomes the larger of the
    old one and [n]; nothing at all happens if that is the old one;
    otherwise, provided [n * sizeof(T)] does not exceed [SIZE_MAX], the
    elements are relocated and the old buffer has been released, so
    that the iterators into it dangle; the other vectors in the store
    hold what they held and do not share the new buffer. *)
Theorem Reserve_spec (n : nat) h v l :
  copy_preserves T → move_preserves T →
  repr h v l → Z.of_nat (size_ v) ≤ INT_MAX →
  ((Capacity v < n)%nat → fits T n) →
  ∃ h' v',
    Reserve n (h, v) = Ret tt (h', v') ∧
    repr h' v' l ∧
    size_ v' = size_ v ∧
    Capacity v' = (n `max` Capacity v)%nat ∧
    ((n ≤ Capacity v)%nat → h' = h ∧ v' = v) ∧
    ((Capacity v < n)%nat →
     ∀ b o, buffer_ (data_ v) = Ptr b o → h' !! b = Some None) ∧
    (∀ w lw, repr h w lw → separate v w → repr h' w lw ∧ separate v' w).
Proof. apply Reserve_repr. Qed.
End reserve_facts.

Section resize_facts.
Context {T : Type} `{!Element T}.
Import Vector_.
Implicit Types (h : heap T) (v : Vector) (l : list T).

(** X7.  [Resize(n)] to a smaller size: the first [n] elements stay, the
    others are destroyed, the buffer and the capacity are kept, and the
    other vectors in the store hold what they held. *)
Theorem Resize_shrink (n : nat) h v l :
  repr h v l → (n < size_ v)%nat →
  ∃ h',
    Resize n (h, v) = Ret tt (h', {| data_ := data_ v; size_ := n |}) ∧
    repr h' {| data_ := data_ v; size_ := n |} (take n l) ∧
    (∀ w lw, repr h w lw → separate v w → repr h' w lw).
Proof.
  intros (Hsz & Hle & Hbuf) Hn. destruct v as [[buf cap] sz].
  simpl in *. subst sz. unfold Resize.
  erewrite bind_Ret; [|done]. cbn [snd data_ size_].
  rewrite decide_True by done.
  destruct buf as [|b o]; [lia|]. destruct Hbuf as [-> Hb].
  remember (replicate (cap - length l) None) as rest eqn:Hrest.
  rewrite <- (take_drop n l), fmap_app, <- app_assoc in Hb.
  assert (length (take n l) = n) as Htk by (rewrite length_take; lia).
  assert (length (drop n l) = (length l - n)%nat) as Hdk
    by (by rewrite length_drop).
  eexists. split; [|split].
  - erewrite bind_Ret; cycle 1.
    { apply lift_Ret.
      unfold RawMemory_.GetAddress. cbn [buffer_]. rewrite <- Hdk.
      eapply (destroy_n_spec _ _ b (Some <$> take n l)); [exact Hb|].
      rewrite length_fmap. simpl. lia. }
    done.
  - split; [done|]. simpl. split; [lia|]. split; [done|].
    erewrite heap_lookup_insert by done. do 3 f_equal.
    rewrite Htk, Hdk, Hrest, <- replicate_add. f_equal. lia.
  - intros w lw Hw Hsep. eapply repr_ext; [done|]. intros c o Hwb.
    unfold separate in Hsep. simpl in Hsep. rewrite Hwb in Hsep.
    simpl. by rewrite list_lookup_insert_ne.
Qed.

Lemma Resize_Reserve (n : nat) h v l :
  copy_preserves T → move_preserves T →
  repr h v l → (size_ v ≤ n)%nat → Z.of_nat (size_ v) ≤ INT_MAX →
  ((Capacity v < n)%nat → fits T n) →
  ∃ h1 v1,
    Reserve n (h, v) = Ret tt (h1, v1) ∧
    repr h1 v1 l ∧ Capacity v1 = (n `max` Capacity v)%nat ∧
    Resize n (h, v)
    = (lift (uninitialized_value_construct_n
               (RawMemory_.GetAddress (data_ v1) +ₚ Z.of_nat (size_ v1))
               (n - size_ v1));;
       set_size n) (h1, v1).
Proof.
  intros Hc Hm Hr Hn Hmax Hfit.
  destruct (Reserve_repr n h v l Hc Hm Hr Hmax Hfit)
    as (h1 & v1 & Hrun & Hr1 & Hsz1 & Hcap1 & _).
  exists h1, v1. split; [done|]. split; [done|]. split; [done|].
  unfold Resize. erewrite bind_Ret; [|done]. cbn [snd].
  rewrite decide_False by lia.
  erewrite bind_Ret; [|exact Hrun]. by erewrite bind_Ret.
Qed.

(** X8.  [Resize(n)] to a size that is not smaller, on a vector of at
    most [INT_MAX] elements of a type whose default constructor makes
    [d] and whose copy and move constructors yield the value of their
    source, where [n * sizeof(T)] does not exceed [SIZE_MAX] if [n] is
    above the capacity: the elements stay and are followed by copies of
    [d] up to size [n]; the capacity becomes the larger of the old one
    and [n]. *)
Theorem Resize_grow (n : nat) h v l d :
  T_default = Some d → copy_preserves T → move_preserves T →
  repr h v l → (size_ v ≤ n)%nat → Z.of_nat (size_ v) ≤ INT_MAX →
  ((Capacity v < n)%nat → fits T n) →
  ∃ h' v',
    Resize n (h, v) = Ret tt (h', v') ∧
    repr h' v' (l ++ replicate (n - length l) d) ∧
    size_ v' = n ∧
    Capacity v' = (n `max` Capacity v)%nat.
Proof.
  intros Hd Hc Hm Hr Hn Hmax Hfit.
  destruct (Resize_Reserve n h v l Hc Hm Hr Hn Hmax Hfit)
    as (h1 & v1 & _ & Hr1 & Hcap1 & ->).
  clear Hfit.
  pose proof (repr_size _ _ _ Hr) as Hsz. rewrite Hsz in Hn.
  destruct Hr1 as (Hsz1 & Hle1 & Hbuf1).
  destruct v1 as [[buf1 cap1] sz1].
  unfold Capacity, RawMemory_.Capacity, RawMemory_.GetAddress in *.
  simpl in *. subst sz1.
  assert (length (l ++ replicate (n - length l) d) = n) as Hlen.
  { rewrite length_app, length_replicate. lia. }
  destruct (decide (n = length l)) as [->|Hne].
  - rewrite Nat.sub_diag. simpl.
    exists h1, {| data_ := {| buffer_ := buf1; capacity_ := cap1 |};
                  size_ := length l |}.
    split; [done|]. rewrite app_nil_r. done.
  - destruct buf1 as [|b o]; [lia|]. destruct Hbuf1 as [-> Hb].
    replace (replicate (cap1 - length l) (None : option T))
      with (replicate (n - length l) (None : option T)
              ++ replicate (cap1 - n) None) in Hb
      by (rewrite <- replicate_add; f_equal; lia).
    eexists _, {| data_ := {| buffer_ := Ptr b 0; capacity_ := cap1 |};
                  size_ := n |}.
    split; [|split; [|done]].
    + erewrite bind_Ret; cycle 1.
      { apply lift_Ret.
        eapply (uninitialized_value_construct_n_spec _ _ b (Some <$> l));
          [done|exact Hb|by rewrite length_replicate|].
        rewrite length_fmap. simpl. lia. }
      done.
    + split; [by rewrite Hlen|]. simpl. split; [rewrite Hlen; lia|].
      split; [done|]. erewrite heap_lookup_insert by done.
      rewrite Hlen, fmap_app, fmap_replicate, <- app_assoc. done.
Qed.

(** X9.  [Resize(n)] to a larger size with a throwing default
    constructor, on a vector of at most [INT_MAX] elements of a type
    whose copy and move constructors yield the value of their source,
    where [n * sizeof(T)] does not exceed [SIZE_MAX] if [n] is above
    the capacity: the exception leaves [Resize] after [Reserve] has run,
    so the vector holds its old sequence with its old size, but in a
    buffer of the new capacity. *)
Theorem Resize_throwing (n : nat) h v l :
  T_default = None → copy_preserves T → move_preserves T →
  repr h v l → (size_ v < n)%nat → Z.of_nat (size_ v) ≤ INT_MAX →
  ((Capacity v < n)%nat → fits T n) →
  ∃ h' v',
    Resize n (h, v) = Throw (h', v') ∧
    repr h' v' l ∧
    size_ v' = size_ v ∧
    Capacity v' = (n `max` Capacity v)%nat.
Proof.
  intros Hd Hc Hm Hr Hn Hmax Hfit.
  destruct (Resize_Reserve n h v l Hc Hm Hr ltac:(lia) Hmax Hfit)
    as (h1 & v1 & _ & Hr1 & Hcap1 & ->).
  exists h1, v1. split; [|split; [done|split; [|done]]].
  - apply bind_Throw. unfold lift. cbn [fst snd].
    rewrite (repr_size _ _ _ Hr1), <- (repr_size _ _ _ Hr).
    destruct (n - size_ v)%nat as [|k] eqn:Hk; [lia|]. simpl.
    unfold bind. by rewrite Hd.
  - by rewrite (repr_size _ _ _ Hr1), (repr_size _ _ _ Hr).
Qed.
End resize_facts.

Section assignment_facts.
Context {T : Type} `{!Element T}.
Import Vector_.
Implicit Types (h : heap T) (v : Vector) (l : list T).

Lemma nothrow_dtor v : nothrow (dtor (T:=T) v).
Proof.
  unfold dtor. apply nothrow_bind; [apply nothrow_destroy_n|].
  intros _. apply nothrow_RawMemory_dtor.
Qed.

Lemma nothrow_Swap other : nothrow (Swap (T:=T) other).
Proof. by intros [h [[buf cap] sz]] s'. Qed.

(** Copy assignment when the source does not fit: a copy is built aside,
    adopted, and the old buffer is destroyed and released. *)
Lemma copy_assign_grows h a b la lb :
  copy_preserves T →
  repr h a la → repr h b lb → separate a b →
  (Capacity a < size_ b)%nat → fits T (size_ b) →
  ∃ h' a',
    copy_assign (Other b) (h, a) = Ret tt (h', a') ∧
    repr h' a' lb ∧ repr h' b lb ∧
    Capacity a' = size_ b.
Proof.
  intros Hc Hra Hrb Hsep Hcap Hfit.
  assert (lb ≠ []) as Hne.
  { intros ->. rewrite (repr_size _ _ _ Hrb) in Hcap. simpl in Hcap. lia. }
  rewrite (repr_size _ _ _ Hrb) in Hfit.
  pose proof (copy_ctor_Ret h b lb Hc Hrb Hne Hfit) as Hcopy.
  pose proof (repr_app h a la (Some (Some <$> lb)) Hra) as Hra1.
  pose proof (repr_app h b lb (Some (Some <$> lb)) Hrb) as Hrb1.
  pose proof (dtor_Ret _ a la Hra1) as Hd.
  eexists _, _. split; [|split; [|split]].
  - unfold copy_assign. erewrite bind_Ret; [|done]. cbn [snd].
    unfold Capacity in Hcap. rewrite decide_True by done.
    erewrite bind_Ret; [|by apply lift_Ret, Hcopy].
    erewrite bind_Ret; [|done].
    unfold Swap. cbn.
    destruct a as [[bufa capa] sza].
    by apply lift_Ret, Hd.
  - eapply (repr_ext (h ++ [Some (Some <$> lb)])).
    + split; [done|]. split; [done|]. simpl. split; [done|].
      rewrite heap_lookup_fresh, Nat.sub_diag. simpl. by rewrite app_nil_r.
    + intros bc oc [= <- <-].
      destruct Hra as (_ & _ & Hba).
      destruct (buffer_ (data_ a)) as [|ba oa]; [done|].
      destruct Hba as [_ Hba]. apply lookup_lt_Some in Hba.
      rewrite list_lookup_insert_ne by lia. done.
  - eapply repr_ext; [exact Hrb1|]. intros bb ob Hbb.
    unfold separate in Hsep. rewrite Hbb in Hsep.
    destruct (buffer_ (data_ a)) as [|ba oa]; [done|].
    by rewrite list_lookup_insert_ne.
  - simpl. by rewrite (repr_size _ _ _ Hrb).
Qed.

(** X10.  Copy assignment from a different vector, whatever the sizes
    and capacities (where a copy is allocated, the elements of the
    source take at most [SIZE_MAX] bytes): afterwards both hold the
    sequence of the source; the target keeps its capacity if the source
    fits, and otherwise gets a capacity equal to the size of the
    source. *)
Theorem copy_assign_any h a b la lb :
  copy_preserves T → copy_assign_preserves T →
  repr h a la → repr h b lb → separate a b →
  ((Capacity a < size_ b)%nat → fits T (size_ b)) →
  ∃ h' a',
    copy_assign (Other b) (h, a) = Ret tt (h', a') ∧
    repr h' a' lb ∧ repr h' b lb ∧
    Capacity a' = (if decide (Capacity a < size_ b)%nat then size_ b
                   else Capacity a).
Proof.
  intros Hc Hca Hra Hrb Hsep Hfit. case_decide as Hcap.
  - apply (copy_assign_grows h a b la lb); auto.
  - destruct (copy_assign_fits h a b la lb) as (h' & Hrun & Hra' & Hrb' & _);
      try done.
    { rewrite <- (repr_size _ _ _ Hrb). lia. }
    by exists h', {| data_ := data_ a; size_ := size_ b |}.
Qed.

(** X11.  When the source does not fit in the target and an exception
    leaves copy assignment, the target object is as it was and the store
    has only gained a released block: the target keeps its buffer and
    its elements. *)
Theorem copy_assign_grows_Throw h a b s' :
  (Capacity a < size_ b)%nat →
  copy_assign (Other b) (h, a) = Throw s' → s' = (h ++ [None], a).
Proof.
  intros Hcap H. unfold copy_assign in H.
  apply bind_Throw_inv in H as [H|(v0 & s1 & [= <- <-] & H)]; [done|].
  unfold Capacity in Hcap. rewrite decide_True in H by done.
  apply bind_Throw_inv in H as [H|(c & s1 & _ & H)].
  - apply lift_Throw_inv in H as (h' & H & ->).
    by apply copy_ctor_Throw_inv in H as ->.
  - apply bind_Throw_inv in H as [H|(c' & s2 & _ & H)].
    + by apply nothrow_Swap in H.
    + exfalso. eapply nothrow_lift; [apply nothrow_dtor|exact H].
Qed.

(** X12.  [operator[](i)] for [i] below the size returns the address
    [begin() + i], where element [i] of the sequence lives, and changes
    nothing; an index that is not below the size fails the assertion. *)
Theorem index_spec h v l (i : nat) :
  repr h v l →
  (∀ x, l !! i = Some x →
        index i (h, v) = Ret (begin v +ₚ Z.of_nat i) (h, v) ∧
        load (begin v +ₚ Z.of_nat i) h = Ret x h) ∧
  ((length l ≤ i)%nat → index i (h, v) = UB).
Proof.
  intros (Hsz & Hle & Hbuf). destruct v as [[buf cap] sz].
  simpl in *. subst sz. unfold index.
  split.
  - intros x Hx. pose proof (lookup_lt_Some _ _ _ Hx) as Hi.
    destruct buf as [|b o]; [lia|]. destruct Hbuf as [-> Hb].
    split.
    + erewrite bind_Ret; [|done]. cbn [snd size_ data_].
      erewrite bind_Ret;
        [|unfold assert; by rewrite bool_decide_eq_true_2 by done].
      apply lift_Ret. unfold RawMemory_.index. simpl.
      by rewrite bool_decide_eq_true_2 by lia.
    + apply list_elem_of_split_length in Hx as (l1 & l2 & -> & ->).
      rewrite fmap_app, <- app_assoc in Hb. simpl in Hb.
      eapply load_middle; [exact Hb|]. rewrite length_fmap.
      unfold begin, RawMemory_.GetAddress. simpl. lia.
  - intros Hi. erewrite bind_Ret; [|done]. cbn [snd size_].
    apply bind_UB. unfold assert. by rewrite bool_decide_eq_false_2 by lia.
Qed.
End assignment_facts.

Section edge_facts.
Context {T : Type} `{!Element T}.
Import Vector_.
Implicit Types (h : heap T) (v : Vector) (l : list T).

(** X13.  [EmplaceBack] with spare capacity: the new element is
    constructed in the next free slot, whose address, the old [end()],
    is returned; the buffer and the capacity are kept, the size is one
    more, the elements stay at their addresses, and the other vectors
    hold what they held.  No operation of the element type but the
    constructor is used. *)
Theorem EmplaceBack_in_place {A} (T_ctor : A → option T) args x h v l :
  repr h v l → (size_ v < Capacity v)%nat → T_ctor args = Some x →
  ∃ h',
    EmplaceBack T_ctor args (h, v)
    = Ret (end_ v) (h', {| data_ := data_ v; size_ := size_ v + 1 |}) ∧
    repr h' {| data_ := data_ v; size_ := size_ v + 1 |} (l ++ [x]) ∧
    load (end_ v) h' = Ret x h' ∧
    (∀ i y, l !! i = Some y → load (begin v +ₚ Z.of_nat i) h' = Ret y h') ∧
    (∀ w lw, repr h w lw → separate v w → repr h' w lw).
Proof.
  intros (Hsz & Hle & Hbuf) Hcap Hx. destruct v as [[buf cap] sz].
  unfold Capacity, RawMemory_.Capacity in *. simpl in *. subst sz.
  destruct buf as [|b o]; [lia|]. destruct Hbuf as [-> Hb].
  remember (replicate (cap - (length l + 1)) (None : option T)) as rest eqn:Hrest.
  replace (replicate (cap - length l) (None : option T))
    with ((None : option T) :: rest) in Hb.
  2:{ subst rest. rewrite (replicate_middle _ 0 (cap - length l)) by lia.
      simpl. do 2 f_equal. lia. }
  exists (<[b := Some ((Some <$> l) ++ Some x :: rest)]> h).
  split; [|split; [|split; [|split]]].
  - unfold EmplaceBack. erewrite bind_Ret; [|done].
    cbn [snd]. unfold Capacity, RawMemory_.Capacity. cbn [data_ capacity_ size_].
    rewrite decide_False by lia.
    erewrite bind_Ret.
    2:{ erewrite bind_Ret; [|apply lift_Ret, plus_spec; simpl; lia].
        erewrite bind_Ret; [done|].
        apply lift_Ret. simpl. eapply placement_new_middle; [done..|].
        rewrite length_fmap. lia. }
    done.
  - split; [simpl; rewrite length_app; simpl; lia|].
    split; [simpl; rewrite length_app; simpl; lia|]. simpl.
    split; [done|]. erewrite heap_lookup_insert by done.
    rewrite fmap_app, <- app_assoc, length_app, Hrest. done.
  - unfold end_, RawMemory_.GetAddress. simpl.
    eapply load_middle; [by erewrite heap_lookup_insert|].
    rewrite length_fmap. lia.
  - intros i y Hy.
    apply list_elem_of_split_length in Hy as (l1 & l2 & -> & ->).
    eapply (load_middle _ b (Some <$> l1)).
    + erewrite heap_lookup_insert by done.
      by rewrite fmap_app, <- app_assoc.
    + rewrite length_fmap. unfold begin, RawMemory_.GetAddress. simpl. lia.
  - intros w lw Hw Hsep. eapply repr_ext; [done|]. intros c o Hwb.
    unfold separate in Hsep. simpl in Hsep. rewrite Hwb in Hsep.
    by rewrite list_lookup_insert_ne.
Qed.

(** X14.  [Emplace] with spare capacity and a constructor that throws:
    the handler gives [end()] to [operator delete].  On an empty vector
    that is the address of the buffer, which is released while the
    vector keeps pointing to it, so that the destructor of the vector
    releases it a second time; on a vector with elements it is an
    address inside the buffer, and the behaviour is undefined. *)
Theorem Emplace_in_place_throwing {A} (T_ctor : A → option T) args
    h v l (k : nat) :
  repr h v l → (size_ v < Capacity v)%nat → (k ≤ length l)%nat →
  T_ctor args = None →
  ∃ b, buffer_ (data_ v) = Ptr b 0 ∧
    Emplace T_ctor (begin v +ₚ Z.of_nat k) args (h, v)
    = (if decide (size_ v = 0%nat) then Throw (<[b := None]> h, v) else UB) ∧
    (size_ v = 0%nat → dtor v (<[b := None]> h) = UB).
Proof.
  intros (Hsz & Hle & Hbuf) Hcap Hk Hx. destruct v as [[buf cap] sz].
  unfold Capacity, RawMemory_.Capacity in *. simpl in *. subst sz.
  destruct buf as [|b o]; [lia|]. destruct Hbuf as [-> Hb].
  exists b. split; [done|]. split.
  - unfold Emplace. erewrite bind_Ret; [|done]. cbn [snd].
    erewrite bind_Ret.
    2:{ unfold assert, begin, end_, RawMemory_.GetAddress. simpl.
        rewrite !bool_decide_eq_true_2 by lia. done. }
    unfold RawMemory_.Capacity. cbn [data_ capacity_ size_].
    rewrite decide_False by lia.
    assert (∀ off,
      Emplace_try_block T_ctor
        (begin {| data_ := {| buffer_ := Ptr b 0; capacity_ := cap |};
                  size_ := length l |} +ₚ Z.of_nat k) args
        {| data_ := {| buffer_ := Ptr b 0; capacity_ := cap |};
           size_ := length l |} off
        (h, {| data_ := {| buffer_ := Ptr b 0; capacity_ := cap |};
               size_ := length l |})
      = Throw (h, {| data_ := {| buffer_ := Ptr b 0; capacity_ := cap |};
                     size_ := length l |})) as Htry.
    { intros off. unfold Emplace_try_block. case_decide.
      - by rewrite Hx.
      - unfold lift, placement_new, bind. simpl. by rewrite Hx. }
    unfold bind, unwinding. rewrite Htry.
    unfold lift, end_, RawMemory_.GetAddress, operator_delete. simpl.
    case_decide as Hz.
    + destruct l; [|done]. simpl. rewrite Hb. done.
    + rewrite decide_False by lia. done.
  - intros Hz. destruct l; [|done]. unfold dtor. simpl.
    unfold RawMemory_.dtor, RawMemory_.Deallocate, operator_delete, bind, ret.
    simpl.
    rewrite list_lookup_insert_eq by (by eapply lookup_lt_Some). done.
Qed.

(** X15.  [Erase] at [end()], or beyond, fails the assertion. *)
Theorem Erase_out_of_range h v l (k : nat) :
  repr h v l → (length l ≤ k)%nat →
  Erase (begin v +ₚ Z.of_nat k) (h, v) = UB.
Proof.
  intros (Hsz & Hle & Hbuf) Hk. destruct v as [[buf cap] sz].
  simpl in *. subst sz. unfold Erase.
  assert (∀ A (m : M (vstate T) A) s, m s = UB →
            noexcept_ is_nothrow_move_assignable m s = UB) as Hno.
  { intros A m s Hm. unfold noexcept_.
    destruct is_nothrow_move_assignable; by rewrite ?Hm. }
  apply Hno. erewrite bind_Ret; [|done]. cbn [snd].
  apply bind_UB. unfold assert, begin, end_, RawMemory_.GetAddress. simpl.
  destruct buf as [|b o]; simpl.
  - done.
  - rewrite (bool_decide_eq_false_2 (_ < _)) by lia.
    by rewrite !andb_false_r.
Qed.

(** X16.  [RawMemory(n)] followed by its destructor: nothing is
    allocated for [n = 0] (the buffer is null); otherwise a fresh block
    is appended to the store and the buffer is its address.  The block
    has [n] raw slots if [n * sizeof(T)] does not exceed [SIZE_MAX];
    if the product wraps around, the block has fewer than [n] slots.
    The capacity is [n] in all cases, and the destructor releases the
    block. *)
Theorem RawMemory_ctor_dtor (n : nat) h :
  ∃ rm h1,
    RawMemory_.ctor n h = Ret rm h1 ∧
    capacity_ rm = n ∧
    (n = 0%nat → buffer_ rm = nullptr ∧ h1 = h) ∧
    (n ≠ 0%nat →
     buffer_ rm = Ptr (length h) 0 ∧
     ∃ k, h1 = h ++ [Some (replicate k None)] ∧
          (fits T n → k = n) ∧ (¬ fits T n → (k < n)%nat)) ∧
    RawMemory_.dtor rm h1
    = Ret tt (if decide (n = 0%nat) then h else h ++ [None]).
Proof.
  destruct (decide (n = 0%nat)) as [->|Hn].
  - exists RawMemory_.default, h. repeat split; done.
  - eexists _, _. split.
    { unfold RawMemory_.ctor, RawMemory_.Allocate.
      rewrite decide_True by done. done. }
    cbv zeta. split; [done|]. split; [done|]. split.
    + intros _. split; [done|]. eexists. split; [done|].
      split; [apply Allocate_slots|apply Allocate_slots_wrapped].
    + unfold RawMemory_.dtor, RawMemory_.Deallocate. cbn [buffer_].
      erewrite operator_delete_spec by apply heap_lookup_fresh.
      by rewrite heap_insert_fresh.
Qed.

End edge_facts.

Section round_trips.
Context {T : Type} `{!Element T}.
Import Vector_.
Implicit Types (h : heap T) (v : Vector) (l : list T).

(** X17.  A copy, of a source whose elements take at most [SIZE_MAX]
    bytes, that is destroyed again leaves no block allocated (and the
    store untouched if the source was empty), and the source holds what
    it held. *)
Theorem copy_ctor_dtor h other l :
  copy_preserves T → repr h other l → fits T (size_ other) →
  (c <- copy_ctor other;; dtor c) h
  = Ret tt (if decide (l = []) then h else h ++ [None]) ∧
  repr (h ++ [None]) other l.
Proof.
  intros Hc Hr Hfit. rewrite (repr_size _ _ _ Hr) in Hfit.
  split; [|by apply repr_app].
  case_decide as Hl.
  - subst l. erewrite bind_Ret; [|by apply copy_ctor_nil]. done.
  - erewrite bind_Ret; [|by apply copy_ctor_Ret].
    erewrite (dtor_Ret _ _ l).
    + simpl. by rewrite heap_insert_fresh.
    + split; [done|]. split; [done|]. simpl. split; [done|].
      rewrite heap_lookup_fresh, Nat.sub_diag. simpl. by rewrite app_nil_r.
Qed.

Lemma PopBack_repr h v l x :
  repr h v (l ++ [x]) →
  ∃ h',
    PopBack (h, v) = Ret tt (h', {| data_ := data_ v; size_ := length l |}) ∧
    repr h' {| data_ := data_ v; size_ := length l |} l.
Proof.
  intros (Hsz & Hle & Hbuf). destruct v as [[buf cap] sz].
  rewrite length_app in *. simpl in *. subst sz.
  destruct buf as [|b o]; [lia|]. destruct Hbuf as [-> Hb].
  rewrite fmap_app, <- app_assoc in Hb. simpl in Hb.
  eexists. split.
  - eapply PopBack_Ret; [exact Hb|]. by rewrite length_fmap.
  - split; [done|]. simpl. split; [lia|]. split; [done|].
    erewrite heap_lookup_insert by done. do 3 f_equal.
    rewrite (replicate_middle _ 0 (cap - length l)) by lia. simpl.
    do 2 f_equal. lia.
Qed.

(** X18.  [EmplaceBack] and then [PopBack], on a vector of at most
    [INT_MAX] elements (whose doubled capacity, if it is full, takes at
    most [SIZE_MAX] bytes): the vector holds what it held before, with
    the same size, in a buffer of the capacity [EmplaceBack] left
    (doubled, or 1, if the vector was full); so for [PushBack], in both
    overloads. *)
Theorem EmplaceBack_PopBack {A} (T_ctor : A → option T) args x h v l :
  copy_preserves T → move_preserves T →
  repr h v l → Z.of_nat (size_ v) ≤ INT_MAX →
  (size_ v = Capacity v → fits T (grown (size_ v))) →
  let back_to_l (r : outcome (vstate T) unit) :=
    ∃ h' v', r = Ret tt (h', v') ∧ repr h' v' l ∧ size_ v' = size_ v ∧
             Capacity v' = (if decide (size_ v = Capacity v)
                            then grown (size_ v) else Capacity v) in
  (T_ctor args = Some x →
   back_to_l ((EmplaceBack T_ctor args;; PopBack) (h, v))) ∧
  back_to_l ((PushBack x;; PopBack) (h, v)) ∧
  back_to_l ((PushBack_rvalue x;; PopBack) (h, v)).
Proof.
  intros Hc Hm Hr Hmax Hfit back_to_l.
  assert (∀ B (ctor : B → option T) a, ctor a = Some x →
            back_to_l ((EmplaceBack ctor a;; PopBack) (h, v))) as Hall.
  { intros B ctor a Hx.
    destruct (EmplaceBack_spec ctor a x h v l Hc Hm Hr Hx Hmax Hfit)
      as (h1 & v1 & Hrun & Hr1 & Hcap1).
    destruct (PopBack_repr h1 v1 l x Hr1) as (h2 & Hpop & Hr2).
    exists h2, {| data_ := data_ v1; size_ := length l |}.
    split; [by erewrite bind_Ret|]. split; [done|].
    split; [by rewrite (repr_size _ _ _ Hr)|]. exact Hcap1. }
  split; [apply Hall|]. split.
  - unfold PushBack. destruct (Hall _ T_copy x (Hc x)) as (h' & v' & Hrun & ?).
    exists h', v'. split; [|done].
    unfold bind in *. by destruct (EmplaceBack T_copy x (h, v)) as [? []| |].
  - unfold PushBack_rvalue.
    destruct (Hall _ (λ y, fst <$> T_move y) x (Hm x)) as (h' & v' & Hrun & ?).
    exists h', v'. split; [|done].
    unfold bind in *.
    by destruct (EmplaceBack (λ y, fst <$> T_move y) x (h, v)) as [? []| |].
Qed.

Lemma Emplace_exact {A} (T_ctor : A → option T) args x h v l (k : nat) :
  copy_preserves T → move_preserves T → move_assign_preserves T →
  repr h v l → (k ≤ length l)%nat → Z.of_nat (size_ v) ≤ INT_MAX →
  T_ctor args = Some x →
  ((Capacity v ≤ size_ v)%nat → fits T (grown (size_ v))) →
  ∃ h1 b1 cap1,
    Emplace T_ctor (begin v +ₚ Z.of_nat k) args (h, v)
    = Ret (Ptr b1 (Z.of_nat k))
        (h1, {| data_ := {| buffer_ := Ptr b1 0; capacity_ := cap1 |};
                size_ := length l + 1 |}) ∧
    h1 !! b1 = Some (Some ((Some <$> (take k l ++ x :: drop k l))
                           ++ replicate (cap1 - (length l + 1)) None)) ∧
    (length l < cap1)%nat ∧
    cap1 = (if decide (Capacity v ≤ size_ v)%nat then grown (size_ v)
            else Capacity v).
Proof.
  intros Hc Hm Hma (Hsz & Hle & Hbuf) Hk Hmax Hx Hfit.
  destruct v as [[buf cap] sz].
  unfold Capacity, RawMemory_.Capacity in *. simpl in *. subst sz.
  case_decide as Hfull.
  - specialize (Hfit Hfull).
    assert (cap = length l) as -> by lia.
    rewrite Nat.sub_diag in Hbuf. simpl in Hbuf.
    destruct (Emplace_growth T_ctor args x h buf l k) as (h' & Hrun & Hnew);
      try done.
    { destruct buf as [|b o]; [by destruct l|].
      by rewrite app_nil_r in Hbuf. }
    exists h', (length h), (grown (length l)).
    split; [exact Hrun|]. split; [exact Hnew|].
    split; [apply grown_gt|done].
  - destruct buf as [|b o]; [lia|]. destruct Hbuf as [-> Hb].
    pose proof (Emplace_in_place T_ctor args x h b cap l k Hm Hma Hb Hx Hk
                  ltac:(lia) Hmax) as Hrun.
    simpl in Hrun. eexists _, b, cap.
    split; [exact Hrun|]. split; [by erewrite heap_lookup_insert|].
    split; [lia|done].
Qed.

(** X19.  [Emplace] at index [k] and then [Erase] at the iterator it
    returned, on a vector of at most [INT_MAX] elements (whose doubled
    capacity, if it is full, takes at most [SIZE_MAX] bytes): the
    vector holds what it held before, with the same size, in a buffer
    of the capacity [Emplace] left, and [Erase] returns the iterator
    [begin() + k] again. *)
Theorem Emplace_Erase {A} (T_ctor : A → option T) args x h v l (k : nat) :
  copy_preserves T → move_preserves T → move_assign_preserves T →
  repr h v l → (k ≤ length l)%nat → Z.of_nat (size_ v) ≤ INT_MAX →
  T_ctor args = Some x →
  ((Capacity v ≤ size_ v)%nat → fits T (grown (size_ v))) →
  ∃ h' v',
    (p <- Emplace T_ctor (begin v +ₚ Z.of_nat k) args;; Erase p) (h, v)
    = Ret (begin v' +ₚ Z.of_nat k) (h', v') ∧
    repr h' v' l ∧ size_ v' = size_ v ∧
    Capacity v' = (if decide (Capacity v ≤ size_ v)%nat then grown (size_ v)
                   else Capacity v).
Proof.
  intros Hc Hm Hma Hr Hk Hmax Hx Hfit.
  destruct (Emplace_exact T_ctor args x h v l k Hc Hm Hma Hr Hk Hmax Hx Hfit)
    as (h1 & b1 & cap1 & Hrun & Hb1 & Hcap1 & Hcapeq).
  assert (length (take k l) = k) as Htk by (rewrite length_take; lia).
  assert (length (take k l ++ x :: drop k l) = (length l + 1)%nat) as Hlen.
  { rewrite length_app, Htk. simpl. rewrite length_drop. lia. }
  pose proof (Erase_Ret h1 b1 cap1 (take k l) x (drop k l)
                (replicate (cap1 - (length l + 1)) None) k Hma Hb1 Htk)
    as Her.
  simpl in Her. rewrite Hlen, take_drop in Her.
  eexists _, {| data_ := {| buffer_ := Ptr b1 0; capacity_ := cap1 |};
                size_ := length l |}.
  split; [|split; [|split]].
  - erewrite bind_Ret; [|exact Hrun]. exact Her.
  - split; [done|]. simpl. split; [lia|]. split; [done|].
    erewrite heap_lookup_insert by done. do 3 f_equal.
    rewrite (replicate_middle _ 0 (cap1 - length l)) by lia. simpl.
    do 2 f_equal. lia.
  - by rewrite (repr_size _ _ _ Hr).
  - exact Hcapeq.
Qed.

(** X20.  [Emplace] at a position past [end()] of a vector that has a
    buffer fails the assertion. *)
Theorem Emplace_out_of_range {A} (T_ctor : A → option T) args h v l (k : nat) :
  repr h v l → buffer_ (data_ v) ≠ nullptr → (length l < k)%nat →
  Emplace T_ctor (begin v +ₚ Z.of_nat k) args (h, v) = UB.
Proof.
  intros (Hsz & Hle & Hbuf) Hnn Hk. destruct v as [[buf cap] sz].
  simpl in *. subst sz. destruct buf as [|b o]; [done|].
  unfold Emplace. erewrite bind_Ret; [|done]. cbn [snd].
  apply bind_UB. unfold assert, begin, end_, RawMemory_.GetAddress. simpl.
  rewrite (bool_decide_eq_false_2 (_ + _ ≤ _)) by lia.
  by rewrite !andb_false_r.
Qed.

(** X21.  [Emplace] at [end()] behaves as [EmplaceBack] does (same
    outcome, same store, same vector, same address returned), on the
    growth path always and with spare capacity if the constructor does
    not throw. *)
Theorem Emplace_end_EmplaceBack {A} (T_ctor : A → option T) args h v l :
  repr h v l → Z.of_nat (size_ v) ≤ INT_MAX →
  ((size_ v < Capacity v)%nat → is_Some (T_ctor args)) →
  Emplace T_ctor (end_ v) args (h, v) = EmplaceBack T_ctor args (h, v).
Proof.
  intros (Hsz & Hle & Hbuf) Hmax Hx. destruct v as [[buf cap] sz].
  unfold Capacity, RawMemory_.Capacity in Hx. simpl in *. subst sz.
  assert (to_int (ptr_diff (buf +ₚ Z.of_nat (length l)) buf)
          = Z.of_nat (length l)) as Hoff.
  { destruct buf as [|b o]; simpl.
    - subst cap. destruct l; [done|simpl in Hle; lia].
    - rewrite to_int_id; unfold INT_MAX in *; lia. }
  assert (ptr_le buf (buf +ₚ Z.of_nat (length l))
          && ptr_le (buf +ₚ Z.of_nat (length l)) (buf +ₚ Z.of_nat (length l))
          = true) as Hpos.
  { destruct buf as [|b o]; [done|]. simpl.
    by rewrite !bool_decide_eq_true_2 by lia. }
  unfold Emplace, EmplaceBack, bind, this, unwinding, lift, set_data,
    set_size, ret, assert, RawMemory_.plus, RawMemory_.ctor,
    RawMemory_.Allocate, operator_new, begin, end_, Capacity,
    RawMemory_.Capacity, RawMemory_.GetAddress, RawMemory_.Swap, bind, ret.
  cbn [snd fst data_ buffer_ capacity_ size_].
  rewrite Hpos, Hoff.
  destruct (decide (cap ≤ length l)%nat) as [Hfull|Hroom].
  - assert (cap = length l) as -> by lia.
    rewrite (decide_True (P := length l = length l)) by done.
    pose proof (grown_gt (length l)) as Hgt. unfold grown in Hgt.
    revert Hgt. generalize (if decide (length l = 0%nat) then 1%nat
                            else (length l * 2)%nat).
    intros g Hgt.
    rewrite (decide_True (P := g ≠ 0%nat)) by lia.
    cbn [fst snd buffer_ capacity_ data_ size_].
    rewrite (bool_decide_eq_true_2 (length l ≤ g)%nat) by lia.
    rewrite Z.sub_diag. change (to_int 0) with 0.
    rewrite to_int_id by (unfold INT_MAX in *; lia).
    unfold assert, ret.
    cbn [fst snd buffer_ capacity_ data_ size_].
    destruct (placement_new _ _ _ _) as [[] h1|h1|];
      cbn [fst snd buffer_ capacity_ data_ size_]; [| |done].
    2:{ by destruct (RawMemory_.dtor _ h1) as [[] h2|h2|]. }
    destruct (UninitializedConstructN buf _ _ h1) as [[] h2|h2|];
      cbn [fst snd buffer_ capacity_ data_ size_]; [| |done].
    2:{ by destruct (RawMemory_.dtor _ h2) as [[] h3|h3|]. }
    rewrite UninitializedConstructN_0 by done.
    cbn [fst snd buffer_ capacity_ data_ size_].
    destruct (destroy_n buf _ h2) as [[] h3|h3|];
      cbn [fst snd buffer_ capacity_ data_ size_]; [| |done].
    2:{ by destruct (RawMemory_.dtor _ h3) as [[] h4|h4|]. }
    by destruct (RawMemory_.dtor _ h3) as [[] h4|h4|].
  - rewrite (decide_False (P := length l = cap)) by lia.
    cbn [fst snd buffer_ capacity_ data_ size_].
    rewrite (bool_decide_eq_true_2 (length l ≤ cap)%nat) by lia.
    unfold assert, ret.
    cbn [fst snd buffer_ capacity_ data_ size_].
    destruct Hx as [x Hx]; [lia|].
    unfold Emplace_try_block, end_, RawMemory_.GetAddress, lift.
    cbn [fst snd buffer_ capacity_ data_ size_].
    rewrite decide_False by (by intros []).
    unfold placement_new, bind. rewrite Hx. simpl.
    destruct (construct_at _ x h) as [[] h1|h1|] eqn:Hcon; [done| |done].
    by apply nothrow_construct_at in Hcon.
Qed.
End round_trips.

Section move_facts.
Context {T : Type} `{!Element T}.
Import Vector_.
Implicit Types (h : heap T) (v : Vector) (l : list T).

(** X22.  Whenever the source of a [RawMemory] move construction or move
    assignment owns a block, destroying the destination and the source
    afterwards releases that block twice; and a destination of move
    assignment that owned another block no longer holds its address
    (nor does the source), while the block stays allocated. *)
Theorem RawMemory_move_double_release h b cap (blk : block T) :
  h !! b = Some (Some blk) →
  let src := {| buffer_ := Ptr b 0; capacity_ := cap |} in
  (r <- RawMemory_.move_ctor src;;
   RawMemory_.dtor r.1;; RawMemory_.dtor r.2) h = UB ∧
  ∀ this,
    (r <- RawMemory_.move_assign this src;;
     RawMemory_.dtor r.1;; RawMemory_.dtor r.2) h = UB ∧
    ∀ b' o' (blk' : block T),
      buffer_ this = Ptr b' o' → b' ≠ b → h !! b' = Some (Some blk') →
      ∃ r h', RawMemory_.move_assign this src h = Ret r h' ∧
              buffer_ r.1 ≠ buffer_ this ∧ buffer_ r.2 ≠ buffer_ this ∧
              h' !! b' = Some (Some blk').
Proof.
  intros Hb src.
  assert ((RawMemory_.dtor src;; RawMemory_.dtor src) h = UB) as Htwice.
  { unfold RawMemory_.dtor, RawMemory_.Deallocate. cbn [buffer_ src].
    erewrite bind_Ret; [|by eapply operator_delete_spec].
    unfold operator_delete. simpl.
    by rewrite list_lookup_insert_eq by (by eapply lookup_lt_Some). }
  split; [exact Htwice|]. intros this. split; [exact Htwice|].
  intros b' o' blk' Hthis Hne Hb'.
  eexists _, _. split; [done|]. simpl. rewrite Hthis.
  split; [congruence|]. split; [congruence|]. done.
Qed.

(** X23.  Unlike that of [RawMemory], the move constructor of [Vector]
    leaves its source empty: destroying the source and then the new
    vector returns normally and does what destroying the original
    vector does; the vectors with a different buffer hold what they
    held. *)
Theorem move_ctor_dtor h other l :
  repr h other l →
  ∃ h',
    (r <- move_ctor other;; dtor r.2;; dtor r.1) h = Ret tt h' ∧
    dtor other h = Ret tt h' ∧
    ∀ w lw, repr h w lw → separate other w → repr h' w lw.
Proof.
  intros Hr. pose proof (dtor_Ret h other l Hr) as Hd.
  eexists. split; [|split; [exact Hd|]].
  - destruct other as [[buf cap] sz].
    erewrite bind_Ret; [|done]. cbn [fst snd].
    erewrite bind_Ret; [|done]. exact Hd.
  - intros w lw Hw Hsep. destruct Hr as (_ & _ & Hbuf).
    destruct (buffer_ (data_ other)) as [|b o] eqn:Hv; [done|].
    eapply repr_ext; [done|]. intros c oc Hc.
    unfold separate in Hsep. rewrite Hv, Hc in Hsep.
    by rewrite list_lookup_insert_ne.
Qed.
End move_facts.

Section room_facts.
Context {T : Type} `{!Element T}.
Import Vector_.
Implicit Types (h : heap T) (v : Vector) (l : list T).

Lemma EmplaceBack_room {A} (T_ctor : A → option T) args x h b cap l :
  h !! b = Some (Some ((Some <$> l) ++ replicate (cap - length l) None)) →
  (length l < cap)%nat → T_ctor args = Some x →
  EmplaceBack T_ctor args
    (h, {| data_ := {| buffer_ := Ptr b 0; capacity_ := cap |};
           size_ := length l |})
  = Ret (Ptr b (Z.of_nat (length l)))
      (<[b := Some ((Some <$> l ++ [x])
                    ++ replicate (cap - (length l + 1)) None)]> h,
       {| data_ := {| buffer_ := Ptr b 0; capacity_ := cap |};
          size_ := length l + 1 |}).
Proof.
  intros Hb Hcap Hx.
  rewrite (replicate_middle _ 0 (cap - length l)) in Hb by lia.
  simpl in Hb.
  replace (cap - length l - 0 - 1)%nat with (cap - (length l + 1))%nat in Hb
    by lia.
  unfold EmplaceBack. erewrite bind_Ret; [|done].
  cbn [snd]. unfold Capacity, RawMemory_.Capacity. cbn [data_ capacity_ size_].
  rewrite decide_False by lia.
  erewrite bind_Ret.
  2:{ erewrite bind_Ret; [|apply lift_Ret, plus_spec; simpl; lia].
      erewrite bind_Ret; [done|].
      apply lift_Ret. simpl. eapply placement_new_middle; [done..|].
      rewrite length_fmap. lia. }
  simpl. by rewrite fmap_app, <- app_assoc.
Qed.

Lemma push_room a h b cap l :
  copy_preserves T → move_preserves T →
  h !! b = Some (Some ((Some <$> l) ++ replicate (cap - length l) None)) →
  (length l < cap)%nat →
  push a (h, {| data_ := {| buffer_ := Ptr b 0; capacity_ := cap |};
                size_ := length l |})
  = Ret tt
      (<[b := Some ((Some <$> l ++ [arg_value a])
                    ++ replicate (cap - (length l + 1)) None)]> h,
       {| data_ := {| buffer_ := Ptr b 0; capacity_ := cap |};
          size_ := length l + 1 |}).
Proof.
  intros Hc Hm Hb Hcap. destruct a as [x|x]; simpl.
  - unfold PushBack. by erewrite bind_Ret; [|by apply EmplaceBack_room].
  - unfold PushBack_rvalue.
    by erewrite bind_Ret;
      [|by apply (EmplaceBack_room (λ y, fst <$> T_move y) x x)].
Qed.

Lemma push_all_room args : ∀ h b cap l,
  copy_preserves T → move_preserves T →
  h !! b = Some (Some ((Some <$> l) ++ replicate (cap - length l) None)) →
  (length l + length args ≤ cap)%nat →
  push_all args
    (h, {| data_ := {| buffer_ := Ptr b 0; capacity_ := cap |};
           size_ := length l |})
  = Ret (replicate (length args) cap)
      (<[b := Some ((Some <$> l ++ (arg_value <$> args))
                    ++ replicate (cap - (length l + length args)) None)]> h,
       {| data_ := {| buffer_ := Ptr b 0; capacity_ := cap |};
          size_ := length l + length args |}).
Proof.
  induction args as [|a args IH]; intros h b cap l Hc Hm Hb Hlen.
  - simpl. rewrite app_nil_r, !Nat.add_0_r.
    by rewrite (list_insert_id h b) by done.
  - simpl in Hlen. simpl.
    erewrite bind_Ret; [|apply push_room; try done; lia].
    erewrite bind_Ret; [|done]. cbn [snd].
    pose proof (IH (<[b := Some ((Some <$> l ++ [arg_value a])
                    ++ replicate (cap - (length l + 1)) None)]> h)
                  b cap (l ++ [arg_value a]) Hc Hm) as Hrun.
    rewrite length_app in Hrun. simpl in Hrun.
    erewrite bind_Ret; cycle 1.
    { apply Hrun; [|simpl in Hlen; lia]. by erewrite heap_lookup_insert. }
    unfold ret, Capacity, RawMemory_.Capacity. simpl.
    rewrite list_insert_insert_eq, <- app_assoc. simpl.
    by replace (length l + Datatypes.S (length args))%nat
      with (length l + 1 + length args)%nat by lia.
Qed.

(** X24.  [PushBack] calls, of either overload, that fit in the capacity
    (as after a [Reserve]) never reallocate: each returns normally and
    leaves the capacity and the buffer as they were, the vector holds the
    pushed values after its old elements, in the order of the calls, and
    the old elements stay readable at their addresses. *)
Theorem PushBack_within_capacity (args : list (push_arg T)) h v l :
  copy_preserves T → move_preserves T →
  repr h v l → (size_ v + length args ≤ Capacity v)%nat →
  ∃ h',
    let v' := {| data_ := data_ v; size_ := size_ v + length args |} in
    push_all args (h, v) = Ret (replicate (length args) (Capacity v)) (h', v') ∧
    repr h' v' (l ++ (arg_value <$> args)) ∧
    (∀ i y, l !! i = Some y → load (begin v +ₚ Z.of_nat i) h' = Ret y h') ∧
    (∀ w lw, repr h w lw → separate v w → repr h' w lw).
Proof.
  intros Hc Hm (Hsz & Hle & Hbuf) Hlen. destruct v as [[buf cap] sz].
  unfold Capacity, RawMemory_.Capacity in *. simpl in *. subst sz.
  destruct buf as [|b o].
  - subst cap. destruct l; [|simpl in Hle; lia].
    destruct args; [|simpl in Hlen; lia].
    exists h. split; [done|]. split; [done|]. split; [done|]. auto.
  - destruct Hbuf as [-> Hb].
    eexists. split; [by apply push_all_room|].
    split; [|split].
    + split; [by rewrite length_app, length_fmap|]. simpl.
      split; [rewrite length_app, length_fmap; lia|]. split; [done|].
      erewrite heap_lookup_insert by done.
      by rewrite length_app, length_fmap.
    + intros i y Hy.
      apply list_elem_of_split_length in Hy as (l1 & l2 & -> & ->).
      eapply (load_middle _ b (Some <$> l1)).
      * erewrite heap_lookup_insert by done.
        rewrite <- !app_assoc, fmap_app, <- app_assoc. done.
      * rewrite length_fmap. unfold begin, RawMemory_.GetAddress. simpl. lia.
    + intros w lw Hw Hsep. eapply repr_ext; [done|]. intros c oc Hwb.
      unfold separate in Hsep. simpl in Hsep. rewrite Hwb in Hsep.
      by rewrite list_lookup_insert_ne.
Qed.

(** X25.  [EmplaceBack] with spare capacity and a constructor that
    throws: the exception leaves [EmplaceBack] with the store and the
    vector exactly as they were (where [Emplace] at [end()] releases the
    buffer or is undefined). *)
Theorem EmplaceBack_in_place_throwing {A} (T_ctor : A → option T) args
    h v l :
  repr h v l → (size_ v < Capacity v)%nat → T_ctor args = None →
  EmplaceBack T_ctor args (h, v) = Throw (h, v).
Proof.
  intros (Hsz & Hle & Hbuf) Hcap Hx. destruct v as [[buf cap] sz].
  unfold Capacity, RawMemory_.Capacity in *. simpl in *. subst sz.
  unfold EmplaceBack. erewrite bind_Ret; [|done].
  cbn [snd]. unfold Capacity, RawMemory_.Capacity. cbn [data_ capacity_ size_].
  rewrite decide_False by lia.
  apply bind_Throw.
  erewrite bind_Ret; [|apply lift_Ret, plus_spec; simpl; lia].
  apply bind_Throw. unfold lift, placement_new, bind. simpl. by rewrite Hx.
Qed.
End room_facts.

Section bounded_facts.
Context {T : Type} `{!Element T}.
Import Vector_.
Implicit Types (h : heap T) (v : Vector) (l : list T).

(** X26.  Starting from an empty vector, [k] consecutive [PushBack] calls
    (at most [INT_MAX + 1] of them, of either overload, where the last
    capacity takes at most [SIZE_MAX] bytes) return normally; the
    capacity read after the [i]-th call is the least power of two that
    is at least [i] (1, 2, 4, 4, 8, ...), the size is then [k], and the
    vector holds the pushed values in the order of the calls.  This
    progression starts at 0 and, at each call, doubles (1 from 0) exactly
    when the size has reached the capacity. *)
Theorem PushBack_from_empty (args : list (push_arg T)) h :
  copy_preserves T → move_preserves T →
  Z.of_nat (length args) ≤ INT_MAX + 1 →
  fits T (capacity_after (length args)) →
  (∃ h' v',
     push_all args (h, Vector_.default)
     = Ret (capacity_after <$> seq 1 (length args)) (h', v') ∧
     size_ v' = length args ∧
     repr h' v' (arg_value <$> args)) ∧
  capacity_after 0 = 0%nat ∧
  (∀ n, capacity_after (Datatypes.S n)
        = if decide (n = capacity_after n) then grown n
          else capacity_after n).
Proof.
  intros Hc Hm Hmax Hfit. split; [|split; [done|apply capacity_after_S]].
  destruct (push_all_spec args h Vector_.default [])
    as (h' & v' & Hrun & Hr & _); try done.
  exists h', v'. split; [done|]. split; [|done].
  apply repr_size in Hr. rewrite Hr. simpl. by rewrite length_fmap.
Qed.

(** X27.  [Emplace] at index [k <= size] of a vector of at most [INT_MAX]
    elements holding [l] (whose doubled capacity, if it is full, takes
    at most [SIZE_MAX] bytes), with arguments from which the
    constructor makes [x], returns normally; the vector then holds [l]
    with [x] put in at index [k], its size is one more, and the iterator
    returned is [begin() + k], where [x] lives.  [Insert(pos, value)]
    does the same with [value], in both overloads. *)
Theorem Emplace_spec {A} (T_ctor : A → option T) args x h v l (k : nat) :
  copy_preserves T → move_preserves T → move_assign_preserves T →
  repr h v l → (k ≤ length l)%nat → Z.of_nat (size_ v) ≤ INT_MAX →
  ((Capacity v ≤ size_ v)%nat → fits T (grown (size_ v))) →
  let pos := begin v +ₚ Z.of_nat k in
  (T_ctor args = Some x →
   inserted l k x (size_ v) (Emplace T_ctor pos args (h, v))) ∧
  inserted l k x (size_ v) (Insert pos x (h, v)) ∧
  inserted l k x (size_ v) (Insert_rvalue pos x (h, v)).
Proof.
  intros Hc Hm Hma Hr Hk Hmax Hfit pos.
  assert (∀ B (ctor : B → option T) a, ctor a = Some x →
            inserted l k x (size_ v) (Emplace ctor pos a (h, v))) as Hall.
  { intros B ctor a Hx. destruct Hr as (Hsz & Hle & Hbuf).
    destruct v as [[buf cap] sz].
    unfold Capacity, RawMemory_.Capacity in Hfit. simpl in *. subst sz pos.
    assert (length (take k l ++ x :: drop k l) = (length l + 1)%nat) as Hlen.
    { rewrite length_app, length_take. simpl. rewrite length_drop. lia. }
    destruct (decide (cap ≤ length l)%nat) as [Hfull|Hroom].
    - specialize (Hfit Hfull).
      assert (cap = length l) as -> by lia.
      rewrite Nat.sub_diag in Hbuf. simpl in Hbuf.
      destruct (Emplace_growth ctor a x h buf l k) as (h' & Hrun & Hnew);
        try done.
      { destruct buf as [|b o]; [by destruct l|].
        by rewrite app_nil_r in Hbuf. }
      exists h', {| data_ := {| buffer_ := Ptr (length h) 0;
                                 capacity_ := grown (length l) |};
                    size_ := length l + 1 |}.
      split; [exact Hrun|]. split; [|split; [done|]].
      + split; [by rewrite Hlen|]. simpl.
        split; [rewrite Hlen; pose proof (grown_gt (length l)); lia|].
        split; [done|]. by rewrite Hlen.
      + simpl. rewrite <- (take_drop k l) in Hnew at 2.
        rewrite fmap_app, <- app_assoc in Hnew. simpl in Hnew.
        eapply load_middle; [exact Hnew|].
        rewrite length_fmap, length_take. lia.
    - destruct buf as [|b o]; [lia|]. destruct Hbuf as [-> Hb].
      pose proof (Emplace_in_place ctor a x h b cap l k Hm Hma Hb Hx Hk
                    ltac:(lia) Hmax) as Hrun.
      simpl in Hrun.
      eexists _, {| data_ := {| buffer_ := Ptr b 0; capacity_ := cap |};
                    size_ := length l + 1 |}.
      split; [exact Hrun|]. split; [|split; [done|]].
      + split; [by rewrite Hlen|]. simpl. split; [rewrite Hlen; lia|].
        split; [done|]. rewrite Hlen. by erewrite heap_lookup_insert.
      + simpl. eapply (load_middle _ b (Some <$> take k l)).
        * erewrite heap_lookup_insert by done.
          by rewrite fmap_app, <- app_assoc.
        * rewrite length_fmap, length_take. lia. }
  split; [apply Hall|]. split.
  - apply Hall, Hc.
  - apply Hall, Hm.
Qed.
End bounded_facts.

(** ** Instances of the properties above *)

Lemma ctor_spec_witness :
  T_default (T := Z) = Some 0 ∧ fits Z 2 ∧
  ∃ h' v, ctor 2 [] = Ret v h' ∧ repr h' v [0; 0] ∧ Capacity v = 2%nat.
Proof.
  assert (T_default (T := Z) = Some 0) as H1 by reflexivity.
  assert (fits Z 2) as H2 by by_evaluation.
  repeat (split; [assumption|]).
  destruct (ctor_spec 2 [] 0 H1 H2) as (h' & v & Hrun & Hr & _ & Hcap & _).
  exists h', v. repeat (split; [assumption|]); assumption.
Defined.

Lemma ctor_throwing_witness :
  let E := throwing_default_Element in
  T_default (Element := E) = None ∧
  ctor (Element0 := E) 2 [] = Throw [None].
Proof.
  intros E.
  assert (T_default (Element := E) = None) as H1 by reflexivity.
  split; [assumption|].
  exact (ctor_throwing (Element0 := E) 2 [] H1).
Defined.

Lemma copy_ctor_spec_witness :
  let h : heap Z := [Some [Some 7; Some 8; None]] in
  let other := {| data_ := {| buffer_ := Ptr 0 0; capacity_ := 3 |};
                  size_ := 2 |} in
  copy_preserves Z ∧ repr h other [7; 8] ∧ fits Z (size_ other) ∧
  ∃ h' v, copy_ctor other h = Ret v h' ∧ repr h' v [7; 8] ∧
          Capacity v = 2%nat ∧ separate v other.
Proof.
  intros h other.
  assert (copy_preserves Z) as H1 by (intros x; reflexivity).
  assert (repr h other [7; 8]) as H2 by by_evaluation.
  assert (fits Z (size_ other)) as H3 by by_evaluation.
  repeat (split; [assumption|]).
  destruct (copy_ctor_spec h other [7; 8] H1 H2 H3)
    as (h' & v & Hrun & Hr & Hcap & Hsep & _).
  exists h', v. repeat (split; [assumption|]); assumption.
Defined.

Lemma copy_ctor_Throw_witness :
  let E := throwing_copy_Element in
  let h : heap Z := [Some [Some 1; Some 13]] in
  let other := {| data_ := {| buffer_ := Ptr 0 0; capacity_ := 2 |};
                  size_ := 2 |} in
  copy_ctor (Element0 := E) other h = Throw [Some [Some 1; Some 13]; None] ∧
  [Some [Some 1; Some 13]; None] = h ++ [None] ∧
  ∀ w l, repr h w l → repr [Some [Some 1; Some 13]; None] w l.
Proof.
  intros E h other.
  assert (copy_ctor (Element0 := E) other h
          = Throw [Some [Some 1; Some 13]; None]) as H1 by by_evaluation.
  split; [assumption|].
  exact (copy_ctor_Throw (Element0 := E) h other _ H1).
Defined.


Lemma Reserve_spec_witness :
  let h : heap Z := [Some [Some 7; Some 8]] in
  let v := {| data_ := {| buffer_ := Ptr 0 0; capacity_ := 2 |};
              size_ := 2 |} in
  copy_preserves Z ∧ move_preserves Z ∧ repr h v [7; 8] ∧
  Z.of_nat (size_ v) ≤ INT_MAX ∧ ((Capacity v < 5)%nat → fits Z 5) ∧
  ∃ h' v', Reserve 5 (h, v) = Ret tt (h', v') ∧ repr h' v' [7; 8] ∧
           Capacity v' = (5 `max` Capacity v)%nat.
Proof.
  intros h v.
  assert (copy_preserves Z) as H1 by (intros x; reflexivity).
  assert (move_preserves Z) as H2 by (intros x; reflexivity).
  assert (repr h v [7; 8]) as H3 by by_evaluation.
  assert (Z.of_nat (size_ v) ≤ INT_MAX) as H4 by by_evaluation.
  assert ((Capacity v < 5)%nat → fits Z 5) as H5 by (intros _; by_evaluation).
  repeat (split; [assumption|]).
  destruct (Reserve_spec 5 h v [7; 8] H1 H2 H3 H4 H5)
    as (h' & v' & Hrun & Hr & _ & Hcap & _).
  exists h', v'. repeat (split; [assumption|]); assumption.
Defined.

Lemma Resize_shrink_witness :
  let h : heap Z := [Some [Some 7; Some 8; Some 9; None]] in
  let v := {| data_ := {| buffer_ := Ptr 0 0; capacity_ := 4 |};
              size_ := 3 |} in
  repr h v [7; 8; 9] ∧ (1 < size_ v)%nat ∧
  ∃ h', Resize 1 (h, v) = Ret tt (h', {| data_ := data_ v; size_ := 1 |}) ∧
        repr h' {| data_ := data_ v; size_ := 1 |} (take 1 [7; 8; 9]).
Proof.
  intros h v.
  assert (repr h v [7; 8; 9]) as H1 by by_evaluation.
  assert (1 < size_ v)%nat as H2 by by_evaluation.
  repeat (split; [assumption|]).
  destruct (Resize_shrink 1 h v [7; 8; 9] H1 H2) as (h' & Hrun & Hr & _).
  exists h'. split; assumption.
Defined.

Lemma Resize_grow_witness :
  let h : heap Z := [Some [Some 7; Some 8]] in
  let v := {| data_ := {| buffer_ := Ptr 0 0; capacity_ := 2 |};
              size_ := 2 |} in
  T_default (T := Z) = Some 0 ∧ copy_preserves Z ∧ move_preserves Z ∧
  repr h v [7; 8] ∧ (size_ v ≤ 4)%nat ∧ Z.of_nat (size_ v) ≤ INT_MAX ∧
  ((Capacity v < 4)%nat → fits Z 4) ∧
  ∃ h' v', Resize 4 (h, v) = Ret tt (h', v') ∧
           repr h' v' ([7; 8] ++ replicate (4 - length [7; 8]) 0) ∧
           size_ v' = 4%nat.
Proof.
  intros h v.
  assert (T_default (T := Z) = Some 0) as H0 by reflexivity.
  assert (copy_preserves Z) as H1 by (intros x; reflexivity).
  assert (move_preserves Z) as H2 by (intros x; reflexivity).
  assert (repr h v [7; 8]) as H3 by by_evaluation.
  assert (size_ v ≤ 4)%nat as H4 by by_evaluation.
  assert (Z.of_nat (size_ v) ≤ INT_MAX) as H5 by by_evaluation.
  assert ((Capacity v < 4)%nat → fits Z 4) as H6 by (intros _; by_evaluation).
  repeat (split; [assumption|]).
  destruct (Resize_grow 4 h v [7; 8] 0 H0 H1 H2 H3 H4 H5 H6)
    as (h' & v' & Hrun & Hr & Hsz & _).
  exists h', v'. repeat (split; [assumption|]); assumption.
Defined.

Lemma Resize_throwing_witness :
  let E := throwing_default_Element in
  let h : heap Z := [Some [Some 7; Some 8]] in
  let v := {| data_ := {| buffer_ := Ptr 0 0; capacity_ := 2 |};
              size_ := 2 |} in
  T_default (Element := E) = None ∧
  copy_preserves (Element0 := E) Z ∧ move_preserves (Element0 := E) Z ∧
  repr h v [7; 8] ∧ (size_ v < 4)%nat ∧ Z.of_nat (size_ v) ≤ INT_MAX ∧
  ((Capacity v < 4)%nat → fits (Element0 := E) Z 4) ∧
  ∃ h' v', Resize (Element0 := E) 4 (h, v) = Throw (h', v') ∧
           repr h' v' [7; 8] ∧ size_ v' = size_ v ∧
           Capacity v' = (4 `max` Capacity v)%nat.
Proof.
  intros E h v.
  assert (T_default (Element := E) = None) as H0 by reflexivity.
  assert (copy_preserves (Element0 := E) Z) as H1 by (intros x; reflexivity).
  assert (move_preserves (Element0 := E) Z) as H2 by (intros x; reflexivity).
  assert (repr h v [7; 8]) as H3 by by_evaluation.
  assert (size_ v < 4)%nat as H4 by by_evaluation.
  assert (Z.of_nat (size_ v) ≤ INT_MAX) as H5 by by_evaluation.
  assert ((Capacity v < 4)%nat → fits (Element0 := E) Z 4) as H6
    by (intros _; by_evaluation).
  repeat (split; [assumption|]).
  exact (Resize_throwing (Element0 := E) 4 h v [7; 8] H0 H1 H2 H3 H4 H5 H6).
Defined.

Lemma copy_assign_any_witness :
  let h : heap Z := [Some [Some 1; None]; Some [Some 7; Some 8; Some 9]] in
  let a := {| data_ := {| buffer_ := Ptr 0 0; capacity_ := 2 |}; size_ := 1 |} in
  let b := {| data_ := {| buffer_ := Ptr 1 0; capacity_ := 3 |}; size_ := 3 |} in
  copy_preserves Z ∧ copy_assign_preserves Z ∧
  repr h a [1] ∧ repr h b [7; 8; 9] ∧ separate a b ∧
  ((Capacity a < size_ b)%nat → fits Z (size_ b)) ∧
  ∃ h' a', copy_assign (Other b) (h, a) = Ret tt (h', a') ∧
           repr h' a' [7; 8; 9] ∧ repr h' b [7; 8; 9].
Proof.
  intros h a b.
  assert (copy_preserves Z) as H1 by (intros x; reflexivity).
  assert (copy_assign_preserves Z) as H2 by (intros d x; reflexivity).
  assert (repr h a [1]) as H3 by by_evaluation.
  assert (repr h b [7; 8; 9]) as H4 by by_evaluation.
  assert (separate a b) as H5 by by_evaluation.
  assert ((Capacity a < size_ b)%nat → fits Z (size_ b)) as H6
    by (intros _; by_evaluation).
  repeat (split; [assumption|]).
  destruct (copy_assign_any h a b [1] [7; 8; 9] H1 H2 H3 H4 H5 H6)
    as (h' & a' & Hrun & Hra & Hrb & _).
  exists h', a'. repeat (split; [assumption|]); assumption.
Defined.

Lemma copy_assign_grows_Throw_witness :
  let E := throwing_copy_Element in
  let h : heap Z := [Some [Some 1]; Some [Some 7; Some 13]] in
  let a := {| data_ := {| buffer_ := Ptr 0 0; capacity_ := 1 |}; size_ := 1 |} in
  let b := {| data_ := {| buffer_ := Ptr 1 0; capacity_ := 2 |}; size_ := 2 |} in
  let s' : vstate Z := ([Some [Some 1]; Some [Some 7; Some 13]; None], a) in
  (Capacity a < size_ b)%nat ∧
  copy_assign (Element0 := E) (Other b) (h, a) = Throw s' ∧
  s' = (h ++ [None], a).
Proof.
  intros E h a b s'.
  assert (Capacity a < size_ b)%nat as H1 by by_evaluation.
  assert (copy_assign (Element0 := E) (Other b) (h, a) = Throw s') as H2
    by by_evaluation.
  repeat (split; [assumption|]).
  exact (copy_assign_grows_Throw (Element0 := E) h a b s' H1 H2).
Defined.

Lemma index_spec_witness :
  let h : heap Z := [Some [Some 7; Some 8; None]] in
  let v := {| data_ := {| buffer_ := Ptr 0 0; capacity_ := 3 |};
              size_ := 2 |} in
  repr h v [7; 8] ∧
  (∀ x, [7; 8] !! 1%nat = Some x →
        index 1 (h, v) = Ret (begin v +ₚ 1) (h, v) ∧
        load (begin v +ₚ 1) h = Ret x h) ∧
  ((length [7; 8] ≤ 1)%nat → index 1 (h, v) = UB).
Proof.
  intros h v.
  assert (repr h v [7; 8]) as H1 by by_evaluation.
  split; [assumption|].
  exact (index_spec h v [7; 8] 1 H1).
Defined.

Lemma EmplaceBack_in_place_witness :
  let h : heap Z := [Some [Some 7; Some 8; None]] in
  let v := {| data_ := {| buffer_ := Ptr 0 0; capacity_ := 3 |};
              size_ := 2 |} in
  repr h v [7; 8] ∧ (size_ v < Capacity v)%nat ∧
  ∃ h', EmplaceBack Some 9 (h, v)
        = Ret (end_ v) (h', {| data_ := data_ v; size_ := size_ v + 1 |}) ∧
        repr h' {| data_ := data_ v; size_ := size_ v + 1 |} ([7; 8] ++ [9]).
Proof.
  intros h v.
  assert (repr h v [7; 8]) as H1 by by_evaluation.
  assert (size_ v < Capacity v)%nat as H2 by by_evaluation.
  repeat (split; [assumption|]).
  destruct (EmplaceBack_in_place Some 9 9 h v [7; 8] H1 H2 eq_refl)
    as (h' & Hrun & Hr & _).
  exists h'. split; assumption.
Defined.

Lemma Emplace_in_place_throwing_witness :
  let h : heap Z := [Some [None; None]] in
  let v := {| data_ := {| buffer_ := Ptr 0 0; capacity_ := 2 |};
              size_ := 0 |} in
  let T_ctor : Z → option Z := λ _, None in
  repr h v [] ∧ (size_ v < Capacity v)%nat ∧ (0 ≤ length (@nil Z))%nat ∧
  T_ctor 9 = None ∧
  ∃ b, buffer_ (data_ v) = Ptr b 0 ∧
       Emplace T_ctor (begin v +ₚ Z.of_nat 0) 9 (h, v)
       = (if decide (size_ v = 0%nat) then Throw (<[b := None]> h, v) else UB) ∧
       (size_ v = 0%nat → dtor v (<[b := None]> h) = UB).
Proof.
  intros h v T_ctor.
  assert (repr h v []) as H1 by by_evaluation.
  assert (size_ v < Capacity v)%nat as H2 by by_evaluation.
  assert (0 ≤ length (@nil Z))%nat as H3 by (simpl; lia).
  assert (T_ctor 9 = None) as H4 by reflexivity.
  repeat (split; [assumption|]).
  exact (Emplace_in_place_throwing T_ctor 9 h v [] 0 H1 H2 H3 H4).
Defined.

Lemma Erase_out_of_range_witness :
  let h : heap Z := [Some [Some 7; Some 8; None]] in
  let v := {| data_ := {| buffer_ := Ptr 0 0; capacity_ := 3 |};
              size_ := 2 |} in
  repr h v [7; 8] ∧ (length [7; 8] ≤ 2)%nat ∧
  Erase (begin v +ₚ Z.of_nat 2) (h, v) = UB.
Proof.
  intros h v.
  assert (repr h v [7; 8]) as H1 by by_evaluation.
  assert (length [7; 8] ≤ 2)%nat as H2 by (simpl; lia).
  repeat (split; [assumption|]).
  exact (Erase_out_of_range h v [7; 8] 2 H1 H2).
Defined.

Lemma copy_ctor_dtor_witness :
  let h : heap Z := [Some [Some 7; Some 8; None]] in
  let other := {| data_ := {| buffer_ := Ptr 0 0; capacity_ := 3 |};
                  size_ := 2 |} in
  copy_preserves Z ∧ repr h other [7; 8] ∧ fits Z (size_ other) ∧
  (c <- copy_ctor other;; dtor c) h
  = Ret tt (if decide ([7; 8] = []) then h else h ++ [None]) ∧
  repr (h ++ [None]) other [7; 8].
Proof.
  intros h other.
  assert (copy_preserves Z) as H1 by (intros x; reflexivity).
  assert (repr h other [7; 8]) as H2 by by_evaluation.
  assert (fits Z (size_ other)) as H3 by by_evaluation.
  repeat (split; [assumption|]).
  exact (copy_ctor_dtor h other [7; 8] H1 H2 H3).
Defined.

Lemma EmplaceBack_PopBack_witness :
  let h : heap Z := [Some [Some 7; Some 8]] in
  let v := {| data_ := {| buffer_ := Ptr 0 0; capacity_ := 2 |};
              size_ := 2 |} in
  copy_preserves Z ∧ move_preserves Z ∧ repr h v [7; 8] ∧
  Z.of_nat (size_ v) ≤ INT_MAX ∧
  (size_ v = Capacity v → fits Z (grown (size_ v))) ∧
  ∃ h' v', (PushBack 9;; PopBack) (h, v) = Ret tt (h', v') ∧
           repr h' v' [7; 8] ∧ size_ v' = size_ v ∧
           Capacity v' = (if decide (size_ v = Capacity v)
                          then grown (size_ v) else Capacity v).
Proof.
  intros h v.
  assert (copy_preserves Z) as H1 by (intros x; reflexivity).
  assert (move_preserves Z) as H2 by (intros x; reflexivity).
  assert (repr h v [7; 8]) as H3 by by_evaluation.
  assert (Z.of_nat (size_ v) ≤ INT_MAX) as H4 by by_evaluation.
  assert (size_ v = Capacity v → fits Z (grown (size_ v))) as H5
    by (intros _; by_evaluation).
  repeat (split; [assumption|]).
  exact (proj1 (proj2 (EmplaceBack_PopBack Some 9 9 h v [7; 8]
                         H1 H2 H3 H4 H5))).
Defined.

Lemma Emplace_Erase_witness :
  let h : heap Z := [Some [Some 7; Some 8; None]] in
  let v := {| data_ := {| buffer_ := Ptr 0 0; capacity_ := 3 |};
              size_ := 2 |} in
  copy_preserves Z ∧ move_preserves Z ∧ move_assign_preserves Z ∧
  repr h v [7; 8] ∧ (1 ≤ length [7; 8])%nat ∧ Z.of_nat (size_ v) ≤ INT_MAX ∧
  ((Capacity v ≤ size_ v)%nat → fits Z (grown (size_ v))) ∧
  ∃ h' v', (p <- Emplace Some (begin v +ₚ Z.of_nat 1) 9;; Erase p) (h, v)
           = Ret (begin v' +ₚ Z.of_nat 1) (h', v') ∧
           repr h' v' [7; 8] ∧ size_ v' = size_ v.
Proof.
  intros h v.
  assert (copy_preserves Z) as H1 by (intros x; reflexivity).
  assert (move_preserves Z) as H2 by (intros x; reflexivity).
  assert (move_assign_preserves Z) as H3 by (intros d x; reflexivity).
  assert (repr h v [7; 8]) as H4 by by_evaluation.
  assert (1 ≤ length [7; 8])%nat as H5 by (simpl; lia).
  assert (Z.of_nat (size_ v) ≤ INT_MAX) as H6 by by_evaluation.
  assert ((Capacity v ≤ size_ v)%nat → fits Z (grown (size_ v))) as H7
    by (intros _; by_evaluation).
  repeat (split; [assumption|]).
  destruct (Emplace_Erase Some 9 9 h v [7; 8] 1 H1 H2 H3 H4 H5 H6 eq_refl H7)
    as (h' & v' & Hrun & Hr & Hsz & _).
  exists h', v'. repeat (split; [assumption|]); assumption.
Defined.

Lemma Emplace_out_of_range_witness :
  let h : heap Z := [Some [Some 7; Some 8; None]] in
  let v := {| data_ := {| buffer_ := Ptr 0 0; capacity_ := 3 |};
              size_ := 2 |} in
  repr h v [7; 8] ∧ buffer_ (data_ v) ≠ nullptr ∧ (length [7; 8] < 3)%nat ∧
  Emplace Some (begin v +ₚ Z.of_nat 3) 9 (h, v) = UB.
Proof.
  intros h v.
  assert (repr h v [7; 8]) as H1 by by_evaluation.
  assert (buffer_ (data_ v) ≠ nullptr) as H2 by (intros H; discriminate H).
  assert (length [7; 8] < 3)%nat as H3 by (simpl; lia).
  repeat (split; [assumption|]).
  exact (Emplace_out_of_range Some 9 h v [7; 8] 3 H1 H2 H3).
Defined.

Lemma Emplace_end_EmplaceBack_witness :
  let h : heap Z := [Some [Some 7; Some 8]] in
  let v := {| data_ := {| buffer_ := Ptr 0 0; capacity_ := 2 |};
              size_ := 2 |} in
  repr h v [7; 8] ∧ Z.of_nat (size_ v) ≤ INT_MAX ∧
  ((size_ v < Capacity v)%nat → is_Some (Some 9)) ∧
  Emplace Some (end_ v) 9 (h, v) = EmplaceBack Some 9 (h, v).
Proof.
  intros h v.
  assert (repr h v [7; 8]) as H1 by by_evaluation.
  assert (Z.of_nat (size_ v) ≤ INT_MAX) as H2 by by_evaluation.
  assert ((size_ v < Capacity v)%nat → is_Some (Some 9)) as H3
    by (intros _; exists 9; reflexivity).
  repeat (split; [assumption|]).
  exact (Emplace_end_EmplaceBack Some 9 h v [7; 8] H1 H2 H3).
Defined.

Lemma RawMemory_move_double_release_witness :
  let h : heap Z := [Some [None; None; None]] in
  let src := {| buffer_ := Ptr 0 0; capacity_ := 3 |} in
  h !! 0%nat = Some (Some [None; None; None]) ∧
  (r <- RawMemory_.move_ctor src;;
   RawMemory_.dtor r.1;; RawMemory_.dtor r.2) h = UB.
Proof.
  intros h src.
  assert (h !! 0%nat = Some (Some [None; None; None])) as H1 by reflexivity.
  split; [assumption|].
  exact (proj1 (RawMemory_move_double_release h 0 3 [None; None; None] H1)).
Defined.

Lemma move_ctor_dtor_witness :
  let h : heap Z := [Some [Some 7; Some 8; None]] in
  let other := {| data_ := {| buffer_ := Ptr 0 0; capacity_ := 3 |};
                  size_ := 2 |} in
  repr h other [7; 8] ∧
  ∃ h', (r <- move_ctor other;; dtor r.2;; dtor r.1) h = Ret tt h' ∧
        dtor other h = Ret tt h'.
Proof.
  intros h other.
  assert (repr h other [7; 8]) as H1 by by_evaluation.
  split; [assumption|].
  destruct (move_ctor_dtor h other [7; 8] H1) as (h' & Hrun & Hd & _).
  exists h'. split; assumption.
Defined.

Lemma PushBack_within_capacity_witness :
  let h : heap Z := [Some [Some 7; None; None; None]] in
  let v := {| data_ := {| buffer_ := Ptr 0 0; capacity_ := 4 |};
              size_ := 1 |} in
  let args := [lvalue 8; rvalue 9] in
  copy_preserves Z ∧ move_preserves Z ∧ repr h v [7] ∧
  (size_ v + length args ≤ Capacity v)%nat ∧
  ∃ h', push_all args (h, v)
        = Ret [4; 4]%nat (h', {| data_ := data_ v; size_ := 3 |}) ∧
        repr h' {| data_ := data_ v; size_ := 3 |} [7; 8; 9].
Proof.
  intros h v args.
  assert (copy_preserves Z) as H1 by (intros x; reflexivity).
  assert (move_preserves Z) as H2 by (intros x; reflexivity).
  assert (repr h v [7]) as H3 by by_evaluation.
  assert (size_ v + length args ≤ Capacity v)%nat as H4 by by_evaluation.
  repeat (split; [assumption|]).
  destruct (PushBack_within_capacity args h v [7] H1 H2 H3 H4)
    as (h' & Hrun & Hr & _).
  exists h'. split; assumption.
Defined.

Lemma EmplaceBack_in_place_throwing_witness :
  let h : heap Z := [Some [Some 7; None]] in
  let v := {| data_ := {| buffer_ := Ptr 0 0; capacity_ := 2 |};
              size_ := 1 |} in
  let T_ctor : Z → option Z := λ _, None in
  repr h v [7] ∧ (size_ v < Capacity v)%nat ∧ T_ctor 9 = None ∧
  EmplaceBack T_ctor 9 (h, v) = Throw (h, v).
Proof.
  intros h v T_ctor.
  assert (repr h v [7]) as H1 by by_evaluation.
  assert (size_ v < Capacity v)%nat as H2 by by_evaluation.
  assert (T_ctor 9 = None) as H3 by reflexivity.
  repeat (split; [assumption|]).
  exact (EmplaceBack_in_place_throwing T_ctor 9 h v [7] H1 H2 H3).
Defined.

Lemma PushBack_from_empty_witness :
  copy_preserves Z ∧ move_preserves Z ∧
  Z.of_nat (length [rvalue 10; rvalue 20; rvalue 30]) ≤ INT_MAX + 1 ∧
  fits Z (capacity_after (length [rvalue 10; rvalue 20; rvalue 30])) ∧
  ∃ h' v',
    push_all [rvalue 10; rvalue 20; rvalue 30] ([], Vector_.default)
    = Ret [1; 2; 4]%nat (h', v') ∧
    size_ v' = 3%nat ∧
    repr h' v' [10; 20; 30].
Proof.
  assert (copy_preserves Z) as H1 by (intros x; reflexivity).
  assert (move_preserves Z) as H2 by (intros x; reflexivity).
  assert (Z.of_nat (length [rvalue 10; rvalue 20; rvalue 30]) ≤ INT_MAX + 1)
    as H3 by by_evaluation.
  assert (fits Z (capacity_after (length [rvalue 10; rvalue 20; rvalue 30])))
    as H4 by by_evaluation.
  repeat (split; [assumption|]).
  exact (proj1 (PushBack_from_empty [rvalue 10; rvalue 20; rvalue 30] []
                  H1 H2 H3 H4)).
Defined.

Lemma Emplace_spec_witness :
  let h : heap Z := [Some [Some 10; Some 20; Some 30; None]] in
  let v := {| data_ := {| buffer_ := Ptr 0 0; capacity_ := 4 |}; size_ := 3 |} in
  copy_preserves Z ∧ move_preserves Z ∧ move_assign_preserves Z ∧
  repr h v [10; 20; 30] ∧ (1 ≤ 3)%nat ∧ Z.of_nat (size_ v) ≤ INT_MAX ∧
  ((Capacity v ≤ size_ v)%nat → fits Z (grown (size_ v))) ∧
  inserted [10; 20; 30] 1 15 3 (Insert (Ptr 0 1) 15 (h, v)).
Proof.
  intros h v.
  assert (copy_preserves Z) as H1 by (intros x; reflexivity).
  assert (move_preserves Z) as H2 by (intros x; reflexivity).
  assert (move_assign_preserves Z) as H3 by (intros d x; reflexivity).
  assert (repr h v [10; 20; 30]) as H4 by by_evaluation.
  assert (1 ≤ 3)%nat as H5 by lia.
  assert (Z.of_nat (size_ v) ≤ INT_MAX) as H6 by by_evaluation.
  assert ((Capacity v ≤ size_ v)%nat → fits Z (grown (size_ v))) as H7
    by (intros _; by_evaluation).
  repeat (split; [assumption|]).
  exact (proj1 (proj2 (Emplace_spec Some 15 15 h v [10; 20; 30] 1
                         H1 H2 H3 H4 H5 H6 H7))).
Defined.
